(** * PRAM: groups, split specs, populations and resources

    A shallow embedding of the mass-carrying core of the [pram] package
    ([pram/entity.py], [pram/pop.py], [pram/sim.py]) together with the
    properties its specification states about it.

    Conventions of the embedding.
    - Python [int] is [Z].
    - Python [float] (masses and probabilities) is [Qc], the rationals in
      lowest terms, where the population keeps its books: every
      arithmetic step is exact there.  [Group.split] and
      [Group.apply_rules], whose results depend on the rounding and on
      the comparison [p_sum == 1.0], are embedded on binary64 as well
      (module [Binary64], over the primitive floats): what is stated of
      their masses is stated there.
    - A Python [dict] is an association list in insertion order with
      unique keys; the order is observable (iteration, [pickle]).
    - A method that mutates [self] becomes a function returning the new
      object; a method that can raise returns the exception or the value
      together with the state the caller observes afterwards. *)

From Stdlib Require Import PrimFloat.
From Stdlib Require Import String Ascii.
From Stdlib Require Import ZArith QArith Qcanon Qround Bool Lia Lqa.
From Stdlib Require Import List Permutation.
From Stdlib Require Import DecimalString Sorted.
Import ListNotations.

Local Open Scope Z_scope.

(** ** Exceptions and results *)

Inductive exn : Type :=
| AttributeError
| KeyError
| GroupFrozenError.

Inductive result (A : Type) : Type :=
| Ok (a : A)
| Raise (e : exn).
Arguments Ok {A} a.
Arguments Raise {A} e.

Definition bind {A B : Type} (r : result A) (k : A -> result B) : result B :=
  match r with
  | Ok a => k a
  | Raise e => Raise e
  end.

Notation "x <- r ;; k" := (bind r (fun x => k))
  (at level 61, r at next level, right associativity).

(** What a call can raise beside the exceptions above: Python's own
    [NameError], [TypeError] and [ZeroDivisionError].  [None] stands for
    a call that returned. *)
Inductive error : Type :=
| Known (e : exn)
| NameError
| TypeError
| ZeroDivisionError.

Definition raised {A : Type} (r : result A) : option error :=
  match r with
  | Ok _ => None
  | Raise e => Some (Known e)
  end.

(** ** Resource ([entity.py], class [Resource]) *)

Module Resource.

Record t : Type := mk {
  name : string;
  capacity : Z;
  capacity_max : Z
}.

(** [Resource.__init__(name, capacity_max=1)]: the capacity starts at 0. *)
Definition init (name : string) (capacity_max : Z) : t :=
  mk name 0 capacity_max.

Definition set_capacity (r : t) (c : Z) : t :=
  mk (name r) c (capacity_max r).

(** [allocate_any]:
    n_accommodated = self.capacity_max - n
    self.capacity += n_accommodated
    return n - n_accommodated *)
Definition allocate_any (r : t) (n : Z) : t * Z :=
  let n_accommodated := capacity_max r - n in
  (set_capacity r (capacity r + n_accommodated), n - n_accommodated).

(** [allocate_all]: admit all [n] or none. *)
Definition allocate_all (r : t) (n : Z) : t * bool :=
  if capacity r + n <=? capacity_max r
  then (set_capacity r (capacity r + n), true)
  else (r, false).

Definition can_accommodate_all (r : t) (n : Z) : bool :=
  capacity r + n <=? capacity_max r.

Definition can_accommodate_any (r : t) (n : Z) : bool :=
  capacity r <? capacity_max r.

(** [release]: returns early on an empty resource, clamps at zero. *)
Definition release (r : t) (n : Z) : t :=
  if capacity r =? 0 then r
  else set_capacity r (Z.max 0 (capacity r - n)).

(** A call made on a resource, and the resource after a sequence of
    calls (return values dropped). *)
Inductive call : Type :=
| AllocateAll (n : Z)
| AllocateAny (n : Z)
| Release (n : Z).

Definition arg (c : call) : Z :=
  match c with AllocateAll n | AllocateAny n | Release n => n end.

Definition step (r : t) (c : call) : t :=
  match c with
  | AllocateAll n => fst (allocate_all r n)
  | AllocateAny n => fst (allocate_any r n)
  | Release n => release r n
  end.

Definition run (r : t) (cs : list call) : t := fold_left step cs r.

Definition in_bounds (r : t) : Prop :=
  0 <= capacity r <= capacity_max r.

Definition is_allocate_any (c : call) : bool :=
  match c with AllocateAny _ => true | _ => false end.

(** [can_accommodate_one()] and [get_capacity_left()]. *)
Definition can_accommodate_one (r : t) : bool :=
  capacity r <? capacity_max r.

Definition get_capacity_left (r : t) : Z := capacity_max r - capacity r.

End Resource.

(** ** Python values and dictionaries *)

(** The scalar values an attribute or a relation holds.  A relation of a
    registered group holds the content hash of its site (an [int]);
    relations that still hold a [Site] object are outside the embedding,
    since hashing such a group pickles the site and, through it, the
    population the site points to. *)
Inductive pyval : Type :=
| VNone
| VBool (b : bool)
| VInt (z : Z)
| VStr (s : string).

(** Python's [==] on these values: [True == 1] and [False == 0]. *)
Definition int_of_bool (b : bool) : Z := if b then 1 else 0.

Definition py_eqb (v w : pyval) : bool :=
  match v, w with
  | VNone, VNone => true
  | VBool a, VBool b => Bool.eqb a b
  | VBool a, VInt z | VInt z, VBool a => int_of_bool a =? z
  | VInt a, VInt b => a =? b
  | VStr a, VStr b => String.eqb a b
  | _, _ => false
  end.

(** Truthiness, as tested by [if at:]. *)
Definition truthy (v : pyval) : bool :=
  match v with
  | VNone => false
  | VBool b => b
  | VInt z => negb (z =? 0)
  | VStr s => negb (String.eqb s EmptyString)
  end.

(** A [dict] with [str] keys, in insertion order. *)
Definition dict : Type := list (string * pyval).

Module Dict.

Fixpoint get (d : dict) (k : string) : option pyval :=
  match d with
  | [] => None
  | (k', v) :: d' => if String.eqb k' k then Some v else get d' k
  end.

Definition mem (d : dict) (k : string) : bool :=
  match get d k with Some _ => true | None => false end.

(** [d[k] = v]: an existing key keeps its position, a new key goes
    last. *)
Fixpoint set (d : dict) (k : string) (v : pyval) : dict :=
  match d with
  | [] => [(k, v)]
  | (k', v') :: d' =>
      if String.eqb k' k then (k', v) :: d' else (k', v') :: set d' k v
  end.

(** [d.update(u)]: the items of [u] are assigned in their order. *)
Definition update (d u : dict) : dict :=
  fold_left (fun acc kv => set acc (fst kv) (snd kv)) u d.

(** [del d[k]] for a key that may be absent ([if k in d: del d[k]]);
    a key occurs once in a dict. *)
Definition del (d : dict) (k : string) : dict :=
  filter (fun kv => negb (String.eqb (fst kv) k)) d.

(** [q.items() <= d.items()]: every item of [q] is an item of [d]. *)
Definition items_le (q d : dict) : bool :=
  forallb (fun kv => match get d (fst kv) with
                     | Some v => py_eqb (snd kv) v
                     | None => false
                     end) q.

(** [d1 == d2] on dicts: same items, whatever the order. *)
Definition eqb (d1 d2 : dict) : bool :=
  (Nat.eqb (length d1) (length d2)) && items_le d1 d2.

(** Two dicts with the same content: every key is bound to the same
    value in both. *)
Definition same_content (d1 d2 : dict) : Prop :=
  forall k, get d1 k = get d2 k.

Definition keys (d : dict) : list string := map fst d.

End Dict.

(** ** Bytes *)

(** A byte string is a list of integers in [0, 256). *)
Definition bytes : Type := list Z.

Definition bytes_of_string (s : string) : bytes :=
  map (fun c => Z.of_N (N_of_ascii c)) (list_ascii_of_string s).

(** [n] bytes of [x], least significant first (two's complement when [x]
    is negative). *)
Fixpoint le_bytes (n : nat) (x : Z) : bytes :=
  match n with
  | O => []
  | S n' => (x mod 256) :: le_bytes n' (x / 256)
  end.

Definition of_le_bytes (b : bytes) : Z :=
  fold_right (fun x acc => x + 256 * acc) 0 b.

(** ** xxHash, 64-bit variant ([xxhash.xxh64(data).intdigest()], seed 0) *)

Module XXH64.

Definition wrap (x : Z) : Z := x mod 2 ^ 64.

Definition PRIME1 : Z := 11400714785074694791.
Definition PRIME2 : Z := 14029467366897019727.
Definition PRIME3 : Z := 1609587929392839161.
Definition PRIME4 : Z := 9650029242287828579.
Definition PRIME5 : Z := 2870177450012600261.

Definition rotl (x r : Z) : Z :=
  wrap (Z.lor (Z.shiftl x r) (Z.shiftr x (64 - r))).

Definition round (acc input : Z) : Z :=
  wrap (rotl (wrap (acc + input * PRIME2)) 31 * PRIME1).

Definition merge_round (acc val : Z) : Z :=
  wrap (Z.lxor acc (round 0 val) * PRIME1 + PRIME4).

Definition lanes : Type := (Z * Z * Z * Z)%type.

Definition lane (data : bytes) (i : nat) : Z :=
  of_le_bytes (firstn 8 (skipn (8 * i) data)).

(** The 32-byte stripes; what is left over is returned with the
    accumulators. *)
Fixpoint stripes (fuel : nat) (v : lanes) (data : bytes) : lanes * bytes :=
  match fuel with
  | O => (v, data)
  | S fuel' =>
      if (32 <=? length data)%nat then
        let '(v1, v2, v3, v4) := v in
        stripes fuel'
          (round v1 (lane data 0), round v2 (lane data 1),
           round v3 (lane data 2), round v4 (lane data 3))
          (skipn 32 data)
      else (v, data)
  end.

Fixpoint tail8 (fuel : nat) (h : Z) (data : bytes) : Z * bytes :=
  match fuel with
  | O => (h, data)
  | S fuel' =>
      if (8 <=? length data)%nat then
        let k1 := round 0 (lane data 0) in
        tail8 fuel' (wrap (rotl (Z.lxor h k1) 27 * PRIME1 + PRIME4))
              (skipn 8 data)
      else (h, data)
  end.

Definition tail4 (h : Z) (data : bytes) : Z * bytes :=
  if (4 <=? length data)%nat then
    let w := of_le_bytes (firstn 4 data) in
    (wrap (rotl (Z.lxor h (wrap (w * PRIME1))) 23 * PRIME2 + PRIME3),
     skipn 4 data)
  else (h, data).

Definition tail1 (h : Z) (data : bytes) : Z :=
  fold_left
    (fun h b => wrap (rotl (Z.lxor h (wrap (b * PRIME5))) 11 * PRIME1))
    data h.

Definition avalanche (h : Z) : Z :=
  let h := Z.lxor h (Z.shiftr h 33) in
  let h := wrap (h * PRIME2) in
  let h := Z.lxor h (Z.shiftr h 29) in
  let h := wrap (h * PRIME3) in
  Z.lxor h (Z.shiftr h 32).

Definition intdigest (data : bytes) : Z :=
  let n := length data in
  let '(h, rest) :=
    if (32 <=? n)%nat then
      let '((v1, v2, v3, v4), rest) :=
        stripes n (wrap (PRIME1 + PRIME2), PRIME2, 0, wrap (0 - PRIME1)) data in
      let h := wrap (rotl v1 1 + rotl v2 7 + rotl v3 12 + rotl v4 18) in
      (merge_round (merge_round (merge_round (merge_round h v1) v2) v3) v4,
       rest)
    else (PRIME5, data) in
  let h := wrap (h + Z.of_nat n) in
  let '(h, rest) := tail8 n h rest in
  let '(h, rest) := tail4 h rest in
  avalanche (tail1 h rest).

End XXH64.

(** ** [pickle.dumps] on a pair of dictionaries *)

(** The default protocol is 3 up to Python 3.7 and 4 from Python 3.8. *)
Inductive protocol : Type := Proto3 | Proto4.

Module Pickle.

Definition proto_num (p : protocol) : Z :=
  match p with Proto3 => 3 | Proto4 => 4 end.

(** The pickler's output so far and the size of its memo. *)
Definition st : Type := (bytes * Z)%type.

Definition write (s : st) (b : bytes) : st := (fst s ++ b, snd s).

(** [memo_put]: [MEMOIZE] in protocol 4, [BINPUT]/[LONG_BINPUT] with the
    memo index before. *)
Definition memoize (p : protocol) (s : st) : st :=
  let idx := snd s in
  let op :=
    match p with
    | Proto4 => [148]
    | Proto3 => if idx <? 256 then [113; idx] else 114 :: le_bytes 4 idx
    end in
  (fst s ++ op, idx + 1).

(** Number of bits of the absolute value ([int.bit_length]). *)
Definition bit_length (z : Z) : Z :=
  if z =? 0 then 0 else Z.log2 (Z.abs z) + 1.

(** [save_long]: [BININT1], [BININT2] or [BININT] for a value that fits
    a signed 32-bit word, [LONG1] or [LONG4] with the shortest two's
    complement otherwise. *)
Definition save_int (s : st) (z : Z) : st :=
  if (- 2 ^ 31 <=? z) && (z <=? 2 ^ 31 - 1) then
    let b := le_bytes 4 z in
    match b with
    | [b1; b2; b3; b4] =>
        if negb (b4 =? 0) || negb (b3 =? 0) then write s (74 :: b)
        else if negb (b2 =? 0) then write s [77; b1; b2]
        else write s [75; b1]
    | _ => s
    end
  else
    let nbytes := S (Z.to_nat (Z.shiftr (bit_length z) 3)) in
    let b := le_bytes nbytes z in
    let b :=
      if (z <? 0) && (1 <? nbytes)%nat
         && (nth (nbytes - 1) b 0 =? 255)
         && (128 <=? nth (nbytes - 2) b 0)
      then firstn (nbytes - 1) b else b in
    let n := Z.of_nat (length b) in
    if n <? 256 then write s (138 :: n :: b)
    else write s (139 :: le_bytes 4 n ++ b).

(** [save_unicode]: the UTF-8 bytes behind [SHORT_BINUNICODE] (protocol
    4, under 256 bytes) or [BINUNICODE], then memoised. *)
Definition save_str (p : protocol) (s : st) (x : string) : st :=
  let b := bytes_of_string x in
  let n := Z.of_nat (length b) in
  let op :=
    match p with
    | Proto4 => if n <? 256 then [140; n] else 88 :: le_bytes 4 n
    | Proto3 => 88 :: le_bytes 4 n
    end in
  memoize p (write s (op ++ b)).

Definition save (p : protocol) (s : st) (v : pyval) : st :=
  match v with
  | VNone => write s [78]
  | VBool true => write s [136]
  | VBool false => write s [137]
  | VInt z => save_int s z
  | VStr x => save_str p s x
  end.

Definition save_item (p : protocol) (s : st) (kv : string * pyval) : st :=
  save p (save_str p s (fst kv)) (snd kv).

Definition BATCHSIZE : nat := 1000.

(** [batch_dict]: [MARK], up to [BATCHSIZE] items, [SETITEMS], and
    again while the batch was full. *)
Fixpoint batches (fuel : nat) (p : protocol) (s : st) (d : dict) : st :=
  match fuel with
  | O => s
  | S fuel' =>
      let s := write s [40] in
      let s := fold_left (save_item p) (firstn BATCHSIZE d) s in
      let s := write s [117] in
      if (BATCHSIZE <=? length d)%nat
      then batches fuel' p s (skipn BATCHSIZE d)
      else s
  end.

(** [save_dict]: [EMPTY_DICT], memoised, then the items; a dict of one
    item uses [SETITEM]. *)
Definition save_dict (p : protocol) (s : st) (d : dict) : st :=
  let s := memoize p (write s [125]) in
  match d with
  | [] => s
  | [kv] => write (save_item p s kv) [115]
  | _ => batches (S (length d)) p s d
  end.

(** [pickle.dumps((attr, rel))]: [PROTO], in protocol 4 one [FRAME]
    holding the rest, the two dicts, [TUPLE2] memoised, [STOP].  (The
    pickler starts a new frame every 64 KiB and writes a memo reference
    when one [str] object occurs twice; the embedding covers payloads
    under that size and values that are distinct objects.) *)
Definition dumps (p : protocol) (attr rel : dict) : bytes :=
  let s := save_dict p ([], 0) attr in
  let s := save_dict p s rel in
  let s := memoize p (write s [134]) in
  let payload := fst (write s [46]) in
  let n := Z.of_nat (length payload) in
  [128; proto_num p]
    ++ match p with
       | Proto4 => if 4 <=? n then 149 :: le_bytes 8 n else []
       | Proto3 => []
       end
    ++ payload.

End Pickle.

(** ** Numbers *)

Definition Qc_of_Z (z : Z) : Qc := Q2Qc (inject_Z z).

Definition Qc_floor (x : Qc) : Z := Qfloor x.

Definition half : Qc := Q2Qc (1 # 2).

(** Python's [round(x)]: to the nearest integer, a tie to the even one. *)
Definition py_round (x : Qc) : Z :=
  let f := Qc_floor x in
  let r := (x - Qc_of_Z f)%Qc in
  match (r ?= half)%Qc with
  | Lt => f
  | Gt => f + 1
  | Eq => if Z.even f then f else f + 1
  end.

Definition Qc_ltb (a b : Qc) : bool :=
  match (a ?= b)%Qc with Lt => true | _ => false end.

Definition Qc_sum (l : list Qc) : Qc := fold_right Qcplus 0%Qc l.

Definition Z_sum (l : list Z) : Z := fold_right Z.add 0 l.

(** ** Total-preserving rounding ([iteround.saferound(m_lst, 0)]) *)

Module SafeRound.

(** An entry is the value so far and, until it has received a unit,
    its fractional remainder. *)
Abbreviation entry := (Z * option Qc)%type.

Definition entry_of (x : Qc) : entry :=
  (Qc_floor x, Some (x - Qc_of_Z (Qc_floor x))%Qc).

(** The largest remainder still waiting, the earliest one on a tie. *)
Fixpoint max_rem (es : list entry) : option Qc :=
  match es with
  | [] => None
  | (_, None) :: es' => max_rem es'
  | (_, Some r) :: es' =>
      match max_rem es' with
      | Some r' => if Qc_ltb r r' then Some r' else Some r
      | None => Some r
      end
  end.

(** Give one unit to the first waiting entry whose remainder is [r]. *)
Fixpoint bump_first (r : Qc) (es : list entry) : list entry :=
  match es with
  | [] => []
  | (z, Some r') :: es' =>
      if Qc_eq_bool r' r then (z + 1, None) :: es'
      else (z, Some r') :: bump_first r es'
  | e :: es' => e :: bump_first r es'
  end.

Definition bump_one (es : list entry) : list entry :=
  match max_rem es with
  | Some r => bump_first r es
  | None => es
  end.

Fixpoint bump (units : nat) (es : list entry) : list entry :=
  match units with
  | O => es
  | S k => bump k (bump_one es)
  end.

(** Modelled from the spec: [saferound] comes from the [iteround]
    package, which is not part of the repository.  It is the
    total-preserving scheme of the spec: round every value down, then
    hand the units missing from the rounded total to the largest
    fractional remainders, the earlier value first on a tie; the
    rounded total is [round] of the exact sum. *)
Definition saferound (xs : list Qc) : list Qc :=
  let es := map entry_of xs in
  let units := py_round (Qc_sum xs) - Z_sum (map fst es) in
  map (fun e => Qc_of_Z (fst e)) (bump (Z.to_nat units) es).

End SafeRound.

(** ** Groups, split specs, sites, populations and rules: the data *)

(** A reference to the population of the simulation ([Group.pop]). *)
Inductive pop_ref : Type := ThePop.

(** [Group]: [name], [m], [attr], [rel], [pop] and the lazily computed
    [hash].  The encoded copies ([attr_enc], [rel_enc], [is_enc]) are
    never set by the code and are left out, and so is [callee]. *)
Record group : Type := mkGroup {
  g_name : option string;
  g_m : Qc;
  g_attr : dict;
  g_rel : dict;
  g_pop : option pop_ref;
  g_hash : option Z
}.

(** [GroupSplitSpec]; [attr_del] and [rel_del] are sets of keys. *)
Record GroupSplitSpec : Type := mkSpec {
  p : Qc;
  attr_set : dict;
  attr_del : list string;
  rel_set : dict;
  rel_del : list string
}.

(** The part of a [Site] that group linking touches: the mass at the
    site and the groups there (by hash). *)
Record site : Type := mkSite {
  s_m : Qc;
  s_groups : list Z
}.

(** Modelled from the spec: [Group.split] reads
    [self.pop.sim.get_pragma_fractional_mass()] and sim.py does not
    define that getter; [fractional_mass] is the "allow fractional mass"
    toggle the driver supplies.  [autocompact] is the pragma of that name
    in [Simulation.pragma]. *)
Record pragmas : Type := mkPragmas {
  fractional_mass : bool;
  autocompact : bool
}.

(** [GroupPopulation]: the registries are dicts keyed by content hash. *)
Record population : Type := mkPop {
  sim : pragmas;
  groups : list (Z * group);
  sites : list (Z * site);
  vita_groups : list (Z * group);
  pop_m : Qc;
  m_in : Qc;
  m_out : Qc;
  is_frozen : bool
}.

(** A [Rule], as the population uses it. *)
Record rule : Type := mkRule {
  is_applicable : group -> Z -> Z -> bool;
  apply : population -> group -> Z -> Z -> option (list GroupSplitSpec);
  setup : population -> group -> option (list GroupSplitSpec);
  cleanup : population -> group -> option (list GroupSplitSpec)
}.

(** [GroupQry]: the attributes and relations asked for, the conditions
    (callables on the group) and the [full] flag. *)
Record GroupQry : Type := mkQry {
  q_attr : dict;
  q_rel : dict;
  q_cond : list (group -> bool);
  q_full : bool
}.

(** Registries keyed by an [int]. *)
Module Reg.
Section Reg.
Context {A : Type}.

Fixpoint get (d : list (Z * A)) (k : Z) : option A :=
  match d with
  | [] => None
  | (k', v) :: d' => if k' =? k then Some v else get d' k
  end.

Definition mem (d : list (Z * A)) (k : Z) : bool :=
  match get d k with Some _ => true | None => false end.

Fixpoint set (d : list (Z * A)) (k : Z) (v : A) : list (Z * A) :=
  match d with
  | [] => [(k, v)]
  | (k', v') :: d' =>
      if k' =? k then (k', v) :: d' else (k', v') :: set d' k v
  end.

Definition values (d : list (Z * A)) : list A := map snd d.
Definition keys (d : list (Z * A)) : list Z := map fst d.
End Reg.
End Reg.

(** ** Group ([entity.py], class [Group]) *)

Module Group.

Definition AT : string := "@".

(** [Group.VOID = { '__void__': True }]. *)
Definition VOID : dict := [("__void__"%string, VBool true)].

(** [Group.__init__(name, m, attr, rel)]: a standalone group, hash not
    computed yet. *)
Definition init (name : option string) (m : Qc) (attr rel : dict) : group :=
  mkGroup name m attr rel None None.

Definition set_m (g : group) (m : Qc) : group :=
  mkGroup (g_name g) m (g_attr g) (g_rel g) (g_pop g) (g_hash g).

Definition set_hash (g : group) (h : option Z) : group :=
  mkGroup (g_name g) (g_m g) (g_attr g) (g_rel g) (g_pop g) h.

Definition set_pop (g : group) (r : option pop_ref) : group :=
  mkGroup (g_name g) (g_m g) (g_attr g) (g_rel g) r (g_hash g).

(** [self.pop] as a condition. *)
Definition has_pop (g : group) : bool :=
  match g_pop g with Some _ => true | None => false end.

(** [gen_hash(attr, rel)]:
    xxhash.xxh64(pickle.dumps((attr, rel))).intdigest() *)
Definition gen_hash (proto : protocol) (attr rel : dict) : Z :=
  XXH64.intdigest (Pickle.dumps proto attr rel).

(** [__hash__]/[get_hash]: computed on first use and cached. *)
Definition get_hash (proto : protocol) (g : group) : group * Z :=
  match g_hash g with
  | Some h => (g, h)
  | None =>
      let h := gen_hash proto (g_attr g) (g_rel g) in
      (set_hash g (Some h), h)
  end.

(** [__eq__]: attributes and relations only. *)
Definition eqb (g1 g2 : group) : bool :=
  Dict.eqb (g_attr g1) (g_attr g2) && Dict.eqb (g_rel g1) (g_rel g2).

(** [has_attr(qry)] for a dict query.  (The class-wide [attr_used] set,
    which records the keys asked for while a simulation runs, is left
    out.) *)
Definition has_attr (g : group) (qry : dict) : bool :=
  Dict.items_le qry (g_attr g).

Definition is_void (g : group) : bool := has_attr g VOID.

(** [gen_dict(d_in, d_upd, k_del)]. *)
Definition gen_dict (d_in d_upd : dict) (k_del : list string) : dict :=
  match d_upd, k_del with
  | [], [] => d_in
  | _, _ => fold_left Dict.del k_del (Dict.update d_in d_upd)
  end.

(** [set_attr(name, value, do_force=False)].  The group after the call
    comes with the outcome, so that a raise shows what it left. *)
Definition set_attr (g : group) (name : string) (value : pyval)
           (do_force : bool) : group * result unit :=
  if has_pop g && negb do_force then (g, Raise GroupFrozenError)
  else
    (mkGroup (g_name g) (g_m g) (Dict.set (g_attr g) name value) (g_rel g)
             (g_pop g) None,
     Ok tt).

(** [set_rel(name, value, do_force=False)].  On a group bound to a
    population the value must be an entity, [value.get_hash()] is
    stored; a scalar has no [get_hash]. *)
Definition set_rel (g : group) (name : string) (value : pyval)
           (do_force : bool) : group * result unit :=
  if has_pop g && negb do_force then (g, Raise GroupFrozenError)
  else if negb (has_pop g) then
    (mkGroup (g_name g) (g_m g) (g_attr g) (Dict.set (g_rel g) name value)
             (g_pop g) None,
     Ok tt)
  else (g, Raise AttributeError).

(** Modelled from the spec: [Group.freeze] is called by
    [GroupPopulation.add_group] and is not defined in entity.py.  The
    spec has [add_group] "mark g registered (mutation-protected)";
    [set_attr] and [set_rel] take the [pop] reference, which [add_group]
    has just set, for that mark, so nothing else changes. *)
Definition freeze (g : group) : group := g.

(** The key under which [self.pop.sites[at]] looks a value up. *)
Definition site_key (v : pyval) : option Z :=
  match v with
  | VInt z => Some z
  | VBool b => Some (int_of_bool b)
  | _ => None
  end.

(** [Site.add_group_link(group)]. *)
Definition add_group_link (s : site) (h : Z) (m : Qc) : site :=
  mkSite (s_m s + m)%Qc
         (if existsb (Z.eqb h) (s_groups s) then s_groups s
          else s_groups s ++ [h]).

(** [link_to_site_at], for a group whose hash [h] is cached: the sites
    of the population after the call. *)
Definition link_to_site_at (g : group) (h : Z) (ss : list (Z * site))
  : result (list (Z * site)) :=
  match Dict.get (g_rel g) AT with
  | Some at_ =>
      if truthy at_ && has_pop g then
        match site_key at_ with
        | Some k =>
            match Reg.get ss k with
            | Some s => Ok (Reg.set ss k (add_group_link s h (g_m g)))
            | None => Raise KeyError
            end
        | None => Raise KeyError
        end
      else Ok ss
  | None => Ok ss
  end.

(** Step (1) of [split]: the masses of the new groups.  [p_sum] and
    [m_sum] are the running sums; the last spec takes the complement;
    once [p_sum] is 1 the loop breaks and the entries left keep their
    initial 0. *)
Fixpoint masses (m : Qc) (specs : list GroupSplitSpec) (p_sum m_sum : Qc)
  : list Qc :=
  match specs with
  | [] => []
  | s :: rest =>
      let '(p_i, m_i) :=
        match rest with
        | [] => (1 - p_sum, m - m_sum)%Qc
        | _ => (p s, m * p s)%Qc
        end in
      m_i :: (if Qc_eq_bool (p_sum + p_i) 1
              then map (fun _ => 0%Qc) rest
              else masses m rest (p_sum + p_i)%Qc (m_sum + m_i)%Qc)
  end.

(** Step (3) of [split]: a new group per spec whose mass is not zero.
    The relation values are scalars, so [rel_set] is taken as it is. *)
Definition new_group (g : group) (m : Qc) (s : GroupSplitSpec) : group :=
  init (g_name g) m
       (gen_dict (g_attr g) (attr_set s) (attr_del s))
       (gen_dict (g_rel g) (rel_set s) (rel_del s)).

Fixpoint instantiate (g : group) (m_lst : list Qc)
         (specs : list GroupSplitSpec) : list group :=
  match m_lst, specs with
  | m :: m_lst', s :: specs' =>
      if Qc_eq_bool m 0 then instantiate g m_lst' specs'
      else new_group g m s :: instantiate g m_lst' specs'
  | _, _ => []
  end.

(** [split(specs)].  The group reads the fractional-mass pragma through
    [self.pop.sim], so it has to be bound to a population. *)
Definition split (P : population) (g : group) (specs : list GroupSplitSpec)
  : result (list group) :=
  match g_pop g with
  | None => Raise AttributeError
  | Some _ =>
      let m_lst := masses (g_m g) specs 0%Qc 0%Qc in
      let m_lst :=
        if fractional_mass (sim P) then m_lst
        else SafeRound.saferound m_lst in
      Ok (instantiate g m_lst specs)
  end.

(** The combined split spec of one tuple of the Cartesian product. *)
Definition combine (ss_lst : list GroupSplitSpec) : GroupSplitSpec :=
  fold_left
    (fun c i =>
       mkSpec (p c * p i)%Qc
              (Dict.update (attr_set c) (attr_set i))
              (attr_del c ++ attr_del i)
              (Dict.update (rel_set c) (rel_set i))
              (rel_del c ++ rel_del i))
    ss_lst
    (mkSpec 1%Qc [] [] [] []).

(** [itertools.product] over the rules' lists: the last list varies
    fastest. *)
Fixpoint product {A : Type} (ls : list (list A)) : list (list A) :=
  match ls with
  | [] => [[]]
  | l :: ls' =>
      flat_map (fun x => map (cons x) (product ls')) l
  end.

Fixpoint drop_none {A : Type} (l : list (option A)) : list A :=
  match l with
  | [] => []
  | Some x :: l' => x :: drop_none l'
  | None :: l' => drop_none l'
  end.

(** How [apply_rules] is called: on every iteration, or for the rule
    setup or the rule cleanup. *)
Inductive mode : Type := Iterate | RuleSetup | RuleCleanup.

(** Steps (2) and (3) of [apply_rules]. *)
Definition split_product (P : population) (g : group)
           (ss_rules : list (option (list GroupSplitSpec)))
  : result (option (list group)) :=
  match drop_none ss_rules with
  | [] => Ok None
  | ss => r <- split P g (map combine (product ss)) ;; Ok (Some r)
  end.

(** [apply_rules(pop, rules, iter, t, is_rule_setup, is_rule_cleanup)].
    [None] means that no rule made a claim on the group. *)
Definition apply_rules (P : population) (g : group) (rules : list rule)
           (iter t : Z) (md : mode) : result (option (list group)) :=
  split_product P g
    match md with
    | RuleSetup => map (fun r => setup r P g) rules
    | RuleCleanup => map (fun r => cleanup r P g) rules
    | Iterate =>
        map (fun r => apply r P g iter t)
            (filter (fun r => is_applicable r g iter t) rules)
    end.

(** [apply_rules(pop, fn, iter, t, is_sim_setup=True)]: [rules] is the
    group setup function. *)
Definition apply_sim_setup (P : population) (g : group)
           (fn : population -> group -> option (list GroupSplitSpec))
  : result (option (list group)) :=
  split_product P g [fn P g].

(** [get_attr(name)]: [self.attr.get(name)], [None] for a missing
    key. *)
Definition get_attr (g : group) (name : string) : pyval :=
  match Dict.get (g_attr g) name with
  | Some v => v
  | None => VNone
  end.

(** [set_attrs(attrs, do_force=False)]: an empty mapping returns before
    the frozen test. *)
Definition set_attrs (g : group) (attrs : dict) (do_force : bool)
  : group * result unit :=
  match attrs with
  | [] => (g, Ok tt)
  | _ =>
      if has_pop g && negb do_force then (g, Raise GroupFrozenError)
      else
        (mkGroup (g_name g) (g_m g) (Dict.update (g_attr g) attrs) (g_rel g)
                 (g_pop g) None,
         Ok tt)
  end.

(** [set_rels(rels, do_force=False)].  The values are stored as they
    are.  The last test reads [self.pop and Site.AT in rel_tmp.keys()]
    and no [rel_tmp] is bound anywhere: on a group bound to a population
    the second operand is evaluated and raises [NameError], after the
    relations have been updated and the hash dropped. *)
Definition set_rels (g : group) (rels : dict) (do_force : bool)
  : group * option error :=
  match rels with
  | [] => (g, None)
  | _ =>
      if has_pop g && negb do_force then (g, Some (Known GroupFrozenError))
      else
        let g' := mkGroup (g_name g) (g_m g) (g_attr g)
                          (Dict.update (g_rel g) rels) (g_pop g) None in
        if has_pop g then (g', Some NameError) else (g', None)
  end.

(** [matches_qry(qry)]; [None] is no query.  The encoded branch is
    never taken, [is_enc] being [False] on every group. *)
Definition matches_qry (g : group) (qry : option GroupQry) : bool :=
  match qry with
  | None => true
  | Some q =>
      if q_full q then
        Dict.eqb (q_attr q) (g_attr g) && Dict.eqb (q_rel q) (g_rel g)
        && forallb (fun fn => fn g) (q_cond q)
      else
        Dict.items_le (q_attr q) (g_attr g)
        && Dict.items_le (q_rel q) (g_rel g)
        && forallb (fun fn => fn g) (q_cond q)
  end.

(** A call made on a group object, and the object after a sequence of
    calls (return values and exceptions dropped). *)
Inductive call : Type :=
| SetAttr (name : string) (value : pyval) (do_force : bool)
| SetRel (name : string) (value : pyval) (do_force : bool)
| SetAttrs (attrs : dict) (do_force : bool)
| SetRels (rels : dict) (do_force : bool)
| GetHash.

Definition step (proto : protocol) (g : group) (c : call) : group :=
  match c with
  | SetAttr name value do_force => fst (set_attr g name value do_force)
  | SetRel name value do_force => fst (set_rel g name value do_force)
  | SetAttrs attrs do_force => fst (set_attrs g attrs do_force)
  | SetRels rels do_force => fst (set_rels g rels do_force)
  | GetHash => fst (get_hash proto g)
  end.

Definition run (proto : protocol) (g : group) (cs : list call) : group :=
  fold_left (step proto) cs g.

End Group.

(** ** GroupPopulation ([pop.py], class [GroupPopulation]) *)

Module GroupPopulation.

(** A method of the population: the population it leaves and whether
    it returned or raised. *)
Definition outcome : Type := (population * result unit)%type.

Definition and_then (o : outcome) (k : population -> outcome) : outcome :=
  match o with
  | (P, Ok _) => k P
  | (P, Raise e) => (P, Raise e)
  end.

Definition set_groups (P : population) (gs : list (Z * group)) : population :=
  mkPop (sim P) gs (sites P) (vita_groups P) (pop_m P) (m_in P) (m_out P)
        (is_frozen P).

Definition set_sites (P : population) (ss : list (Z * site)) : population :=
  mkPop (sim P) (groups P) ss (vita_groups P) (pop_m P) (m_in P) (m_out P)
        (is_frozen P).

Definition set_vita_groups (P : population) (vs : list (Z * group))
  : population :=
  mkPop (sim P) (groups P) (sites P) vs (pop_m P) (m_in P) (m_out P)
        (is_frozen P).

Definition set_masses (P : population) (m mi mo : Qc) : population :=
  mkPop (sim P) (groups P) (sites P) (vita_groups P) m mi mo (is_frozen P).

(** [GroupPopulation(sim)]. *)
Definition init (pr : pragmas) : population :=
  mkPop pr [] [] [] 0%Qc 0%Qc 0%Qc false.

Definition get_mass (P : population) : Qc := pop_m P.

(** [add_group(group)]. *)
Definition add_group (proto : protocol) (P : population) (g : group)
  : outcome :=
  let P := if is_frozen P then P
           else set_masses P (pop_m P + g_m g)%Qc (m_in P) (m_out P) in
  let '(g, group_hash) := Group.get_hash proto g in
  match Reg.get (groups P) group_hash with
  | Some g0 =>
      (set_groups P
         (Reg.set (groups P) group_hash (Group.set_m g0 (g_m g0 + g_m g)%Qc)),
       Ok tt)
  | None =>
      let g := Group.freeze (Group.set_pop g (Some ThePop)) in
      match Group.link_to_site_at g group_hash (sites P) with
      | Raise e => (P, Raise e)
      | Ok ss =>
          (set_groups (set_sites P ss) (Reg.set (groups P) group_hash g),
           Ok tt)
      end
  end.

Fixpoint add_groups (proto : protocol) (P : population) (gs : list group)
  : outcome :=
  match gs with
  | [] => (P, Ok tt)
  | g :: gs' => and_then (add_group proto P g)
                         (fun P' => add_groups proto P' gs')
  end.

(** [add_vita_group(group)]. *)
Definition add_vita_group (proto : protocol) (P : population) (g : group)
  : population :=
  let '(g, h) := Group.get_hash proto g in
  match Reg.get (vita_groups P) h with
  | Some g0 =>
      set_vita_groups P
        (Reg.set (vita_groups P) h (Group.set_m g0 (g_m g0 + g_m g)%Qc))
  | None => set_vita_groups P (Reg.set (vita_groups P) h g)
  end.

(** [compact()]. *)
Definition compact (P : population) : population :=
  set_groups P
    (filter (fun kv => Qc_ltb 0%Qc (g_m (snd kv))) (groups P)).

(** Loop (1) of [do_post_iter]: the VOID groups are debited from the
    population mass and credited to the mass out, one after another. *)
Definition debit_void (P : population) : population :=
  fold_left
    (fun P v =>
       if Group.is_void v
       then set_masses P (pop_m P - g_m v)%Qc (m_in P) (m_out P + g_m v)%Qc
       else P)
    (Reg.values (groups P)) P.

Definition drop_void (P : population) : population :=
  set_groups P
    (filter (fun kv => negb (Group.is_void (snd kv))) (groups P)).

(** Loop (2) of [do_post_iter]: [self.groups[k].m += v.m] raises
    [KeyError] when no group is registered under [k]; the mass totals
    have been credited by then. *)
Fixpoint fold_vita (vs : list (Z * group)) (P : population) : outcome :=
  match vs with
  | [] => (P, Ok tt)
  | (k, v) :: vs' =>
      let P := set_masses P (pop_m P + g_m v)%Qc (m_in P + g_m v)%Qc
                          (m_out P) in
      match Reg.get (groups P) k with
      | Some g0 =>
          fold_vita vs'
            (set_groups P
               (Reg.set (groups P) k (Group.set_m g0 (g_m g0 + g_m v)%Qc)))
      | None => (P, Raise KeyError)
      end
  end.

(** [do_post_iter()]. *)
Definition do_post_iter (P : population) : outcome :=
  let P := drop_void (debit_void P) in
  and_then (fold_vita (vita_groups P) P)
           (fun P => (set_vita_groups P [], Ok tt)).

(** [freeze()]; there is no trajectory to save to. *)
Definition freeze (P : population) : population :=
  mkPop (sim P) (groups P) (sites P) (vita_groups P) (pop_m P) (m_in P)
        (m_out P) true.

(** [Site.reset_group_links()]. *)
Definition reset_group_links (s : site) : site := mkSite 0%Qc [].

(** The relinking at the end of [transfer_mass]. *)
Fixpoint relink (gs : list (Z * group)) (ss : list (Z * site))
  : result (list (Z * site)) :=
  match gs with
  | [] => Ok ss
  | (h, g) :: gs' =>
      ss' <- Group.link_to_site_at g h ss ;; relink gs' ss'
  end.

(** [transfer_mass(src_group_hashes, mass_flow_specs, ...)].  A
    destination is looked up with [self.groups.get(g01)], a group among
    [int] keys: nothing is found, an [int] being never equal to a
    group, and every destination goes through [add_group]. *)
Definition transfer_mass (proto : protocol) (P : population)
           (src_group_hashes : list Z) (dst : list group) : outcome :=
  let P :=
    fold_left
      (fun P h =>
         match Reg.get (groups P) h with
         | Some g => set_groups P (Reg.set (groups P) h (Group.set_m g 0%Qc))
         | None => P
         end)
      src_group_hashes P in
  and_then (add_groups proto P dst)
    (fun P =>
       let ss := map (fun ks => (fst ks, reset_group_links (snd ks)))
                     (sites P) in
       match relink (groups P) ss with
       | Ok ss' => (set_sites P ss', Ok tt)
       | Raise e => (set_sites P ss, Raise e)
       end).

(** The loop of [apply_rules]: the sources that split and, in order,
    the destinations of all of them. *)
Fixpoint collect (P : population)
         (apply_to : group -> result (option (list group)))
         (gs : list (Z * group)) : result (list Z * list group) :=
  match gs with
  | [] => Ok ([], [])
  | (h, g) :: gs' =>
      dst_g <- apply_to g ;;
      rest <- collect P apply_to gs' ;;
      match dst_g with
      | Some dst => Ok (h :: fst rest, dst ++ snd rest)
      | None => Ok rest
      end
  end.

Definition apply_with (proto : protocol) (P : population)
           (apply_to : group -> result (option (list group))) : outcome :=
  match collect P apply_to (groups P) with
  | Raise e => (P, Raise e)
  | Ok ([], _) => (P, Ok tt)
  | Ok (srcs, dst) => transfer_mass proto P srcs dst
  end.

(** [apply_rules(rules, iter, t, is_rule_setup, is_rule_cleanup)]. *)
Definition apply_rules (proto : protocol) (P : population)
           (rules : list rule) (iter t : Z) (md : Group.mode) : outcome :=
  apply_with proto P (fun g => Group.apply_rules P g rules iter t md).

(** [apply_rules(fn, iter, t, is_sim_setup=True)]. *)
Definition apply_sim_setup (proto : protocol) (P : population)
           (fn : population -> group -> option (list GroupSplitSpec))
  : outcome :=
  apply_with proto P (fun g => Group.apply_sim_setup P g fn).

(** [get_group(attr, rel)]: [self.groups.get(Group.gen_hash(attr, rel))]. *)
Definition get_group (proto : protocol) (P : population) (attr rel : dict)
  : option group :=
  Reg.get (groups P) (Group.gen_hash proto attr rel).

(** [get_group_cnt(only_non_empty=False)]. *)
Definition get_group_cnt (P : population) (only_non_empty : bool) : nat :=
  if only_non_empty
  then length (filter (fun g => Qc_ltb 0%Qc (g_m g)) (Reg.values (groups P)))
  else length (groups P).

(** [get_groups_mass()], no query and no history delta:
    [math.fsum([g.m for g in self.groups.values()])]. *)
Definition get_groups_mass (P : population) : Qc :=
  Qc_sum (map g_m (Reg.values (groups P))).

(** [get_groups_mass_prop()]. *)
Definition get_groups_mass_prop (P : population) : Qc :=
  if Qc_ltb 0%Qc (pop_m P) then (get_groups_mass P / pop_m P)%Qc else 0%Qc.

End GroupPopulation.

(** ** Simulation ([sim.py], class [Simulation]) *)

Module Simulation.

(** The simulation: its population, rules and timer ([i], [i_max],
    [t], [tmin], [tmax]), the group setup function, the setup flag, the
    run count and the autostop pragmas with their counter.  Probes only
    read the population and are left out. *)
Record t : Type := mk {
  pop : population;
  rules : list rule;
  timer_i : Z;
  timer_i_max : Z;
  timer_t : Z;
  timer_tmin : Z;
  timer_tmax : Z;
  fn_group_setup : option (population -> group -> option (list GroupSplitSpec));
  is_setup_done : bool;
  run_cnt : Z;
  autostop : bool;
  autostop_n : Qc;
  autostop_p : Qc;
  autostop_t : Z;
  autostop_i : Z
}.

Definition set_pop (sm : t) (P : population) : t :=
  mk P (rules sm) (timer_i sm) (timer_i_max sm) (timer_t sm) (timer_tmin sm)
     (timer_tmax sm) (fn_group_setup sm) (is_setup_done sm) (run_cnt sm)
     (autostop sm) (autostop_n sm) (autostop_p sm) (autostop_t sm)
     (autostop_i sm).

Definition set_timer (sm : t) (i i_max t_ : Z) : t :=
  mk (pop sm) (rules sm) i i_max t_ (timer_tmin sm) (timer_tmax sm)
     (fn_group_setup sm) (is_setup_done sm) (run_cnt sm)
     (autostop sm) (autostop_n sm) (autostop_p sm) (autostop_t sm)
     (autostop_i sm).

Definition set_flags (sm : t) (setup_done : bool) (cnt i_stop : Z) : t :=
  mk (pop sm) (rules sm) (timer_i sm) (timer_i_max sm) (timer_t sm)
     (timer_tmin sm) (timer_tmax sm) (fn_group_setup sm) setup_done cnt
     (autostop sm) (autostop_n sm) (autostop_p sm) (autostop_t sm) i_stop.

Definition outcome : Type := (t * result unit)%type.

Definition lift (sm : t) (o : GroupPopulation.outcome)
           (k : t -> outcome) : outcome :=
  match o with
  | (P, Ok _) => k (set_pop sm P)
  | (P, Raise e) => (set_pop sm P, Raise e)
  end.

Definition compact_if (sm : t) : t :=
  if autocompact (sim (pop sm))
  then set_pop sm (GroupPopulation.compact (pop sm)) else sm.

(** [Timer.step()], within [i_max]. *)
Definition timer_step (sm : t) : t :=
  let i := timer_i sm + 1 in
  set_timer sm i (timer_i_max sm) (i mod timer_tmax sm + timer_tmin sm).

(** The body of the loop of [run]: apply the rules, run the probes,
    advance the timer, test the autostop condition, compact; [true]
    when the loop breaks.  [m_flow] is [last_iter.mass_flow_tot], which
    is 0: [transfer_mass] stores the flow under another name. *)
Definition iteration (proto : protocol) (sm : t) : t * result bool :=
  match GroupPopulation.apply_rules proto (pop sm) (rules sm) (timer_i sm)
                                    (timer_t sm) Group.Iterate with
  | (P, Raise e) => (set_pop sm P, Raise e)
  | (P, Ok _) =>
      let sm := set_pop sm P in
      let m_flow := 0%Qc in
      let p_flow :=
        if Qc_ltb 0%Qc (pop_m P) then Some (m_flow / pop_m P)%Qc else None in
      let sm := timer_step sm in
      match autostop sm, p_flow with
      | true, Some p_flow =>
          let i := if Qc_ltb m_flow (autostop_n sm)
                      || Qc_ltb p_flow (autostop_p sm)
                   then autostop_i sm + 1 else 0 in
          let sm := set_flags sm (is_setup_done sm) (run_cnt sm) i in
          if autostop_t sm <=? i then (sm, Ok true)
          else (compact_if sm, Ok false)
      | _, _ => (compact_if sm, Ok false)
      end
  end.

Fixpoint iterations (proto : protocol) (n : nat) (sm : t) : outcome :=
  match n with
  | O => (sm, Ok tt)
  | S n' =>
      match iteration proto sm with
      | (sm', Ok false) => iterations proto n' sm'
      | (sm', Ok true) => (sm', Ok tt)
      | (sm', Raise e) => (sm', Raise e)
      end
  end.

(** The rule setup stage of [run]. *)
Definition rule_setup (proto : protocol) (sm : t) : outcome :=
  if is_setup_done sm then (sm, Ok tt)
  else
    let after_group_setup :=
      match fn_group_setup sm with
      | Some fn => GroupPopulation.apply_sim_setup proto (pop sm) fn
      | None => (pop sm, Ok tt)
      end in
    lift sm after_group_setup
      (fun sm =>
         lift sm
           (GroupPopulation.apply_rules proto (pop sm) (rules sm) 0
                                        (timer_t sm) Group.RuleSetup)
           (fun sm => (set_flags sm true (run_cnt sm) (autostop_i sm), Ok tt))).

(** [run(iter_or_dur)] for a number of iterations. *)
Definition run (proto : protocol) (sm : t) (iter : Z) : outcome :=
  match rules sm, groups (pop sm) with
  | [], _ => (sm, Ok tt)
  | _, [] => (sm, Ok tt)
  | _, _ =>
      let sm := set_pop sm (GroupPopulation.freeze (pop sm)) in
      let sm := set_timer sm (timer_i sm) (timer_i_max sm + iter) (timer_t sm) in
      match rule_setup proto sm with
      | (sm, Ok _) =>
          let sm := compact_if sm in
          let sm := set_flags sm (is_setup_done sm) (run_cnt sm + 1) 0 in
          match iterations proto (Z.to_nat (timer_i_max sm - timer_i sm)) sm with
          | (sm, Ok _) =>
              lift sm
                (GroupPopulation.apply_rules proto (pop sm) (rules sm) 0
                                             (timer_t sm) Group.RuleCleanup)
                (fun sm => (compact_if sm, Ok tt))
          | o => o
          end
      | o => o
      end
  end.

End Simulation.

(** ** Timer ([sim.py], class [Timer]) *)

Module Timer.

(** The timer: the iteration count [i] and its bound [i_max] (an
    [int], as the simulation makes its timers with [iter=0] and adds
    the iterations of every run), the displayed time [t] with its
    origin [t0], its minimum [tmin] and its period [tmax], and the
    count of the times [t] has come back to [tmin].  [started] says
    that [last_iter_t0] holds a time stamp (it is [None] until
    [start()] is called); the stamps themselves and the unit [ms] are
    left out. *)
Record timer : Type := mk {
  i : Z;
  i_max : Z;
  t0 : Z;
  tmin : Z;
  tmax : Z;
  t : Z;
  t_loop_cnt : Z;
  started : bool;
  is_running : bool;
  do_disp_zero : bool;
  did_loop_on_last_iter : bool
}.

(** [reset()]. *)
Definition reset (T : timer) : timer :=
  mk 0 (i_max T) (t0 T) (tmin T) (tmax T) (t0 T) 0 (started T)
     (is_running T) (do_disp_zero T) (did_loop_on_last_iter T).

(** [Timer(ms, iter, t0, tmin, tmax, do_disp_zero)]: [TypeError] when
    [tmin > tmax]. *)
Definition init (iter t0 tmin tmax : Z) (do_disp_zero : bool)
  : timer + error :=
  if tmax <? tmin then inr TypeError
  else inl (reset (mk 0 iter t0 tmin tmax t0 0 false false do_disp_zero
                      false)).

Definition add_iter (T : timer) (iter : Z) : timer :=
  mk (i T) (i_max T + iter) (t0 T) (tmin T) (tmax T) (t T) (t_loop_cnt T)
     (started T) (is_running T) (do_disp_zero T) (did_loop_on_last_iter T).

Definition get_i_left (T : timer) : Z := i_max T - i T.

(** [start()]. *)
Definition start (T : timer) : timer :=
  mk (i T) (i_max T) (t0 T) (tmin T) (tmax T) (t T) (t_loop_cnt T)
     true true (do_disp_zero T) (did_loop_on_last_iter T).

(** [step()].  Beyond [i_max] the count is put back to [i_max] and
    [TypeError] is raised; [i % tmax] divides by zero when [tmax] is 0;
    and the duration of the iteration is the difference of two time
    stamps, a [TypeError] when [start()] has never stored the first
    one, the count and the time having been advanced by then. *)
Definition step (T : timer) : timer * option error :=
  let i1 := i T + 1 in
  if i_max T <? i1 then
    (mk (i_max T) (i_max T) (t0 T) (tmin T) (tmax T) (t T) (t_loop_cnt T)
        (started T) (is_running T) (do_disp_zero T)
        (did_loop_on_last_iter T),
     Some TypeError)
  else if tmax T =? 0 then
    (mk i1 (i_max T) (t0 T) (tmin T) (tmax T) (t T) (t_loop_cnt T)
        (started T) (is_running T) (do_disp_zero T)
        (did_loop_on_last_iter T),
     Some ZeroDivisionError)
  else
    let t1 := i1 mod tmax T + tmin T in
    let did :=
      if do_disp_zero T && did_loop_on_last_iter T then false
      else did_loop_on_last_iter T in
    let looped := (0 <? i1) && (t1 =? tmin T) in
    let T1 := mk i1 (i_max T) (t0 T) (tmin T) (tmax T) t1
                 (if looped then t_loop_cnt T + 1 else t_loop_cnt T)
                 (started T) (is_running T) (do_disp_zero T)
                 (if looped then true else did) in
    if started T then (T1, None) else (T1, Some TypeError).

(** [n] calls of [step()], up to the first that raises. *)
Fixpoint steps (n : nat) (T : timer) : timer * option error :=
  match n with
  | O => (T, None)
  | S n' =>
      match step T with
      | (T1, None) => steps n' T1
      | r => r
      end
  end.

End Timer.

(** ** JSON text ([json.dumps(obj, sort_keys=True)]) *)

Module Json.

(** A [str] is held as its UTF-8 bytes; [json.dumps] escapes by code
    point, so the bytes are decoded first. *)
Fixpoint decode (fuel : nat) (bs : bytes) : list Z :=
  match fuel with
  | O => []
  | S fuel' =>
      match bs with
      | [] => []
      | b :: r =>
          if b <? 128 then b :: decode fuel' r
          else if b <? 224 then
            match r with
            | b2 :: r' => (b mod 32 * 64 + b2 mod 64) :: decode fuel' r'
            | _ => []
            end
          else if b <? 240 then
            match r with
            | b2 :: b3 :: r' =>
                (b mod 16 * 4096 + b2 mod 64 * 64 + b3 mod 64)
                  :: decode fuel' r'
            | _ => []
            end
          else
            match r with
            | b2 :: b3 :: b4 :: r' =>
                (b mod 8 * 262144 + b2 mod 64 * 4096 + b3 mod 64 * 64
                 + b4 mod 64) :: decode fuel' r'
            | _ => []
            end
      end
  end.

Definition code_points (s : string) : list Z :=
  decode (String.length s) (bytes_of_string s).

Definition chr (c : Z) : ascii := ascii_of_N (Z.to_N c).

Definition hex_digit (n : Z) : ascii :=
  chr (if n <? 10 then 48 + n else 87 + n).

(** [\uXXXX], four lower-case hexadecimal digits. *)
Definition u_escape (c : Z) : string :=
  String (chr 92) (String (chr 117)
    (String (hex_digit (c / 4096 mod 16))
      (String (hex_digit (c / 256 mod 16))
        (String (hex_digit (c / 16 mod 16))
          (String (hex_digit (c mod 16)) EmptyString))))).

Definition short_escape (c : Z) : string :=
  String (chr 92) (String (chr c) EmptyString).

(** One code point with [ensure_ascii]: the quote and the backslash are
    escaped, the printable ASCII characters stand for themselves, the
    five control characters with a short form take it, and anything
    else is written with [\u] escapes, as a surrogate pair beyond the
    basic plane. *)
Definition escape (c : Z) : string :=
  if c =? 34 then short_escape 34
  else if c =? 92 then short_escape 92
  else if (32 <=? c) && (c <=? 126) then String (chr c) EmptyString
  else if c =? 10 then short_escape 110
  else if c =? 13 then short_escape 114
  else if c =? 9 then short_escape 116
  else if c =? 8 then short_escape 98
  else if c =? 12 then short_escape 102
  else if c <? 65536 then u_escape c
  else
    let n := c - 65536 in
    (u_escape (55296 + n / 1024 mod 1024)
     ++ u_escape (56320 + n mod 1024))%string.

Definition quoted (s : string) : string :=
  (String (chr 34)
     (fold_right (fun c acc => escape c ++ acc) EmptyString (code_points s))
   ++ String (chr 34) EmptyString)%string.

Definition value (v : pyval) : string :=
  match v with
  | VNone => "null"
  | VBool true => "true"
  | VBool false => "false"
  | VInt z => NilZero.string_of_int (Z.to_int z)
  | VStr s => quoted s
  end.

(** [sorted(d.items())]: the keys of a dict differ, so the items are
    ordered by key, and [str] compares by code point, which is the
    order of the UTF-8 bytes. *)
Fixpoint insert (kv : string * pyval) (l : dict) : dict :=
  match l with
  | [] => [kv]
  | kv' :: l' =>
      if String.leb (fst kv) (fst kv') then kv :: l
      else kv' :: insert kv l'
  end.

Definition sorted (d : dict) : dict := fold_right insert [] d.

Definition item (kv : string * pyval) : string :=
  (quoted (fst kv) ++ ": " ++ value (snd kv))%string.

Fixpoint join (l : list string) : string :=
  match l with
  | [] => EmptyString
  | [x] => x
  | x :: l' => (x ++ ", " ++ join l')%string
  end.

Definition object (d : dict) : string :=
  ("{" ++ join (map item (sorted d)) ++ "}")%string.

End Json.

(** ** Site ([entity.py], class [Site]) *)

Module Site.

(** [Site.gen_hash(name, rel_name, attr)]:
    xxhash.xxh64(json.dumps((name, rel_name, attr), sort_keys=True)).intdigest() *)
Definition gen_hash (name rel_name : string) (attr : dict) : Z :=
  XXH64.intdigest
    (bytes_of_string
       ("[" ++ Json.join [Json.quoted name; Json.quoted rel_name;
                          Json.object attr] ++ "]")%string).

End Site.

(** ** A simulation with a VOID rule *)

(** A rule that sends the whole group to the VOID group, unless it sees
    a VOID group in the population it is given: then it marks the group
    it is applied to. *)
Definition void_watch : rule :=
  mkRule (fun _ _ _ => true)
         (fun P _ _ _ =>
            if existsb Group.is_void (Reg.values (groups P))
            then Some [mkSpec 1%Qc [("saw-void"%string, VBool true)] [] [] []]
            else Some [mkSpec 1%Qc Group.VOID [] [] []])
         (fun _ _ => None)
         (fun _ _ => None).

(** One group of mass 10, one rule, a timer at 0. *)
Definition void_watch_sim (proto : protocol) : Simulation.t :=
  let P := fst (GroupPopulation.add_group proto
                  (GroupPopulation.init (mkPragmas true false))
                  (Group.init None (Qc_of_Z 10) [] [])) in
  Simulation.mk P [void_watch] 0 0 0 0 1000 None false 0 false 0%Qc 0%Qc 10 0.

(** ** Auxiliary definitions of the statements *)

(** The entries of [saferound] that may still receive a unit. *)
Definition waiting (es : list (Z * option Qc)) : nat :=
  length (filter (fun e => match snd e with Some _ => true | None => false end) es).

(** The masses [split] hands to [instantiate]: step (1), rounded in step
    (2) unless fractional mass is allowed. *)
Definition split_masses (P : population) (g : group)
           (specs : list GroupSplitSpec) : list Qc :=
  let m_lst := Group.masses (g_m g) specs 0%Qc 0%Qc in
  if fractional_mass (sim P) then m_lst else SafeRound.saferound m_lst.

(** The groups [split] returns for the masses [m_lst]: one per spec whose
    mass is not zero, in the order of the specs. *)
Definition emitted (g : group) (m_lst : list Qc)
           (specs : list GroupSplitSpec) : list group :=
  map (fun ms => Group.new_group g (fst ms) (snd ms))
      (filter (fun ms => negb (Qc_eq_bool (fst ms) 0%Qc))
              (List.combine m_lst specs)).

(** A split spec with another probability. *)
Definition with_p (s : GroupSplitSpec) (x : Qc) : GroupSplitSpec :=
  mkSpec x (attr_set s) (attr_del s) (rel_set s) (rel_del s).

(** The mass a VITA registry holds under a key. *)
Definition vita_mass (vs : list (Z * group)) (k : Z) : Qc :=
  match Reg.get vs k with
  | Some v => g_m v
  | None => 0%Qc
  end.

(** A registered group after the VITA groups [vs] have been folded in. *)
Definition fold_in (vs : list (Z * group)) (kv : Z * group) : Z * group :=
  (fst kv, Group.set_m (snd kv) (g_m (snd kv) + vita_mass vs (fst kv))%Qc).

(** The total mass of the VOID groups of a registry. *)
Definition void_mass (gs : list (Z * group)) : Qc :=
  Qc_sum (map g_m (filter Group.is_void (Reg.values gs))).

Definition not_void (kv : Z * group) : bool := negb (Group.is_void (snd kv)).

(** Two set-maps that do not disagree on a key. *)
Definition compatible (d1 d2 : dict) : Prop :=
  forall k v1 v2, In (k, v1) d1 -> In (k, v2) d2 -> v1 = v2.

(** Two groups with the same attributes, relations and mass, whatever the
    order in which the dicts list their items. *)
Definition same_group (g1 g2 : group) : Prop :=
  Dict.same_content (g_attr g1) (g_attr g2) /\
  Dict.same_content (g_rel g1) (g_rel g2) /\
  g_m g1 = g_m g2.

(** Two lists of destination groups that are the same set. *)
Definition same_dests (l1 l2 : list group) : Prop :=
  (forall d, In d l1 -> exists d', In d' l2 /\ same_group d d') /\
  (forall d, In d l2 -> exists d', In d' l1 /\ same_group d' d).

Definition same_outcome (r1 r2 : result (option (list group))) : Prop :=
  match r1, r2 with
  | Ok (Some l1), Ok (Some l2) => same_dests l1 l2
  | Ok None, Ok None => True
  | Raise e1, Raise e2 => e1 = e2
  | _, _ => False
  end.

(** What a rule contributes to [ss_rules] on an iteration. *)
Definition rule_specs (r : rule) (P : population) (g : group) (iter t : Z)
  : option (list GroupSplitSpec) :=
  if is_applicable r g iter t then apply r P g iter t else None.

(** The combined spec of a pair of specs. *)
Definition combine2 (ab : GroupSplitSpec * GroupSplitSpec) : GroupSplitSpec :=
  Group.combine [fst ab; snd ab].

Definition swap {A B : Type} (ab : A * B) : B * A := (snd ab, fst ab).

(** The destinations of [apply_rules] as (content hash, mass) pairs. *)
Definition dest_pairs (proto : protocol) (r : result (option (list group)))
  : list (Z * Qc) :=
  match r with
  | Ok (Some l) => map (fun d => (snd (Group.get_hash proto d), g_m d)) l
  | _ => []
  end.

(** A rule that always applies and sets one attribute on the whole
    group. *)
Definition rule_set (k : string) (v : pyval) : rule :=
  mkRule (fun _ _ _ => true)
         (fun _ _ _ _ => Some [mkSpec 1%Qc [(k, v)] [] [] []])
         (fun _ _ => None)
         (fun _ _ => None).

(** A rule that always applies and sets one attribute on a share [q] of
    the group; the rest of the group stays as it is. *)
Definition rule_share (q : Qc) (k : string) (v : pyval) : rule :=
  mkRule (fun _ _ _ => true)
         (fun _ _ _ _ => Some [mkSpec q [(k, v)] [] [] [];
                               mkSpec 0%Qc [] [] [] []])
         (fun _ _ => None)
         (fun _ _ => None).

(** What only [do_post_iter] and [add_vita_group] write: the mass in, the
    mass out and the VITA registry. *)
Definition same_ledger (P P' : population) : Prop :=
  m_out P' = m_out P /\ m_in P' = m_in P /\ vita_groups P' = vita_groups P.

(** The cached hash of a group, if there is one, is the hash of its
    current attributes and relations. *)
Definition hash_fresh (proto : protocol) (g : group) : Prop :=
  forall h, g_hash g = Some h ->
            h = Group.gen_hash proto (g_attr g) (g_rel g).

(** What a rule contributes to [ss_rules] in each mode of
    [apply_rules]: the result of [setup], of [cleanup], or of [apply] if
    the rule is applicable; [None] is no claim on the group. *)
Definition claim (md : Group.mode) (r : rule) (P : population) (g : group)
           (iter t : Z) : option (list GroupSplitSpec) :=
  match md with
  | Group.RuleSetup => setup r P g
  | Group.RuleCleanup => cleanup r P g
  | Group.Iterate => rule_specs r P g iter t
  end.

(** The sum of the masses of the groups of a registry. *)
Definition reg_mass (gs : list (Z * group)) : Qc :=
  Qc_sum (map g_m (Reg.values gs)).

(** The registry after the masses of the groups under [srcs] have been
    reset. *)
Definition zero_sources (srcs : list Z) (gs : list (Z * group))
  : list (Z * group) :=
  map (fun kv => if existsb (Z.eqb (fst kv)) srcs
                 then (fst kv, Group.set_m (snd kv) 0%Qc) else kv) gs.



(** A frozen population stays frozen and keeps its total mass. *)
Definition same_total (P P' : population) : Prop :=
  is_frozen P = true -> is_frozen P' = true /\ pop_m P' = pop_m P.

(** ** [Group.split] and [Group.apply_rules] on binary64

    The mass arithmetic of entity.py as Python runs it: [m], [p], [p_sum]
    and [m_sum] are binary64 floats, [+], [-] and [*] round to nearest,
    and [==] is the comparison of IEEE 754. *)

#[local] Set Warnings "-inexact-float".

Module Binary64.

(** [Group], with the mass [float(m)]. *)
Record group : Type := mkGroup {
  g_name : option string;
  g_m : float;
  g_attr : dict;
  g_rel : dict;
  g_pop : option pop_ref;
  g_hash : option Z
}.

(** [GroupSplitSpec], with the probability a float. *)
Record GroupSplitSpec : Type := mkSpec {
  p : float;
  attr_set : dict;
  attr_del : list string;
  rel_set : dict;
  rel_del : list string
}.

(** A [Rule], as [apply_rules] uses it. *)
Record rule : Type := mkRule {
  is_applicable : group -> Z -> Z -> bool;
  apply : population -> group -> Z -> Z -> option (list GroupSplitSpec);
  setup : population -> group -> option (list GroupSplitSpec);
  cleanup : population -> group -> option (list GroupSplitSpec)
}.

(** [Group.__init__(name, m, attr, rel)]. *)
Definition init (name : option string) (m : float) (attr rel : dict) : group :=
  mkGroup name m attr rel None None.

(** [__hash__]/[get_hash]: computed on first use and cached. *)
Definition get_hash (proto : protocol) (g : group) : group * Z :=
  match g_hash g with
  | Some h => (g, h)
  | None =>
      let h := Group.gen_hash proto (g_attr g) (g_rel g) in
      (mkGroup (g_name g) (g_m g) (g_attr g) (g_rel g) (g_pop g) (Some h), h)
  end.

(** Step (1) of [split]: [m_lst].  [p_sum] and [m_sum] are the running
    sums, 0.0 at the start; the last spec takes [1 - p_sum] and
    [self.m - m_sum]; after the spec that makes [p_sum == 1.0] the loop
    breaks and the entries left keep their initial 0.0. *)
Fixpoint masses (m : float) (specs : list GroupSplitSpec) (p_sum m_sum : float)
  : list float :=
  match specs with
  | [] => []
  | s :: rest =>
      let '(p_i, m_i) :=
        match rest with
        | [] => (1 - p_sum, m - m_sum)%float
        | _ => (p s, m * p s)%float
        end in
      m_i :: (if (p_sum + p_i =? 1)%float
              then map (fun _ => 0%float) rest
              else masses m rest (p_sum + p_i)%float (m_sum + m_i)%float)
  end.

(** Step (3) of [split]: a new group per spec whose mass is not zero
    ([if m == 0: continue]).  The relation values are scalars, so
    [rel_set] is taken as it is. *)
Definition new_group (g : group) (m : float) (s : GroupSplitSpec) : group :=
  init (g_name g) m
       (Group.gen_dict (g_attr g) (attr_set s) (attr_del s))
       (Group.gen_dict (g_rel g) (rel_set s) (rel_del s)).

Fixpoint instantiate (g : group) (m_lst : list float)
         (specs : list GroupSplitSpec) : list group :=
  match m_lst, specs with
  | m :: m_lst', s :: specs' =>
      if (m =? 0)%float then instantiate g m_lst' specs'
      else new_group g m s :: instantiate g m_lst' specs'
  | _, _ => []
  end.

(** The combined split spec of one tuple of the Cartesian product:
    [ss_comb.p *= i.p] from 1.0, the set-maps by [dict.update]. *)
Definition combine (ss_lst : list GroupSplitSpec) : GroupSplitSpec :=
  fold_left
    (fun c i =>
       mkSpec (p c * p i)%float
              (Dict.update (attr_set c) (attr_set i))
              (attr_del c ++ attr_del i)
              (Dict.update (rel_set c) (rel_set i))
              (rel_del c ++ rel_del i))
    ss_lst
    (mkSpec 1%float [] [] [] []).

Section Split.

(** [iteround.saferound(m_lst, 0)] belongs to a package outside the
    repository; it returns one rounded value per value of [m_lst]. *)
Variable saferound : list float -> list float.

(** [split(specs)].  The group reads the fractional-mass pragma through
    [self.pop.sim], so it has to be bound to a population. *)
Definition split (P : population) (g : group) (specs : list GroupSplitSpec)
  : result (list group) :=
  match g_pop g with
  | None => Raise AttributeError
  | Some _ =>
      let m_lst := masses (g_m g) specs 0%float 0%float in
      let m_lst :=
        if fractional_mass (sim P) then m_lst else saferound m_lst in
      Ok (instantiate g m_lst specs)
  end.

(** Steps (2) and (3) of [apply_rules]. *)
Definition split_product (P : population) (g : group)
           (ss_rules : list (option (list GroupSplitSpec)))
  : result (option (list group)) :=
  match Group.drop_none ss_rules with
  | [] => Ok None
  | ss => r <- split P g (map combine (Group.product ss)) ;; Ok (Some r)
  end.

(** [apply_rules(pop, rules, iter, t, is_rule_setup, is_rule_cleanup)]. *)
Definition apply_rules (P : population) (g : group) (rules : list rule)
           (iter t : Z) (md : Group.mode) : result (option (list group)) :=
  split_product P g
    match md with
    | Group.RuleSetup => map (fun r => setup r P g) rules
    | Group.RuleCleanup => map (fun r => cleanup r P g) rules
    | Group.Iterate =>
        map (fun r => apply r P g iter t)
            (filter (fun r => is_applicable r g iter t) rules)
    end.

End Split.

(** [p_sum] and [m_sum] after the loop of step (1) has gone through the
    specs [l], none of them the last one, from the sums [p0] and [m0]. *)
Definition p_sum_after (p0 : float) (l : list GroupSplitSpec) : float :=
  fold_left (fun a s => (a + p s)%float) l p0.

Definition m_sum_after (m m0 : float) (l : list GroupSplitSpec) : float :=
  fold_left (fun a s => (a + m * p s)%float) l m0.

(** The loop does not break within the specs [l]: [p_sum] is not 1.0
    after any of them. *)
Definition no_break (p0 : float) (l : list GroupSplitSpec) : Prop :=
  forall n, (0 < n <= length l)%nat ->
            (p_sum_after p0 (firstn n l) =? 1)%float = false.

(** A split spec with another probability. *)
Definition with_p (s : GroupSplitSpec) (x : float) : GroupSplitSpec :=
  mkSpec x (attr_set s) (attr_del s) (rel_set s) (rel_del s).

(** [sum(g.m for g in groups)], added up from the left. *)
Definition total (l : list group) : float :=
  fold_left (fun a d => (a + g_m d)%float) l 0%float.

(** The destinations of [apply_rules] as (content hash, mass) pairs. *)
Definition dest_pairs (proto : protocol) (r : result (option (list group)))
  : list (Z * float) :=
  match r with
  | Ok (Some l) => map (fun d => (snd (get_hash proto d), g_m d)) l
  | _ => []
  end.

(** A rule that always applies and sets one attribute on the whole
    group. *)
Definition rule_set (k : string) (v : pyval) : rule :=
  mkRule (fun _ _ _ => true)
         (fun _ _ _ _ => Some [mkSpec 1%float [(k, v)] [] [] []])
         (fun _ _ => None)
         (fun _ _ => None).

(** A rule that always applies and sets one attribute on the share [q]
    of the group; the share [q'] of the group stays as it is. *)
Definition rule_share (q q' : float) (k : string) (v : pyval) : rule :=
  mkRule (fun _ _ _ => true)
         (fun _ _ _ _ => Some [mkSpec q [(k, v)] [] [] [];
                               mkSpec q' [] [] [] []])
         (fun _ _ => None)
         (fun _ _ => None).

End Binary64.

(** * Properties *)

(** ** Properties of Resource *)

Section ResourceFacts.
Import Resource.

Lemma allocate_all_name r n : name (fst (allocate_all r n)) = name r.
Proof. unfold allocate_all. destruct (_ <=? _); reflexivity. Qed.

Lemma allocate_all_capacity_max r n :
  capacity_max (fst (allocate_all r n)) = capacity_max r.
Proof. unfold allocate_all. destruct (_ <=? _); reflexivity. Qed.

(** C8. [allocate_all] is all-or-nothing: when the [n] agents fit it
    returns [True] and the capacity grows by exactly [n]; otherwise it
    returns [False] and the resource is left as it was. *)
Theorem allocate_all_all_or_nothing (r : t) (n : Z) :
  (capacity r + n <= capacity_max r ->
     snd (allocate_all r n) = true /\
     capacity (fst (allocate_all r n)) = capacity r + n /\
     capacity_max (fst (allocate_all r n)) = capacity_max r /\
     name (fst (allocate_all r n)) = name r) /\
  (capacity_max r < capacity r + n ->
     snd (allocate_all r n) = false /\
     fst (allocate_all r n) = r).
Proof.
  unfold allocate_all. split; intros H.
  - assert (E : (capacity r + n <=? capacity_max r) = true)
      by (apply Z.leb_le; exact H).
    rewrite E. simpl. repeat split; reflexivity.
  - assert (E : (capacity r + n <=? capacity_max r) = false)
      by (apply Z.leb_gt; exact H).
    rewrite E. simpl. split; reflexivity.
Qed.

(** The spec's scenario: max 5, capacity 3; two fit, three do not. *)
Lemma allocate_all_all_or_nothing_witness :
  let r := mk "bus" 3 5 in
  (snd (allocate_all r 2) = true /\ capacity (fst (allocate_all r 2)) = 5) /\
  (snd (allocate_all r 3) = false /\ fst (allocate_all r 3) = r).
Proof.
  intros r. split.
  - destruct (allocate_all_all_or_nothing r 2) as [Hfit _].
    destruct Hfit as (Hret & Hcap & _).
    + simpl. lia.
    + split; [exact Hret | rewrite Hcap; reflexivity].
  - destruct (allocate_all_all_or_nothing r 3) as [_ Hfull].
    apply Hfull. simpl. lia.
Defined.

(** The capacity bounds survive [allocate_all] and [release]. *)
Lemma allocate_all_in_bounds r n :
  0 <= n -> in_bounds r -> in_bounds (fst (allocate_all r n)).
Proof.
  unfold in_bounds, allocate_all. intros Hn [Hlo Hhi].
  destruct (capacity r + n <=? capacity_max r) eqn:E; simpl.
  - apply Z.leb_le in E. lia.
  - lia.
Qed.

Lemma release_in_bounds r n :
  0 <= n -> in_bounds r -> in_bounds (release r n).
Proof.
  unfold in_bounds, release. intros Hn [Hlo Hhi].
  destruct (capacity r =? 0); simpl; lia.
Qed.

Lemma run_without_allocate_any_in_bounds cs : forall r,
  Forall (fun c => 0 <= arg c) cs ->
  forallb (fun c => negb (is_allocate_any c)) cs = true ->
  in_bounds r -> in_bounds (run r cs).
Proof.
  induction cs as [|c cs IH]; intros r Hargs Hno Hr; simpl.
  - exact Hr.
  - inversion Hargs as [|c' cs' Hc Hcs]; subst.
    simpl in Hno. apply andb_true_iff in Hno as [Hc' Hno].
    apply IH; try assumption.
    destruct c as [n|n|n]; simpl in *.
    + now apply allocate_all_in_bounds.
    + discriminate.
    + now apply release_in_bounds.
Qed.

(** C10. The bounds [0 <= capacity <= capacity_max] do not survive
    [allocate_any]: it adds [capacity_max - n] to the capacity whatever
    the current capacity is.  On a fresh resource of maximum 5, asking
    for 10 places leaves capacity -5, and asking twice for one place
    leaves capacity 8. *)
Theorem allocate_any_breaks_capacity_bounds :
  in_bounds (init "bus" 5) /\
  capacity (run (init "bus" 5) [AllocateAny 10]) = -5 /\
  capacity (run (init "bus" 5) [AllocateAny 1; AllocateAny 1]) = 8 /\
  ~ in_bounds (run (init "bus" 5) [AllocateAny 10]) /\
  ~ in_bounds (run (init "bus" 5) [AllocateAny 1; AllocateAny 1]).
Proof.
  unfold in_bounds. simpl. repeat split; try lia; intros [H1 H2]; lia.
Qed.

End ResourceFacts.

(** ** Frozen groups *)

Section GroupMutation.

Lemma dict_get_set_eq d k v : Dict.get (Dict.set d k v) k = Some v.
Proof.
  induction d as [|[k' v'] d IH]; simpl.
  - now rewrite String.eqb_refl.
  - destruct (String.eqb k' k) eqn:E; simpl; rewrite E; auto.
Qed.

Lemma dict_get_set_ne d k k' v :
  k <> k' -> Dict.get (Dict.set d k v) k' = Dict.get d k'.
Proof.
  intros Hne. induction d as [|[k0 v0] d IH]; simpl.
  - destruct (String.eqb k k') eqn:E; [|reflexivity].
    apply String.eqb_eq in E. contradiction.
  - destruct (String.eqb k0 k) eqn:E; simpl.
    + apply String.eqb_eq in E. subst k0.
      destruct (String.eqb k k') eqn:E'; [|reflexivity].
      apply String.eqb_eq in E'. contradiction.
    + now rewrite IH.
Qed.



End GroupMutation.

(** ** Content hashing *)

Section Hashing.

(** The published test vectors of XXH64 with seed 0: the empty input,
    [abc], and an input of more than 32 bytes. *)
Example xxh64_test_vectors :
  XXH64.intdigest [] = 17241709254077376921 /\
  XXH64.intdigest (bytes_of_string "abc") = 4952883123889572249 /\
  XXH64.intdigest (bytes_of_string "Nobody inspects the spammish repetition")
    = 18144624926692707313.
Proof. repeat split; vm_compute; reflexivity. Qed.

(** The pickle of [({'a': 1, 'b': 2}, {})] under both protocols. *)
Example pickle_dumps_bytes :
  Pickle.dumps Proto3 [("a"%string, VInt 1); ("b"%string, VInt 2)] [] =
    [128; 3; 125; 113; 0; 40; 88; 1; 0; 0; 0; 97; 113; 1; 75; 1;
     88; 1; 0; 0; 0; 98; 113; 2; 75; 2; 117; 125; 113; 3; 134; 113; 4; 46] /\
  Pickle.dumps Proto4 [("a"%string, VInt 1); ("b"%string, VInt 2)] [] =
    [128; 4; 149; 21; 0; 0; 0; 0; 0; 0; 0; 125; 148; 40; 140; 1; 97; 148;
     75; 1; 140; 1; 98; 148; 75; 2; 117; 125; 148; 134; 148; 46].
Proof. split; vm_compute; reflexivity. Qed.

(** The same digest for the same dictionaries. *)
Lemma gen_hash_deterministic proto attr rel attr' rel' :
  attr = attr' -> rel = rel' ->
  Group.gen_hash proto attr rel = Group.gen_hash proto attr' rel'.
Proof. intros -> ->. reflexivity. Qed.

(** C4. [gen_hash] digests the pickle of the two dicts, and a pickle
    lists the items of a dict in insertion order: [{'a': 1, 'b': 2}]
    and [{'b': 2, 'a': 1}] are equal dicts with different hashes, as
    attributes and as relations, under both pickle protocols. *)
Theorem gen_hash_depends_on_insertion_order :
  let d1 := [("a"%string, VInt 1); ("b"%string, VInt 2)] in
  let d2 := [("b"%string, VInt 2); ("a"%string, VInt 1)] in
  Dict.eqb d1 d2 = true /\
  Group.gen_hash Proto3 d1 [] = 12846097856957278016 /\
  Group.gen_hash Proto3 d2 [] = 1298600930832283831 /\
  Group.gen_hash Proto4 d1 [] = 11579288591346492739 /\
  Group.gen_hash Proto4 d2 [] = 14030715113975240739 /\
  Group.gen_hash Proto3 [] d1 <> Group.gen_hash Proto3 [] d2 /\
  Group.gen_hash Proto4 [] d1 <> Group.gen_hash Proto4 [] d2.
Proof.
  repeat split; try (vm_compute; reflexivity); vm_compute; discriminate.
Qed.

End Hashing.

(** ** Registering groups *)

Section Registering.

Lemma reg_get_set_eq {A} (d : list (Z * A)) k v :
  Reg.get (Reg.set d k v) k = Some v.
Proof.
  induction d as [|[k' v'] d IH]; simpl.
  - now rewrite Z.eqb_refl.
  - destruct (k' =? k) eqn:E; simpl; rewrite E; auto.
Qed.

Lemma reg_get_set_ne {A} (d : list (Z * A)) k k' v :
  k <> k' -> Reg.get (Reg.set d k v) k' = Reg.get d k'.
Proof.
  intros Hne. induction d as [|[k0 v0] d IH]; simpl.
  - destruct (k =? k') eqn:E; [|reflexivity].
    apply Z.eqb_eq in E. contradiction.
  - destruct (k0 =? k) eqn:E; simpl.
    + apply Z.eqb_eq in E. subst k0.
      destruct (k =? k') eqn:E'; [|reflexivity].
      apply Z.eqb_eq in E'. contradiction.
    + now rewrite IH.
Qed.

Lemma reg_keys_set_mem {A} (d : list (Z * A)) k v v0 :
  Reg.get d k = Some v0 -> Reg.keys (Reg.set d k v) = Reg.keys d.
Proof.
  unfold Reg.keys.
  induction d as [|[k' v'] d IH]; simpl; [discriminate|].
  destruct (k' =? k) eqn:E; simpl; [reflexivity|].
  intros H. f_equal. now apply IH.
Qed.

Lemma reg_keys_set_new {A} (d : list (Z * A)) k v :
  Reg.get d k = None -> Reg.keys (Reg.set d k v) = Reg.keys d ++ [k].
Proof.
  unfold Reg.keys.
  induction d as [|[k' v'] d IH]; simpl; [reflexivity|].
  destruct (k' =? k) eqn:E; simpl; [discriminate|].
  intros H. f_equal. now apply IH.
Qed.

Lemma get_hash_fields proto g :
  g_name (fst (Group.get_hash proto g)) = g_name g /\
  g_m (fst (Group.get_hash proto g)) = g_m g /\
  g_attr (fst (Group.get_hash proto g)) = g_attr g /\
  g_rel (fst (Group.get_hash proto g)) = g_rel g /\
  g_pop (fst (Group.get_hash proto g)) = g_pop g /\
  g_hash (fst (Group.get_hash proto g)) = Some (snd (Group.get_hash proto g)).
Proof.
  unfold Group.get_hash. destruct (g_hash g) eqn:E; simpl; auto 7.
Qed.

(** [add_group] of a group whose hash is new and which is at no site. *)
Lemma add_group_new proto P g :
  Reg.get (groups P) (snd (Group.get_hash proto g)) = None ->
  Dict.get (g_rel g) Group.AT = None ->
  exists P',
    GroupPopulation.add_group proto P g = (P', Ok tt) /\
    groups P' =
      Reg.set (groups P) (snd (Group.get_hash proto g))
              (Group.set_pop (fst (Group.get_hash proto g)) (Some ThePop)) /\
    is_frozen P' = is_frozen P.
Proof.
  intros Hnew Hat. unfold GroupPopulation.add_group.
  destruct (get_hash_fields proto g) as (_ & _ & _ & Hr & _).
  destruct (Group.get_hash proto g) as [g' h]. simpl in *.
  replace (Reg.get (groups (if is_frozen P then P else _)) h)
    with (@None group) by (destruct (is_frozen P); auto).
  unfold Group.link_to_site_at, Group.freeze. simpl. rewrite Hr, Hat.
  eexists. split; [reflexivity|].
  destruct (is_frozen P) eqn:E; simpl; auto.
Qed.

(** [add_group] of a group whose hash is registered. *)
Lemma add_group_known proto P g g0 :
  Reg.get (groups P) (snd (Group.get_hash proto g)) = Some g0 ->
  exists P',
    GroupPopulation.add_group proto P g = (P', Ok tt) /\
    groups P' =
      Reg.set (groups P) (snd (Group.get_hash proto g))
              (Group.set_m g0 (g_m g0 + g_m g)%Qc).
Proof.
  intros Hknown. unfold GroupPopulation.add_group.
  destruct (get_hash_fields proto g) as (_ & Hm & _).
  destruct (Group.get_hash proto g) as [g' h]. simpl in *.
  replace (Reg.get (groups (if is_frozen P then P else _)) h)
    with (Some g0) by (destruct (is_frozen P); auto).
  rewrite Hm. eexists. split; [reflexivity|].
  destruct (is_frozen P); reflexivity.
Qed.

(** Two groups that hash alike end up as one registered group, which is
    the first one with the mass of both, bound to the population. *)
Lemma add_group_same_hash_merges proto P g1 g2 h :
  snd (Group.get_hash proto g1) = h ->
  snd (Group.get_hash proto g2) = h ->
  Reg.get (groups P) h = None ->
  Dict.get (g_rel g1) Group.AT = None ->
  exists P',
    GroupPopulation.and_then (GroupPopulation.add_group proto P g1)
      (fun P1 => GroupPopulation.add_group proto P1 g2) = (P', Ok tt) /\
    Reg.keys (groups P') = Reg.keys (groups P) ++ [h] /\
    Reg.get (groups P') h =
      Some (mkGroup (g_name g1) (g_m g1 + g_m g2)%Qc (g_attr g1) (g_rel g1)
                    (Some ThePop) (Some h)).
Proof.
  intros H1 H2 Hnew Hat.
  destruct (add_group_new proto P g1) as (P1 & E1 & G1 & _);
    [now rewrite H1 | exact Hat |].
  rewrite E1. simpl. rewrite H1 in G1.
  destruct (add_group_known proto P1 g2
              (Group.set_pop (fst (Group.get_hash proto g1)) (Some ThePop)))
    as (P2 & E2 & G2).
  { rewrite H2, G1. apply reg_get_set_eq. }
  rewrite H2 in G2.
  exists P2. split; [exact E2|]. rewrite G2, G1. split.
  - erewrite reg_keys_set_mem by apply reg_get_set_eq.
    now apply reg_keys_set_new.
  - rewrite reg_get_set_eq.
    destruct (get_hash_fields proto g1) as (Hn & Hm & Ha & Hr & _ & Hc).
    rewrite H1 in Hc. unfold Group.set_m, Group.set_pop. simpl.
    now rewrite Hn, Hm, Ha, Hr, Hc.
Qed.

(** C3. Two groups with equal attributes and relations, written in a
    different order, are equal for [__eq__] and hash differently:
    [add_group] registers both, each with its own mass, instead of one
    group with the sum (under both pickle protocols). *)
Theorem add_group_equal_content_not_merged :
  let P := GroupPopulation.init (mkPragmas true false) in
  let g1 := Group.init None (Qc_of_Z 3)
              [("a"%string, VInt 1); ("b"%string, VInt 2)] [] in
  let g2 := Group.init None (Qc_of_Z 4)
              [("b"%string, VInt 2); ("a"%string, VInt 1)] [] in
  let both proto :=
    GroupPopulation.and_then (GroupPopulation.add_group proto P g1)
      (fun P1 => GroupPopulation.add_group proto P1 g2) in
  Group.eqb g1 g2 = true /\
  snd (both Proto3) = Ok tt /\
  snd (both Proto4) = Ok tt /\
  map (fun kv => (fst kv, g_m (snd kv))) (groups (fst (both Proto3))) =
    [(12846097856957278016, Qc_of_Z 3); (1298600930832283831, Qc_of_Z 4)] /\
  map (fun kv => (fst kv, g_m (snd kv))) (groups (fst (both Proto4))) =
    [(11579288591346492739, Qc_of_Z 3); (14030715113975240739, Qc_of_Z 4)].
Proof.
  repeat split; vm_compute; reflexivity.
Qed.

End Registering.

(** ** The iteration loop *)

Section Running.

(** C2. [run] never calls [do_post_iter].  After two iterations of
    [void_watch_sim] the population still holds the VOID group made by
    the first iteration, with its mass of 10 and nothing credited to
    the mass out, and the second iteration has applied the rule to a
    population that held it: the mark is there. *)
Theorem run_skips_post_iteration (proto : protocol) :
  let sm := fst (Simulation.run proto (void_watch_sim proto) 2) in
  snd (Simulation.run proto (void_watch_sim proto) 2) = Ok tt /\
  Simulation.timer_i sm = 2 /\
  map (fun kv => (g_attr (snd kv), g_m (snd kv)))
      (groups (Simulation.pop sm)) =
    [([], 0%Qc);
     ([("__void__"%string, VBool true)], 0%Qc);
     ([("__void__"%string, VBool true); ("saw-void"%string, VBool true)],
      Qc_of_Z 10)] /\
  existsb Group.is_void (Reg.values (groups (Simulation.pop sm))) = true /\
  m_out (Simulation.pop sm) = 0%Qc /\
  pop_m (Simulation.pop sm) = Qc_of_Z 10.
Proof.
  destruct proto; repeat split; vm_compute; reflexivity.
Qed.

End Running.

Section Ledger.
Import GroupPopulation.

Lemma same_ledger_refl P : same_ledger P P.
Proof. repeat split. Qed.

Lemma same_ledger_trans P1 P2 P3 :
  same_ledger P1 P2 -> same_ledger P2 P3 -> same_ledger P1 P3.
Proof.
  intros (A1 & A2 & A3) (B1 & B2 & B3). repeat split; congruence.
Qed.

Lemma add_group_ledger proto P g :
  same_ledger P (fst (add_group proto P g)).
Proof.
  unfold add_group. destruct (Group.get_hash proto g) as [g' h].
  destruct (is_frozen P);
    (destruct (Reg.get _ h); [repeat split|];
     destruct (Group.link_to_site_at _ h _); repeat split).
Qed.

Lemma add_groups_ledger proto gs : forall P,
  same_ledger P (fst (add_groups proto P gs)).
Proof.
  induction gs as [|g gs IH]; intros P; simpl; [apply same_ledger_refl|].
  pose proof (add_group_ledger proto P g) as H.
  destruct (add_group proto P g) as [P1 [[]|e]]; simpl in *; [|exact H].
  eapply same_ledger_trans; [exact H|apply IH].
Qed.

Lemma zero_sources_ledger srcs : forall P,
  same_ledger P
    (fold_left
       (fun P h =>
          match Reg.get (groups P) h with
          | Some g => set_groups P (Reg.set (groups P) h (Group.set_m g 0%Qc))
          | None => P
          end) srcs P).
Proof.
  induction srcs as [|h srcs IH]; intros P; simpl; [apply same_ledger_refl|].
  eapply same_ledger_trans; [|apply IH].
  destruct (Reg.get (groups P) h); repeat split.
Qed.

Lemma transfer_mass_ledger proto P srcs dst :
  same_ledger P (fst (transfer_mass proto P srcs dst)).
Proof.
  unfold transfer_mass.
  match goal with
  | |- context [add_groups proto ?Q dst] =>
      assert (HQ : same_ledger P Q) by apply zero_sources_ledger;
      pose proof (add_groups_ledger proto dst Q) as H;
      destruct (add_groups proto Q dst) as [P1 [[]|e]]
  end; simpl in *.
  - eapply same_ledger_trans; [exact HQ|].
    eapply same_ledger_trans; [exact H|].
    destruct (relink _ _); repeat split.
  - eapply same_ledger_trans; [exact HQ|exact H].
Qed.

Lemma apply_with_ledger proto P f :
  same_ledger P (fst (apply_with proto P f)).
Proof.
  unfold apply_with. destruct (collect P f (groups P)) as [[[|h srcs] dst]|e];
    simpl; try apply same_ledger_refl.
  apply transfer_mass_ledger.
Qed.

Lemma compact_if_ledger sm :
  same_ledger (Simulation.pop sm) (Simulation.pop (Simulation.compact_if sm)).
Proof.
  unfold Simulation.compact_if.
  destruct (autocompact _); repeat split.
Qed.

Lemma iteration_ledger proto sm :
  same_ledger (Simulation.pop sm)
              (Simulation.pop (fst (Simulation.iteration proto sm))).
Proof.
  unfold Simulation.iteration, apply_rules.
  pose proof (apply_with_ledger proto (Simulation.pop sm)
                (fun g => Group.apply_rules (Simulation.pop sm) g
                            (Simulation.rules sm) (Simulation.timer_i sm)
                            (Simulation.timer_t sm) Group.Iterate)) as H.
  destruct (apply_with _ _ _) as [P1 [[]|e]]; simpl in *; [|exact H].
  eapply same_ledger_trans; [exact H|].
  destruct (Simulation.autostop sm); [destruct (Qc_ltb 0 (pop_m P1))|];
    try apply (compact_if_ledger (Simulation.timer_step (Simulation.set_pop sm P1))).
  match goal with
  | |- context [Simulation.compact_if ?s0] =>
      pose proof (compact_if_ledger s0) as Hc
  end.
  destruct (Simulation.autostop_t sm <=? _); simpl in *;
    [apply same_ledger_refl|exact Hc].
Qed.

Lemma iterations_ledger proto n : forall sm,
  same_ledger (Simulation.pop sm)
              (Simulation.pop (fst (Simulation.iterations proto n sm))).
Proof.
  induction n as [|n IH]; intros sm; simpl; [apply same_ledger_refl|].
  pose proof (iteration_ledger proto sm) as H.
  destruct (Simulation.iteration proto sm) as [sm1 [[|]|e]]; simpl in *;
    try exact H.
  eapply same_ledger_trans; [exact H|apply IH].
Qed.

Lemma rule_setup_ledger proto sm :
  same_ledger (Simulation.pop sm)
              (Simulation.pop (fst (Simulation.rule_setup proto sm))).
Proof.
  unfold Simulation.rule_setup, Simulation.lift.
  destruct (Simulation.is_setup_done sm); [apply same_ledger_refl|].
  set (o := match Simulation.fn_group_setup sm with
            | Some fn => apply_sim_setup proto (Simulation.pop sm) fn
            | None => (Simulation.pop sm, Ok tt)
            end).
  assert (H1 : same_ledger (Simulation.pop sm) (fst o)).
  { unfold o. destruct (Simulation.fn_group_setup sm);
      [apply apply_with_ledger|apply same_ledger_refl]. }
  clearbody o. destruct o as [P1 [[]|e]]; simpl in *; [|exact H1].
  eapply same_ledger_trans; [exact H1|].
  unfold apply_rules.
  match goal with
  | |- context [apply_with proto P1 ?f] =>
      pose proof (apply_with_ledger proto P1 f) as H2;
      destruct (apply_with proto P1 f) as [P2 [[]|e]]; simpl in *; exact H2
  end.
Qed.

(** Whatever the rules and the number of iterations, [run] leaves the
    mass in, the mass out and the VITA registry as they were: nothing it
    calls removes the mass of a VOID group from the books or folds a
    VITA group in. *)
Lemma run_ledger proto sm iter :
  same_ledger (Simulation.pop sm)
              (Simulation.pop (fst (Simulation.run proto sm iter))).
Proof.
  unfold Simulation.run.
  destruct (Simulation.rules sm) as [|r rs] eqn:Er; [apply same_ledger_refl|].
  destruct (groups (Simulation.pop sm)) as [|kv gs] eqn:Eg;
    [apply same_ledger_refl|].
  match goal with
  | |- context [Simulation.rule_setup proto ?s0] =>
      pose proof (rule_setup_ledger proto s0) as H1;
      destruct (Simulation.rule_setup proto s0) as [sm1 [[]|e]];
      simpl in H1 |- *; [|exact H1]
  end.
  match goal with
  | |- context [Simulation.iterations proto ?n ?s0] =>
      pose proof (iterations_ledger proto n s0) as H2;
      destruct (Simulation.iterations proto n s0) as [sm2 [[]|e]]
  end.
  - unfold Simulation.lift, apply_rules.
    match goal with
    | |- context [apply_with proto ?Q ?f] =>
        pose proof (apply_with_ledger proto Q f) as H3;
        destruct (apply_with proto Q f) as [P3 [[]|e]]
    end; simpl in *.
    + eapply same_ledger_trans; [exact H1|].
      eapply same_ledger_trans; [apply compact_if_ledger|].
      eapply same_ledger_trans; [exact H2|].
      eapply same_ledger_trans; [exact H3|].
      apply (compact_if_ledger (Simulation.set_pop sm2 P3)).
    + eapply same_ledger_trans; [exact H1|].
      eapply same_ledger_trans; [apply compact_if_ledger|].
      eapply same_ledger_trans; [exact H2|exact H3].
  - simpl in *. eapply same_ledger_trans; [exact H1|].
    eapply same_ledger_trans; [apply compact_if_ledger|exact H2].
Qed.

End Ledger.

(** ** Rounding *)

Section Rounding.
Local Open Scope Qc_scope.

(** From [Qc] to [Q] and back. *)
Lemma Qc_of_Z_this z : (this (Qc_of_Z z) == inject_Z z)%Q.
Proof. change (Qred (inject_Z z) == inject_Z z)%Q. apply Qred_correct. Qed.

Lemma Qc_plus_this a b : (this (a + b) == this a + this b)%Q.
Proof. change (Qred (this a + this b) == this a + this b)%Q. apply Qred_correct. Qed.

Lemma Qc_minus_this a b : (this (a - b) == this a - this b)%Q.
Proof.
  unfold Qcminus. rewrite Qc_plus_this.
  change (this (- b)) with (Qred (- this b)).
  rewrite Qred_correct. reflexivity.
Qed.

Lemma Qc_of_Z_plus a b : Qc_of_Z (a + b) = Qc_of_Z a + Qc_of_Z b.
Proof.
  apply Qc_is_canon. rewrite Qc_plus_this, !Qc_of_Z_this.
  rewrite inject_Z_plus. reflexivity.
Qed.

Lemma Qc_of_Z_le a b : (a <= b)%Z <-> Qc_of_Z a <= Qc_of_Z b.
Proof.
  unfold Qcle. rewrite !Qc_of_Z_this, Zle_Qle. reflexivity.
Qed.

Lemma Qc_floor_le x : Qc_of_Z (Qc_floor x) <= x.
Proof. unfold Qcle. rewrite Qc_of_Z_this. apply Qfloor_le. Qed.

Lemma Qc_lt_floor x : x < Qc_of_Z (Qc_floor x + 1).
Proof. unfold Qclt. rewrite Qc_of_Z_this. apply Qlt_floor. Qed.

Lemma Qc_floor_of_Z z : Qc_floor (Qc_of_Z z) = z.
Proof. unfold Qc_floor. rewrite Qc_of_Z_this. apply Qfloor_Z. Qed.

Lemma Qc_floor_mono x y : x <= y -> (Qc_floor x <= Qc_floor y)%Z.
Proof. unfold Qcle, Qc_floor. apply Qfloor_resp_le. Qed.

Lemma half_this : (this half == 1 # 2)%Q.
Proof. reflexivity. Qed.

Lemma py_round_cases x :
  py_round x = Qc_floor x \/
  (py_round x = (Qc_floor x + 1)%Z /\ Qc_of_Z (Qc_floor x) < x).
Proof.
  unfold py_round.
  destruct (x - Qc_of_Z (Qc_floor x) ?= half) eqn:E; auto.
  - destruct (Z.even (Qc_floor x)); auto. right. split; auto.
    apply Qceq_alt in E. unfold Qclt.
    assert (H : (this (x - Qc_of_Z (Qc_floor x)) == this half)%Q) by (rewrite E; reflexivity).
    rewrite Qc_minus_this, half_this in H. lra.
  - right. split; auto.
    apply Qcgt_alt in E. unfold Qclt in *.
    rewrite Qc_minus_this, half_this in E. lra.
Qed.

Lemma py_round_ge k x : Qc_of_Z k <= x -> (k <= py_round x)%Z.
Proof.
  intros H. apply Qc_floor_mono in H. rewrite Qc_floor_of_Z in H.
  destruct (py_round_cases x) as [->|[-> _]]; lia.
Qed.

Lemma py_round_le k x : x <= Qc_of_Z k -> (py_round x <= k)%Z.
Proof.
  intros H. pose proof (Qc_floor_mono _ _ H) as Hf. rewrite Qc_floor_of_Z in Hf.
  destruct (py_round_cases x) as [->|[-> Hlt]]; [lia|].
  assert (Hlt' : Qc_of_Z (Qc_floor x) < Qc_of_Z k) by (eapply Qclt_le_trans; eauto).
  unfold Qclt in Hlt'. rewrite !Qc_of_Z_this, <- Zlt_Qlt in Hlt'. lia.
Qed.

Lemma py_round_of_Z z : py_round (Qc_of_Z z) = z.
Proof.
  apply Z.le_antisymm.
  - apply py_round_le, Qcle_refl.
  - apply py_round_ge, Qcle_refl.
Qed.

End Rounding.

Section SafeRounding.
Import SafeRound.
Local Open Scope Qc_scope.

Lemma Qc_eq_bool_refl x : Qc_eq_bool x x = true.
Proof. unfold Qc_eq_bool. destruct (Qc_eq_dec x x); congruence. Qed.

Lemma Qc_eq_bool_true x y : Qc_eq_bool x y = true <-> x = y.
Proof.
  split; [apply Qc_eq_bool_correct | intros ->; apply Qc_eq_bool_refl].
Qed.

Lemma max_rem_in es r :
  max_rem es = Some r -> exists z, In (z, Some r) es.
Proof.
  revert r. induction es as [|[z [r'|]] es IH]; simpl; intros r H.
  - discriminate.
  - destruct (max_rem es) as [r''|] eqn:E.
    + destruct (Qc_ltb r' r''); inversion H; subst.
      * destruct (IH r eq_refl) as [z' Hz]. eauto.
      * eauto.
    + inversion H; subst. eauto.
  - destruct (IH r H) as [z' Hz]. eauto.
Qed.

Lemma max_rem_waiting es : (0 < waiting es)%nat -> max_rem es <> None.
Proof.
  unfold waiting. induction es as [|[z [r'|]] es IH]; simpl; intros H.
  - lia.
  - destruct (max_rem es); [destruct (Qc_ltb _ _)|]; discriminate.
  - auto.
Qed.

Lemma bump_first_spec r es :
  (exists z, In (z, Some r) es) ->
  Z_sum (map fst (bump_first r es)) = (Z_sum (map fst es) + 1)%Z /\
  S (waiting (bump_first r es)) = waiting es /\
  length (bump_first r es) = length es.
Proof.
  unfold waiting. induction es as [|[z [r'|]] es IH]; simpl; intros [z0 Hin].
  - contradiction.
  - destruct (Qc_eq_bool r' r) eqn:E; simpl.
    + repeat split; lia.
    + destruct Hin as [Heq|Hin].
      * inversion Heq; subst. rewrite Qc_eq_bool_refl in E. discriminate.
      * destruct IH as (H1 & H2 & H3); eauto. repeat split; lia.
  - destruct Hin as [Heq|Hin]; [discriminate|].
    destruct IH as (H1 & H2 & H3); eauto. repeat split; lia.
Qed.

Lemma bump_spec k : forall es,
  (k <= waiting es)%nat ->
  Z_sum (map fst (bump k es)) = (Z_sum (map fst es) + Z.of_nat k)%Z /\
  length (bump k es) = length es.
Proof.
  induction k as [|k IH]; intros es Hk.
  - simpl. split; [lia|reflexivity].
  - change (bump (S k) es) with (bump k (bump_one es)). unfold bump_one.
    destruct (max_rem es) as [r|] eqn:E.
    + destruct (bump_first_spec r es (max_rem_in es r E)) as (H1 & H2 & H3).
      destruct (IH (bump_first r es)) as [H4 H5]; [lia|].
      split; [rewrite H4, H1; lia | now rewrite H5].
    + exfalso. apply (max_rem_waiting es); [lia|exact E].
Qed.

Lemma waiting_entries xs : waiting (map entry_of xs) = length xs.
Proof. unfold waiting. induction xs; simpl; auto. Qed.

Lemma floors_le_sum xs :
  Qc_of_Z (Z_sum (map fst (map entry_of xs))) <= Qc_sum xs.
Proof.
  induction xs as [|x xs IH]; simpl.
  - apply Qcle_refl.
  - rewrite Qc_of_Z_plus. apply Qcplus_le_compat; [apply Qc_floor_le|exact IH].
Qed.

Lemma sum_le_floors xs :
  Qc_sum xs <=
  Qc_of_Z (Z_sum (map fst (map entry_of xs)) + Z.of_nat (length xs)).
Proof.
  induction xs as [|x xs IH]; simpl length; simpl Qc_sum; simpl Z_sum.
  - rewrite Z.add_0_r. apply Qcle_refl.
  - replace (Qc_floor x + Z_sum (map fst (map entry_of xs)) + Z.of_nat (S (length xs)))%Z
      with ((Qc_floor x + 1) + (Z_sum (map fst (map entry_of xs)) + Z.of_nat (length xs)))%Z
      by lia.
    rewrite Qc_of_Z_plus. apply Qcplus_le_compat; [|exact IH].
    apply Qclt_le_weak, Qc_lt_floor.
Qed.

Lemma Qc_sum_of_Z zs : Qc_sum (map Qc_of_Z zs) = Qc_of_Z (Z_sum zs).
Proof.
  induction zs as [|z zs IH]; simpl.
  - apply Qc_is_canon. reflexivity.
  - now rewrite IH, Qc_of_Z_plus.
Qed.

(** [saferound] preserves the total: the rounded values add up to the
    rounding of the exact sum. *)
Lemma saferound_total xs :
  Qc_sum (saferound xs) = Qc_of_Z (py_round (Qc_sum xs)).
Proof.
  unfold saferound.
  set (es := map entry_of xs).
  set (u := (py_round (Qc_sum xs) - Z_sum (map fst es))%Z).
  assert (Hlo : (0 <= u)%Z).
  { unfold u. pose proof (py_round_ge _ _ (floors_le_sum xs)). fold es in H. lia. }
  assert (Hhi : (u <= Z.of_nat (length xs))%Z).
  { unfold u. pose proof (py_round_le _ _ (sum_le_floors xs)). fold es in H. lia. }
  destruct (bump_spec (Z.to_nat u) es) as [Hsum _].
  { unfold es. rewrite waiting_entries. lia. }
  rewrite <- (map_map fst Qc_of_Z), Qc_sum_of_Z, Hsum.
  f_equal. unfold u. lia.
Qed.

Lemma saferound_length xs : length (saferound xs) = length xs.
Proof.
  unfold saferound. cbv zeta. rewrite length_map.
  assert (Hw : (Z.to_nat (py_round (Qc_sum xs)
                          - Z_sum (map fst (map entry_of xs)))
                <= waiting (map entry_of xs))%nat).
  { rewrite waiting_entries.
    pose proof (py_round_le _ _ (sum_le_floors xs)). lia. }
  rewrite (proj2 (bump_spec _ _ Hw)). apply length_map.
Qed.

End SafeRounding.

(** ** Mass splitting *)

Section Splitting.
Local Open Scope Qc_scope.

Lemma Qc_sum_zeros {A} (l : list A) : Qc_sum (map (fun _ => 0) l) = 0.
Proof. induction l; simpl; [reflexivity|]. rewrite IHl. ring. Qed.

Lemma Qc_sum_app l1 l2 : Qc_sum (l1 ++ l2) = Qc_sum l1 + Qc_sum l2.
Proof. induction l1; simpl; [ring|]. rewrite IHl1. ring. Qed.

Lemma masses_length m specs : forall p_sum m_sum,
  length (Group.masses m specs p_sum m_sum) = length specs.
Proof.
  induction specs as [|s rest IH]; intros p_sum m_sum; [reflexivity|].
  simpl. destruct rest as [|s' rest'].
  - destruct (Qc_eq_bool _ _); reflexivity.
  - destruct (Qc_eq_bool _ _); simpl; f_equal.
    + now rewrite length_map.
    + apply (IH (p_sum + p s) (m_sum + m * p s)).
Qed.

(** The masses computed by [split] add up to what was left to hand out,
    as long as the running sums agree. *)
Lemma masses_sum m specs : forall p_sum m_sum,
  specs <> [] -> m_sum = m * p_sum ->
  Qc_sum (Group.masses m specs p_sum m_sum) = m - m_sum.
Proof.
  induction specs as [|s rest IH]; intros p_sum m_sum Hne Hinv;
    [contradiction|].
  destruct rest as [|s' rest'].
  - simpl. destruct (Qc_eq_bool _ _); simpl; ring.
  - change (Group.masses m (s :: s' :: rest') p_sum m_sum)
      with (m * p s ::
            (if Qc_eq_bool (p_sum + p s) 1
             then map (fun _ => 0) (s' :: rest')
             else Group.masses m (s' :: rest') (p_sum + p s) (m_sum + m * p s))).
    destruct (Qc_eq_bool (p_sum + p s) 1) eqn:E.
    + apply Qc_eq_bool_correct in E.
      change (Qc_sum (m * p s :: ?l)) with (m * p s + Qc_sum l).
      cbn [Qc_sum fold_right]. rewrite Qc_sum_zeros. subst m_sum.
      replace (p s) with (1 - p_sum) by (rewrite <- E; ring). ring.
    + cbn [Qc_sum fold_right].
      change (fold_right Qcplus 0 ?l) with (Qc_sum l).
      rewrite IH; [ring|discriminate|subst m_sum; ring].
Qed.

Lemma instantiate_sum g : forall m_lst specs,
  length m_lst = length specs ->
  Qc_sum (map g_m (Group.instantiate g m_lst specs)) = Qc_sum m_lst.
Proof.
  induction m_lst as [|m m_lst IH]; intros [|s specs] Hlen;
    try discriminate; [reflexivity|].
  simpl in Hlen. injection Hlen as Hlen. simpl.
  destruct (Qc_eq_bool m 0) eqn:E.
  - apply Qc_eq_bool_correct in E. subst m. rewrite IH by exact Hlen. ring.
  - simpl. now rewrite IH.
Qed.

Lemma instantiate_nonzero g : forall m_lst specs g',
  In g' (Group.instantiate g m_lst specs) -> g_m g' <> 0.
Proof.
  induction m_lst as [|m m_lst IH]; intros [|s specs] g' Hin;
    try contradiction.
  simpl in Hin. destruct (Qc_eq_bool m 0) eqn:E.
  - eauto.
  - destruct Hin as [<-|Hin]; [|eauto].
    simpl. intros ->. rewrite Qc_eq_bool_refl in E. discriminate.
Qed.

Lemma instantiate_emitted g : forall m_lst specs,
  Group.instantiate g m_lst specs = emitted g m_lst specs.
Proof.
  unfold emitted.
  induction m_lst as [|m m_lst IH]; intros [|s specs]; try reflexivity.
  simpl. rewrite IH. destruct (Qc_eq_bool m 0); reflexivity.
Qed.

Lemma split_ok P g specs :
  g_pop g <> None ->
  Group.split P g specs =
    Ok (Group.instantiate g (split_masses P g specs) specs).
Proof.
  unfold Group.split, split_masses. destruct (g_pop g); [reflexivity|contradiction].
Qed.

Lemma split_masses_length P g specs :
  length (split_masses P g specs) = length specs.
Proof.
  unfold split_masses. destruct (fractional_mass (sim P)).
  - apply masses_length.
  - rewrite saferound_length. apply masses_length.
Qed.

(** On exact rationals.  For a group bound to a population and a non-empty
    list of split specs, [split] returns, and the masses of the groups it
    returns add up to the mass [m] of the group when fractional mass is
    allowed, and to [round(m)] when the masses are rounded; so to [m] in
    both cases when [m] is a whole number. *)
Theorem split_conserves_mass (P : population) (g : group)
        (specs : list GroupSplitSpec) :
  g_pop g <> None -> specs <> [] ->
  exists dst,
    Group.split P g specs = Ok dst /\
    Qc_sum (map g_m dst) =
      (if fractional_mass (sim P) then g_m g
       else Qc_of_Z (py_round (g_m g))) /\
    (forall z, g_m g = Qc_of_Z z -> Qc_sum (map g_m dst) = g_m g).
Proof.
  intros Hpop Hne. eexists. split; [apply split_ok; exact Hpop|].
  rewrite instantiate_sum by (symmetry; apply eq_sym, split_masses_length).
  assert (Hsum : Qc_sum (Group.masses (g_m g) specs 0 0) = g_m g).
  { rewrite masses_sum; [ring|exact Hne|ring]. }
  unfold split_masses. destruct (fractional_mass (sim P)).
  - split; [exact Hsum|intros; exact Hsum].
  - rewrite saferound_total, Hsum. split; [reflexivity|].
    intros z Hz. rewrite Hz. now rewrite py_round_of_Z.
Qed.

(** The scenario of the spec: 200 agents, 14.16% of them lose their
    income attribute, the others go to work. *)
Lemma split_conserves_mass_witness :
  let P := GroupPopulation.init (mkPragmas false false) in
  let g := mkGroup (Some "g.1"%string) (Qc_of_Z 200)
                   [("sex"%string, VStr "f"); ("income"%string, VStr "l")]
                   [("location"%string, VStr "home")] (Some ThePop) None in
  let specs := [mkSpec (Q2Qc (1416 # 10000)) [] ["income"%string] [] [];
                mkSpec 0 [] [] [("location"%string, VStr "work")] []] in
  exists dst,
    Group.split P g specs = Ok dst /\
    Qc_sum (map g_m dst) =
      (if fractional_mass (sim P) then g_m g
       else Qc_of_Z (py_round (g_m g))) /\
    (forall z, g_m g = Qc_of_Z z -> Qc_sum (map g_m dst) = g_m g).
Proof.
  intros P g specs. apply (split_conserves_mass P g specs); discriminate.
Defined.

(** The masses of that scenario: 28 and 172. *)
Example split_scenario_masses :
  let P := GroupPopulation.init (mkPragmas false false) in
  let g := mkGroup (Some "g.1"%string) (Qc_of_Z 200)
                   [("sex"%string, VStr "f"); ("income"%string, VStr "l")]
                   [("location"%string, VStr "home")] (Some ThePop) None in
  let specs := [mkSpec (Q2Qc (1416 # 10000)) [] ["income"%string] [] [];
                mkSpec 0 [] [] [("location"%string, VStr "work")] []] in
  match Group.split P g specs with
  | Ok dst =>
      map (fun d => (Qc_floor (g_m d), g_attr d, g_rel d)) dst =
        [(28%Z, [("sex"%string, VStr "f")], [("location"%string, VStr "home")]);
         (172%Z, [("sex"%string, VStr "f"); ("income"%string, VStr "l")],
          [("location"%string, VStr "work")])]
  | Raise _ => False
  end.
Proof. vm_compute. reflexivity. Qed.

(** When masses are rounded and the mass of the group is not a whole
    number, the rounding changes the total: a group of mass 5/4 with one
    split spec is split into one group of mass 1. *)
Lemma split_rounded_loses_fraction :
  ~ (forall (P : population) (g : group) (specs : list GroupSplitSpec)
            (dst : list group),
       g_pop g <> None -> specs <> [] ->
       Group.split P g specs = Ok dst ->
       Qc_sum (map g_m dst) = g_m g).
Proof.
  intros H.
  specialize (H (GroupPopulation.init (mkPragmas false false))
                (mkGroup None (Q2Qc (5 # 4)) [] [] (Some ThePop) None)
                [mkSpec 0 [] [] [] []]
                [Group.init None (Qc_of_Z 1) [] []]).
  assert (E : Qc_sum (map g_m [Group.init None (Qc_of_Z 1) [] []])
              = Q2Qc (5 # 4)).
  { apply H; try discriminate. vm_compute. reflexivity. }
  apply (f_equal (fun q : Qc => Qden q)) in E. vm_compute in E. discriminate.
Qed.

End Splitting.

Section SplittingOrder.
Local Open Scope Qc_scope.

Lemma masses_last_irrelevant m s s' : forall prior p_sum m_sum,
  Group.masses m (prior ++ [s]) p_sum m_sum =
  Group.masses m (prior ++ [s']) p_sum m_sum.
Proof.
  induction prior as [|a prior IH]; intros p_sum m_sum.
  - simpl. destruct (Qc_eq_bool _ _); reflexivity.
  - change ((a :: prior) ++ [s]) with (a :: (prior ++ [s])).
    change ((a :: prior) ++ [s']) with (a :: (prior ++ [s'])).
    assert (Hs : exists b l, prior ++ [s] = b :: l /\ exists b' l', prior ++ [s'] = b' :: l' /\ length l = length l').
    { destruct prior as [|b l]; simpl; eauto 8.
      do 2 eexists. split; [reflexivity|]. do 2 eexists. split; [reflexivity|].
      rewrite !length_app. reflexivity. }
    destruct Hs as (b & l & E & b' & l' & E' & Hlen).
    specialize (IH (p_sum + p a) (m_sum + m * p a)).
    rewrite E, E' in *.
    cbn [Group.masses]. cbn [Group.masses] in IH.
    f_equal. destruct (Qc_eq_bool (p_sum + p a) 1); [|exact IH].
    cbn [map]. f_equal. clear -Hlen. revert l' Hlen.
    induction l as [|x l IHl]; intros [|x' l'] H; try discriminate; [reflexivity|].
    simpl. f_equal. apply IHl. now injection H.
Qed.

Lemma instantiate_last_p g s x : forall prior m_lst,
  Group.instantiate g m_lst (prior ++ [with_p s x]) =
  Group.instantiate g m_lst (prior ++ [s]).
Proof.
  induction prior as [|a prior IH]; intros [|m m_lst]; try reflexivity.
  change ((a :: prior) ++ [with_p s x]) with (a :: (prior ++ [with_p s x])).
  change ((a :: prior) ++ [s]) with (a :: (prior ++ [s])).
  cbn [Group.instantiate]. now rewrite IH.
Qed.

Lemma split_last_p_ignored P g prior s x :
  Group.split P g (prior ++ [with_p s x]) = Group.split P g (prior ++ [s]).
Proof.
  unfold Group.split. destruct (g_pop g); [|reflexivity].
  rewrite (masses_last_irrelevant _ (with_p s x) s).
  now rewrite instantiate_last_p.
Qed.

Lemma masses_last_complement m specs :
  specs <> [] ->
  last (Group.masses m specs 0 0) 0 =
  m - Qc_sum (removelast (Group.masses m specs 0 0)).
Proof.
  intros Hne.
  assert (Hl : Group.masses m specs 0 0 <> []).
  { intros E. apply (f_equal (@length Qc)) in E.
    rewrite masses_length in E. destruct specs; [contradiction|discriminate]. }
  pose proof (masses_sum m specs 0 0 Hne ltac:(ring)) as Hsum.
  set (l := Group.masses m specs 0 0) in *.
  pose proof (f_equal Qc_sum (app_removelast_last 0 Hl)) as E.
  rewrite Qc_sum_app in E. cbn [Qc_sum fold_right] in E.
  transitivity (Qc_sum l - Qc_sum (removelast l)).
  - rewrite E. ring.
  - rewrite Hsum. ring.
Qed.

(** Without an early stop every spec but the last gets its share and the
    last one the complement. *)
Lemma masses_no_stop m s : forall prior p_sum m_sum,
  m_sum = m * p_sum ->
  (forall n, (0 < n <= length prior)%nat ->
             p_sum + Qc_sum (map p (firstn n prior)) <> 1) ->
  Group.masses m (prior ++ [s]) p_sum m_sum =
  map (fun a => m * p a) prior
      ++ [m * (1 - (p_sum + Qc_sum (map p prior)))].
Proof.
  induction prior as [|a prior IH]; intros p_sum m_sum Hinv Hno.
  - simpl. subst m_sum. destruct (Qc_eq_bool _ _); simpl; f_equal; ring.
  - change ((a :: prior) ++ [s]) with (a :: (prior ++ [s])).
    assert (Hs : exists b l, prior ++ [s] = b :: l)
      by (destruct prior; simpl; eauto).
    destruct Hs as (b & l & E).
    specialize (IH (p_sum + p a) (m_sum + m * p a)).
    rewrite E in *. cbn [Group.masses]. cbn [Group.masses] in IH.
    assert (Hne : Qc_eq_bool (p_sum + p a) 1 = false).
    { destruct (Qc_eq_bool (p_sum + p a) 1) eqn:Eb; [|reflexivity].
      apply Qc_eq_bool_correct in Eb. exfalso.
      apply (Hno 1%nat); [simpl; lia|]. simpl. rewrite <- Eb. ring. }
    rewrite Hne. cbn [map app]. f_equal. rewrite IH.
    + f_equal. f_equal. simpl. ring.
    + subst m_sum. ring.
    + intros n Hn. specialize (Hno (S n)). simpl in Hno.
      intros Hc. apply Hno; [lia|]. rewrite <- Hc. ring.
Qed.

(** Once the running sum of the probabilities is 1 the specs that follow
    keep their initial mass of 0. *)
Lemma masses_stop m s post : forall pre p_sum m_sum,
  post <> [] ->
  p_sum + Qc_sum (map p (pre ++ [s])) = 1 ->
  skipn (S (length pre)) (Group.masses m (pre ++ s :: post) p_sum m_sum) =
  map (fun _ => 0) post.
Proof.
  induction pre as [|a pre IH]; intros p_sum m_sum Hpost Hone.
  - destruct post as [|b post]; [contradiction|].
    simpl in Hone. cbn [app Group.masses length skipn].
    replace (p_sum + p s) with 1 by (rewrite <- Hone; ring).
    rewrite Qc_eq_bool_refl. reflexivity.
  - change ((a :: pre) ++ s :: post) with (a :: (pre ++ s :: post)).
    assert (Hs : exists b l, pre ++ s :: post = b :: l)
      by (destruct pre; simpl; eauto).
    destruct Hs as (b & l & E).
    specialize (IH (p_sum + p a) (m_sum + m * p a) Hpost).
    rewrite E in *. cbn [Group.masses length]. cbn [Group.masses] in IH.
    change (skipn (S (S (length pre))) (?x :: ?l')) with (skipn (S (length pre)) l').
    destruct (Qc_eq_bool (p_sum + p a) 1).
    + rewrite <- E, skipn_map.
      replace (S (length pre)) with (length (pre ++ [s])) by (rewrite length_app; simpl; lia).
      replace (pre ++ s :: post) with ((pre ++ [s]) ++ post) by (rewrite <- app_assoc; reflexivity).
      rewrite skipn_app, skipn_all, Nat.sub_diag. reflexivity.
    + apply IH. rewrite <- Hone. simpl. ring.
Qed.

(** On exact rationals, in a non-empty list of split specs given to [split]: the
    probability supplied with the last spec is ignored; the mass of the last spec is the mass of the group minus the
    masses of the specs before it, and, when the running sum of the
    probabilities never is 1 before the last spec, every spec before the
    last has the mass of the group times its probability and the last one
    the mass of the group times the complement of their sum; as soon as
    the running sum of the probabilities is 1 the specs that follow are
    not processed, their mass is 0; and the groups returned (the group
    being bound to a population, from which [split] reads its pragma) are
    those of the specs whose mass is not zero, in order. *)
Theorem split_last_complement_and_early_stop
        (P : population) (g : group) (prior : list GroupSplitSpec)
        (s : GroupSplitSpec) :
  (forall x, Group.split P g (prior ++ [with_p s x]) =
             Group.split P g (prior ++ [s])) /\
  last (Group.masses (g_m g) (prior ++ [s]) 0 0) 0 =
    g_m g - Qc_sum (removelast (Group.masses (g_m g) (prior ++ [s]) 0 0)) /\
  ((forall n, (0 < n <= length prior)%nat ->
              Qc_sum (map p (firstn n prior)) <> 1) ->
   Group.masses (g_m g) (prior ++ [s]) 0 0 =
     map (fun a => g_m g * p a) prior
         ++ [g_m g * (1 - Qc_sum (map p prior))]) /\
  (forall pre a post,
     prior ++ [s] = pre ++ a :: post -> post <> [] ->
     Qc_sum (map p (pre ++ [a])) = 1 ->
     skipn (S (length pre)) (Group.masses (g_m g) (prior ++ [s]) 0 0) =
       map (fun _ => 0) post) /\
  (g_pop g <> None ->
   exists dst, Group.split P g (prior ++ [s]) = Ok dst /\
               dst = emitted g (split_masses P g (prior ++ [s])) (prior ++ [s]) /\
               forall g', In g' dst -> g_m g' <> 0).
Proof.
  repeat split.
  - intros x. apply split_last_p_ignored.
  - apply masses_last_complement. now destruct prior.
  - intros Hno. rewrite (masses_no_stop _ _ prior 0 0).
    + do 3 f_equal. ring.
    + ring.
    + intros n Hn. rewrite Qcplus_0_l. now apply Hno.
  - intros pre a post E Hpost Hone. rewrite E.
    apply masses_stop; [exact Hpost|]. now rewrite Qcplus_0_l.
  - intros Hpop. eexists. split; [apply split_ok; exact Hpop|].
    split; [apply instantiate_emitted|].
    intros g'. apply instantiate_nonzero.
Qed.

(** Three specs of probabilities 1/2, 1/2 and 1/4: the running sum is 1
    after the second. *)
Lemma split_last_complement_and_early_stop_witness :
  let P := GroupPopulation.init (mkPragmas true false) in
  let g := mkGroup None (Qc_of_Z 10) [] [] (Some ThePop) None in
  let a := mkSpec half [("x"%string, VInt 1)] [] [] [] in
  let b := mkSpec half [("x"%string, VInt 2)] [] [] [] in
  let c := mkSpec (Q2Qc (1 # 4)) [("x"%string, VInt 3)] [] [] [] in
  (forall x, Group.split P g ([a; b] ++ [with_p c x]) =
             Group.split P g ([a; b] ++ [c])) /\
  skipn 2 (Group.masses (g_m g) ([a; b] ++ [c]) 0 0) = [0] /\
  (exists dst, Group.split P g ([a; b] ++ [c]) = Ok dst /\
               forall g', In g' dst -> g_m g' <> 0).
Proof.
  intros P g a b c.
  destruct (split_last_complement_and_early_stop P g [a; b] c)
    as (Hlast & _ & _ & Hstop & Hnonzero).
  split; [exact Hlast|]. split.
  2:{ destruct Hnonzero as (dst & E & _ & Hnz); [discriminate|].
      exists dst. now split. }
  apply (Hstop [a] b [c]); [reflexivity|discriminate|].
  apply Qc_is_canon. reflexivity.
Defined.

End SplittingOrder.

(** ** Post-iteration cleanup *)

Section PostIteration.
Local Open Scope Qc_scope.
Import GroupPopulation.

Lemma reg_get_in {A} (d : list (Z * A)) k v :
  Reg.get d k = Some v -> In (k, v) d.
Proof.
  induction d as [|[k' v'] d IH]; simpl; [discriminate|].
  destruct (k' =? k)%Z eqn:E.
  - apply Z.eqb_eq in E. intros [= ->]. left. now subst.
  - auto.
Qed.

Lemma reg_get_none {A} (d : list (Z * A)) k :
  ~ In k (Reg.keys d) -> Reg.get d k = None.
Proof.
  unfold Reg.keys. induction d as [|[k' v'] d IH]; simpl; [reflexivity|].
  intros H. destruct (k' =? k)%Z eqn:E.
  - apply Z.eqb_eq in E. tauto.
  - apply IH. tauto.
Qed.

Lemma reg_get_set {A} (d : list (Z * A)) k k' v :
  Reg.get (Reg.set d k v) k' =
  if (k =? k')%Z then Some v else Reg.get d k'.
Proof.
  destruct (k =? k')%Z eqn:E.
  - apply Z.eqb_eq in E. subst. apply reg_get_set_eq.
  - apply reg_get_set_ne. now apply Z.eqb_neq.
Qed.

(** Replacing the group under a registered key, seen through a map. *)
Lemma map_reg_set {B} (F F' : Z * group -> B) k x g0 : forall gs,
  NoDup (Reg.keys gs) ->
  Reg.get gs k = Some g0 ->
  (forall kv, In kv gs -> fst kv <> k -> F kv = F' kv) ->
  F (k, x) = F' (k, g0) ->
  map F (Reg.set gs k x) = map F' gs.
Proof.
  unfold Reg.keys.
  induction gs as [|[k0 g] gs IH]; simpl; intros Hnd Hget Hother Hk;
    [discriminate|].
  inversion Hnd as [|? ? Hnotin Hnd']; subst.
  destruct (k0 =? k)%Z eqn:E.
  - apply Z.eqb_eq in E. subst k0. injection Hget as ->. simpl.
    rewrite Hk. f_equal. apply map_ext_in. intros kv Hin.
    apply Hother; [now right|]. intros Heq. apply Hnotin.
    rewrite <- Heq. now apply in_map.
  - simpl. f_equal.
    + apply Hother; [now left|]. simpl. now apply Z.eqb_neq.
    + apply IH; auto.
Qed.

(** Loop (1): what [debit_void] does to the totals. *)
Lemma debit_void_fold (l : list group) : forall P,
  let P' := fold_left
              (fun P v =>
                 if Group.is_void v
                 then set_masses P (pop_m P - g_m v) (m_in P) (m_out P + g_m v)
                 else P) l P in
  pop_m P' = pop_m P - Qc_sum (map g_m (filter Group.is_void l)) /\
  m_out P' = m_out P + Qc_sum (map g_m (filter Group.is_void l)) /\
  m_in P' = m_in P /\ groups P' = groups P /\ sites P' = sites P /\
  vita_groups P' = vita_groups P /\ sim P' = sim P /\
  is_frozen P' = is_frozen P.
Proof.
  induction l as [|v l IH]; intros P; simpl.
  - repeat split; ring.
  - destruct (IH (if Group.is_void v
                  then set_masses P (pop_m P - g_m v) (m_in P) (m_out P + g_m v)
                  else P))
      as (H1 & H2 & H3 & H4 & H5 & H6 & H7 & H8).
    rewrite H1, H2, H3, H4, H5, H6, H7, H8.
    destruct (Group.is_void v); simpl; repeat split; ring.
Qed.

Lemma vita_mass_cons k v vs k' :
  vita_mass ((k, v) :: vs) k' = if (k =? k')%Z then g_m v else vita_mass vs k'.
Proof. unfold vita_mass. simpl. destruct (k =? k')%Z; reflexivity. Qed.

(** Loop (2), when every VITA group has its registered group. *)
Lemma fold_vita_matched : forall vs P,
  NoDup (Reg.keys (groups P)) ->
  NoDup (Reg.keys vs) ->
  (forall k v, In (k, v) vs -> Reg.get (groups P) k <> None) ->
  exists P',
    fold_vita vs P = (P', Ok tt) /\
    groups P' = map (fold_in vs) (groups P) /\
    pop_m P' = pop_m P + Qc_sum (map g_m (Reg.values vs)) /\
    m_in P' = m_in P + Qc_sum (map g_m (Reg.values vs)) /\
    m_out P' = m_out P /\ sites P' = sites P /\
    vita_groups P' = vita_groups P /\ sim P' = sim P /\
    is_frozen P' = is_frozen P.
Proof.
  induction vs as [|[k v] vs IH]; intros P Hg Hv Hm.
  - exists P. simpl. repeat split; try ring.
    symmetry. erewrite map_ext; [apply map_id|].
    intros [k g]. unfold fold_in, vita_mass, Group.set_m. simpl.
    destruct g; simpl. do 2 f_equal. ring.
  - cbn [fold_vita]. cbn [groups set_masses].
    destruct (Reg.get (groups P) k) as [g0|] eqn:Eg;
      [|exfalso; apply (Hm k v); [now left|exact Eg]].
    unfold Reg.keys in Hv. simpl in Hv.
    inversion Hv as [|? ? Hnotin Hv']; subst.
    set (P2 := set_groups
                 (set_masses P (pop_m P + g_m v) (m_in P + g_m v) (m_out P))
                 (Reg.set (groups P) k (Group.set_m g0 (g_m g0 + g_m v)))).
    destruct (IH P2) as (P' & E & G & M & MI & MO & S & V & SM & F).
    + unfold P2. simpl. erewrite reg_keys_set_mem; eauto.
    + exact Hv'.
    + intros k' v' Hin. unfold P2. simpl. rewrite reg_get_set.
      destruct (k =? k')%Z; [discriminate|]. apply (Hm k' v'). now right.
    + exists P'. split; [exact E|]. rewrite G, M, MI, MO, S, V, SM, F.
      unfold P2. simpl. repeat split; try ring.
      apply (map_reg_set _ _ k _ g0); auto.
      * intros [k' g'] Hin Hne. unfold fold_in. simpl in *.
        rewrite vita_mass_cons.
        destruct (k =? k')%Z eqn:E'; [|reflexivity].
        apply Z.eqb_eq in E'. congruence.
      * unfold fold_in. simpl. rewrite vita_mass_cons, Z.eqb_refl.
        unfold vita_mass. rewrite (reg_get_none vs k Hnotin).
        unfold Group.set_m. simpl. do 2 f_equal. ring.
Qed.

Lemma filter_keys_NoDup (f : Z * group -> bool) gs :
  NoDup (Reg.keys gs) -> NoDup (Reg.keys (filter f gs)).
Proof.
  unfold Reg.keys. induction gs as [|kv gs IH]; simpl; intros H; [constructor|].
  inversion H as [|? ? Hnotin H']; subst.
  destruct (f kv); simpl; auto.
  constructor; auto. intros Hin. apply Hnotin.
  apply in_map_iff in Hin as (kv' & E & Hin). apply filter_In in Hin as [Hin _].
  rewrite <- E. now apply in_map.
Qed.

Lemma reg_get_filter (f : Z * group -> bool) gs k g :
  NoDup (Reg.keys gs) ->
  Reg.get gs k = Some g -> f (k, g) = true ->
  Reg.get (filter f gs) k = Some g.
Proof.
  unfold Reg.keys. induction gs as [|[k0 g0] gs IH]; simpl; intros Hnd Hget Hf;
    [discriminate|].
  inversion Hnd as [|? ? Hnotin Hnd']; subst.
  destruct (k0 =? k)%Z eqn:E.
  - apply Z.eqb_eq in E. subst k0. injection Hget as ->.
    rewrite Hf. simpl. now rewrite Z.eqb_refl.
  - destruct (f (k0, g0)); simpl; [rewrite E|]; auto.
Qed.




End PostIteration.

(** ** Combining rules *)

Section DictContent.

Lemma dict_get_app d1 d2 k :
  Dict.get (d1 ++ d2) k =
  match Dict.get d1 k with Some v => Some v | None => Dict.get d2 k end.
Proof.
  induction d1 as [|[k' v'] d1 IH]; simpl; [reflexivity|].
  destruct (String.eqb k' k); auto.
Qed.

Lemma dict_get_in d k v : Dict.get d k = Some v -> In (k, v) d.
Proof.
  induction d as [|[k' v'] d IH]; simpl; [discriminate|].
  destruct (String.eqb k' k) eqn:E; [|auto].
  apply String.eqb_eq in E. intros [= ->]. left. now subst.
Qed.

Lemma dict_in_get d k v :
  NoDup (Dict.keys d) -> In (k, v) d -> Dict.get d k = Some v.
Proof.
  unfold Dict.keys. induction d as [|[k' v'] d IH]; simpl; intros Hnd Hin;
    [contradiction|].
  inversion Hnd as [|? ? Hnotin Hnd']; subst.
  destruct Hin as [[= -> ->]|Hin].
  - now rewrite String.eqb_refl.
  - destruct (String.eqb k' k) eqn:E; [|auto].
    apply String.eqb_eq in E. subst k'. exfalso. apply Hnotin.
    change k with (fst (k, v)). now apply in_map.
Qed.

Lemma dict_get_set d k v k' :
  Dict.get (Dict.set d k v) k' =
  if String.eqb k k' then Some v else Dict.get d k'.
Proof.
  destruct (String.eqb k k') eqn:E.
  - apply String.eqb_eq in E. subst. apply dict_get_set_eq.
  - apply dict_get_set_ne. now apply String.eqb_neq.
Qed.

Lemma dict_get_update u : forall d k,
  Dict.get (Dict.update d u) k =
  match Dict.get (rev u) k with Some v => Some v | None => Dict.get d k end.
Proof.
  unfold Dict.update.
  induction u as [|[k0 v0] u IH]; intros d k; simpl; [reflexivity|].
  rewrite IH, dict_get_app, dict_get_set. simpl.
  destruct (Dict.get (rev u) k); [reflexivity|].
  destruct (String.eqb k0 k); reflexivity.
Qed.

Lemma dict_keys_set d k v :
  NoDup (Dict.keys d) -> NoDup (Dict.keys (Dict.set d k v)).
Proof.
  unfold Dict.keys. induction d as [|[k' v'] d IH]; simpl; intros Hnd.
  - constructor; [tauto|constructor].
  - inversion Hnd as [|? ? Hnotin Hnd']; subst.
    destruct (String.eqb k' k) eqn:E; simpl.
    + constructor; assumption.
    + constructor; [|auto]. intros Hin. apply Hnotin.
      clear -Hin E. induction d as [|[k1 v1] d IH]; simpl in *.
      * destruct Hin as [->|[]]. rewrite String.eqb_refl in E. discriminate.
      * destruct (String.eqb k1 k); simpl in *; tauto.
Qed.

Lemma dict_keys_update u : forall d,
  NoDup (Dict.keys d) -> NoDup (Dict.keys (Dict.update d u)).
Proof.
  unfold Dict.update. induction u as [|[k v] u IH]; intros d Hnd; simpl; auto.
  apply IH. now apply dict_keys_set.
Qed.

Lemma dict_get_rev d k :
  NoDup (Dict.keys d) -> Dict.get (rev d) k = Dict.get d k.
Proof.
  intros Hnd.
  assert (Hrev : NoDup (Dict.keys (rev d))).
  { unfold Dict.keys. rewrite map_rev. now apply NoDup_rev. }
  destruct (Dict.get d k) as [v|] eqn:E.
  - apply dict_in_get; [exact Hrev|]. apply in_rev. rewrite rev_involutive.
    now apply dict_get_in.
  - destruct (Dict.get (rev d) k) as [v|] eqn:E'; [|reflexivity].
    apply dict_get_in, in_rev in E'. rewrite (dict_in_get _ _ _ Hnd E') in E.
    discriminate.
Qed.

Lemma dict_get_del d k0 k :
  Dict.get (Dict.del d k0) k =
  if String.eqb k0 k then None else Dict.get d k.
Proof.
  unfold Dict.del. induction d as [|[k' v'] d IH]; simpl.
  - destruct (String.eqb k0 k); reflexivity.
  - destruct (String.eqb k' k0) eqn:E1; simpl.
    + apply String.eqb_eq in E1. subst k'. rewrite IH.
      destruct (String.eqb k0 k); reflexivity.
    + destruct (String.eqb k' k) eqn:E2; [|exact IH].
      apply String.eqb_eq in E2. subst k'.
      rewrite String.eqb_sym in E1. now rewrite E1.
Qed.

Lemma dict_get_dels ks : forall d k,
  Dict.get (fold_left Dict.del ks d) k =
  if existsb (fun k0 => String.eqb k0 k) ks then None else Dict.get d k.
Proof.
  induction ks as [|k0 ks IH]; intros d k; simpl; [reflexivity|].
  rewrite IH, dict_get_del.
  destruct (String.eqb k0 k); simpl; [|reflexivity].
  destruct (existsb _ ks); reflexivity.
Qed.

Lemma gen_dict_eq d u ks :
  Group.gen_dict d u ks = fold_left Dict.del ks (Dict.update d u).
Proof. destruct u, ks; reflexivity. Qed.

(** The set-maps of two specs, merged in either order, give the same
    content when they do not disagree on a key. *)
Lemma merged_updates_same d sa sb da db :
  compatible sa sb ->
  Dict.same_content
    (Group.gen_dict d (Dict.update (Dict.update [] sa) sb) ([] ++ da ++ db))
    (Group.gen_dict d (Dict.update (Dict.update [] sb) sa) ([] ++ db ++ da)).
Proof.
  intros Hc k. rewrite !gen_dict_eq, !dict_get_dels. simpl.
  rewrite !existsb_app, orb_comm.
  destruct (existsb _ db || existsb _ da); [reflexivity|].
  rewrite (dict_get_update _ d), (dict_get_update _ d).
  rewrite !dict_get_rev
    by (apply dict_keys_update, dict_keys_update; constructor).
  rewrite !dict_get_update. simpl.
  destruct (Dict.get (rev sa) k) as [va|] eqn:Ea;
    destruct (Dict.get (rev sb) k) as [vb|] eqn:Eb; try reflexivity.
  apply dict_get_in, in_rev in Ea. apply dict_get_in, in_rev in Eb.
  rewrite ?rev_involutive in *. now rewrite (Hc k va vb Ea Eb).
Qed.

Lemma compatible_sym d1 d2 : compatible d1 d2 -> compatible d2 d1.
Proof. intros H k v1 v2 H1 H2. symmetry. eapply H; eauto. Qed.

End DictContent.

Section Sums.
Local Open Scope Qc_scope.

Lemma Qc_mult_this a b : (this (a * b) == this a * this b)%Q.
Proof. change (Qred (this a * this b) == this a * this b)%Q. apply Qred_correct. Qed.

Lemma Qc_opp_this a : (this (- a) == - this a)%Q.
Proof. change (Qred (- this a) == - this a)%Q. apply Qred_correct. Qed.

(** Linear arithmetic on [Qc], through [Q]. *)
Ltac qc_lra :=
  unfold Qcle, Qclt in *;
  repeat match goal with
         | H : context [this (_ + _)] |- _ => rewrite Qc_plus_this in H
         | H : context [this (_ - _)] |- _ => rewrite Qc_minus_this in H
         | H : context [this (- _)] |- _ => rewrite Qc_opp_this in H
         | |- context [this (_ + _)] => rewrite Qc_plus_this
         | |- context [this (_ - _)] => rewrite Qc_minus_this
         | |- context [this (- _)] => rewrite Qc_opp_this
         end;
  change (this 0) with 0%Q in *; change (this 1) with 1%Q in *;
  lra.

Lemma Qc_sum_nonneg l : (forall x, In x l -> 0 <= x) -> 0 <= Qc_sum l.
Proof.
  induction l as [|x l IH]; simpl; intros H.
  - apply Qcle_refl.
  - assert (Hx : 0 <= x) by (apply H; now left).
    assert (Hl : 0 <= Qc_sum l) by (apply IH; intros; apply H; now right).
    qc_lra.
Qed.

Lemma Qc_sum_zero_all l :
  (forall x, In x l -> 0 <= x) -> Qc_sum l <= 0 -> forall x, In x l -> x = 0.
Proof.
  induction l as [|x l IH]; simpl; intros H Hs y Hin; [contradiction|].
  assert (Hx : 0 <= x) by (apply H; now left).
  assert (Hl : 0 <= Qc_sum l) by (apply Qc_sum_nonneg; intros; apply H; now right).
  destruct Hin as [<-|Hin].
  - apply Qcle_antisym; qc_lra.
  - apply IH; auto. qc_lra.
Qed.

Lemma Qc_sum_perm l1 l2 : Permutation l1 l2 -> Qc_sum l1 = Qc_sum l2.
Proof.
  induction 1 as [|x l l' _ IH|x y l|l l' l'' _ IH1 _ IH2]; simpl.
  - reflexivity.
  - now rewrite IH.
  - ring.
  - now rewrite IH1.
Qed.

Lemma Qc_mult_nonneg a b : 0 <= a -> 0 <= b -> 0 <= a * b.
Proof.
  intros Ha Hb. rewrite <- (Qcmult_0_l b). now apply Qcmult_le_compat_r.
Qed.

Lemma Qc_mult_le_1 a b : 0 <= a -> a <= 1 -> 0 <= b -> b <= 1 -> a * b <= 1.
Proof.
  intros Ha Ha1 Hb Hb1. apply Qcle_trans with (1 * b).
  - now apply Qcmult_le_compat_r.
  - now rewrite Qcmult_1_l.
Qed.

Lemma masses_cons2 m a b l p_sum m_sum :
  Group.masses m (a :: b :: l) p_sum m_sum =
  m * p a ::
    (if Qc_eq_bool (p_sum + p a) 1
     then map (fun _ => 0) (b :: l)
     else Group.masses m (b :: l) (p_sum + p a) (m_sum + m * p a)).
Proof. reflexivity. Qed.

(** With probabilities that are not negative and whose sum before the
    last spec is at most 1, an early stop changes nothing: the specs it
    skips have probability 0. *)
Lemma masses_ideal m z : forall init p_sum m_sum,
  m_sum = m * p_sum ->
  (forall a, In a init -> 0 <= p a) ->
  p_sum + Qc_sum (map p init) <= 1 ->
  Group.masses m (init ++ [z]) p_sum m_sum =
  map (fun a => m * p a) init
      ++ [m * (1 - (p_sum + Qc_sum (map p init)))].
Proof.
  induction init as [|a init IH]; intros p_sum m_sum Hinv Hpos Hle.
  - simpl. subst m_sum. destruct (Qc_eq_bool _ _); simpl; f_equal; ring.
  - change ((a :: init) ++ [z]) with (a :: (init ++ [z])).
    destruct (init ++ [z]) as [|b l] eqn:E; [destruct init; discriminate|].
    rewrite masses_cons2, <- E. rewrite <- E in IH. cbn [map app]. f_equal.
    destruct (Qc_eq_bool (p_sum + p a) 1) eqn:Eb.
    + apply Qc_eq_bool_correct in Eb.
      assert (Hle' : Qc_sum (map p init) <= 0).
      { simpl in Hle. rewrite Qcplus_assoc, Eb in Hle. qc_lra. }
      assert (Hpos' : forall x, In x (map p init) -> 0 <= x).
      { intros x Hx. apply in_map_iff in Hx as (s & <- & Hs).
        apply Hpos. now right. }
      assert (Hsum : Qc_sum (map p init) = 0).
      { apply Qcle_antisym; [exact Hle'|now apply Qc_sum_nonneg]. }
      rewrite map_app. f_equal.
      * apply map_ext_in. intros s Hs.
        rewrite (Qc_sum_zero_all _ Hpos' Hle' (p s)) by (now apply in_map).
        ring.
      * simpl. f_equal. rewrite Hsum, Qcplus_assoc, Eb. ring.
    + rewrite (IH (p_sum + p a) (m_sum + m * p a)).
      * do 3 f_equal. simpl. ring.
      * subst m_sum. ring.
      * intros s Hs. apply Hpos. now right.
      * simpl in Hle. now rewrite <- Qcplus_assoc.
Qed.

End Sums.

Section Products.
Local Open Scope Qc_scope.

Lemma product_two (la lb : list GroupSplitSpec) :
  map Group.combine (Group.product [la; lb]) = map combine2 (list_prod la lb).
Proof.
  cbn [Group.product].
  assert (Hb : forall a,
             map Group.combine
                 (map (cons a) (flat_map (fun x => map (cons x) [[]]) lb))
             = map combine2 (map (fun y => (a, y)) lb)).
  { intros a. induction lb as [|b lb IH]; [reflexivity|].
    simpl. f_equal. exact IH. }
  induction la as [|a la IH]; [reflexivity|].
  cbn [flat_map list_prod]. rewrite !map_app. f_equal; [apply Hb|exact IH].
Qed.

Lemma list_prod_nil_r {A B} (l : list A) : list_prod l (@nil B) = [].
Proof. induction l; simpl; auto. Qed.

Lemma list_prod_cons_r {A B} (x : B) (l2 : list B) : forall l1 : list A,
  Permutation (map (fun y => (y, x)) l1 ++ list_prod l1 l2)
              (list_prod l1 (x :: l2)).
Proof.
  induction l1 as [|y l1 IH]; simpl; [constructor|].
  constructor.
  rewrite <- IH, !app_assoc.
  apply Permutation_app_tail, Permutation_app_comm.
Qed.

Lemma list_prod_swap {A B} (l1 : list A) (l2 : list B) :
  Permutation (map swap (list_prod l1 l2)) (list_prod l2 l1).
Proof.
  induction l1 as [|a l1 IH]; simpl.
  - rewrite list_prod_nil_r. constructor.
  - rewrite map_app, map_map. cbn [swap fst snd].
    rewrite <- list_prod_cons_r. now apply Permutation_app_head.
Qed.

Lemma list_prod_snoc {A B} (l1 : list A) (a : A) (l2 : list B) (b : B) :
  exists init, list_prod (l1 ++ [a]) (l2 ++ [b]) = init ++ [(a, b)].
Proof.
  induction l1 as [|x l1 [init IH]]; simpl.
  - exists (map (fun y => (a, y)) l2).
    rewrite app_nil_r, map_app. reflexivity.
  - rewrite IH. eexists. rewrite app_assoc. reflexivity.
Qed.

Lemma sum_list_prod (la lb : list GroupSplitSpec) :
  Qc_sum (map p (map combine2 (list_prod la lb))) =
  Qc_sum (map p la) * Qc_sum (map p lb).
Proof.
  assert (Hb : forall a,
             Qc_sum (map p (map combine2 (map (fun y => (a, y)) lb)))
             = p a * Qc_sum (map p lb)).
  { intros a. induction lb as [|b lb IH]; simpl; [ring|].
    simpl in IH. rewrite IH. ring. }
  induction la as [|a la IH]; simpl; [ring|].
  rewrite !map_app, Qc_sum_app, Hb, IH. ring.
Qed.

Lemma instantiate_app g : forall ms1 s1 ms2 s2,
  length ms1 = length s1 ->
  Group.instantiate g (ms1 ++ ms2) (s1 ++ s2) =
  Group.instantiate g ms1 s1 ++ Group.instantiate g ms2 s2.
Proof.
  induction ms1 as [|m ms1 IH]; intros [|s s1] ms2 s2 Hlen; try discriminate.
  - reflexivity.
  - simpl in Hlen. injection Hlen as Hlen. simpl.
    rewrite IH by exact Hlen. destruct (Qc_eq_bool m 0); reflexivity.
Qed.

Lemma instantiate_map_in g (f : GroupSplitSpec -> Qc) d : forall l,
  In d (Group.instantiate g (map f l) l) <->
  exists s, In s l /\ f s <> 0 /\ d = Group.new_group g (f s) s.
Proof.
  induction l as [|s l IH]; simpl.
  - split; [contradiction|intros (s & [] & _)].
  - destruct (Qc_eq_bool (f s) 0) eqn:E.
    + apply Qc_eq_bool_correct in E. rewrite IH. split.
      * intros (s' & Hin & H). exists s'. tauto.
      * intros (s' & [<-|Hin] & Hnz & Hd); [contradiction|eauto].
    + simpl. rewrite IH. split.
      * intros [<-|(s' & Hin & H)].
        -- exists s. repeat split; auto. intros Hz. rewrite Hz in E.
           rewrite Qc_eq_bool_refl in E. discriminate.
        -- exists s'. tauto.
      * intros (s' & [<-|Hin] & Hnz & Hd); [now left|right; eauto].
Qed.

(** The destinations for a list of specs whose probabilities are not
    negative and sum to at most 1 before the last one. *)
Lemma dests_ideal g m init z d :
  (forall a, In a init -> 0 <= p a) ->
  Qc_sum (map p init) <= 1 ->
  In d (Group.instantiate g (Group.masses m (init ++ [z]) 0 0) (init ++ [z]))
  <->
  (exists s, In s init /\ m * p s <> 0 /\ d = Group.new_group g (m * p s) s) \/
  (m * (1 - Qc_sum (map p init)) <> 0 /\
   d = Group.new_group g (m * (1 - Qc_sum (map p init))) z).
Proof.
  intros Hpos Hle.
  rewrite (masses_ideal m z init 0 0); [|ring|exact Hpos|now rewrite Qcplus_0_l].
  rewrite Qcplus_0_l, instantiate_app by apply length_map.
  rewrite in_app_iff, instantiate_map_in. simpl.
  destruct (Qc_eq_bool (m * (1 - Qc_sum (map p init))) 0) eqn:E.
  - apply Qc_eq_bool_correct in E. simpl. tauto.
  - simpl. split; intros [H|H]; auto.
    + right. destruct H as [<-|[]]. split; [|reflexivity].
      intros Hz. rewrite Hz, Qc_eq_bool_refl in E. discriminate.
    + right. left. symmetry. apply H.
Qed.

Lemma same_group_refl g : same_group g g.
Proof. repeat split. Qed.

Lemma same_dests_refl l : same_dests l l.
Proof. split; intros d Hd; exists d; split; auto using same_group_refl. Qed.

Lemma same_outcome_refl r : same_outcome r r.
Proof. destruct r as [[l|]|e]; simpl; auto using same_dests_refl. Qed.

Lemma new_group_combine2_swap g m a b :
  compatible (attr_set a) (attr_set b) ->
  compatible (rel_set a) (rel_set b) ->
  same_group (Group.new_group g m (combine2 (a, b)))
             (Group.new_group g m (combine2 (b, a))).
Proof.
  intros Ha Hr. repeat split; simpl.
  - apply (merged_updates_same (g_attr g) _ _ (attr_del a) (attr_del b) Ha).
  - apply (merged_updates_same (g_rel g) _ _ (rel_del a) (rel_del b) Hr).
Qed.

Lemma p_combine2 a b : p (combine2 (a, b)) = p a * p b.
Proof. simpl. ring. Qed.

Lemma p_combine2_swap ab : p (combine2 (swap ab)) = p (combine2 ab).
Proof. destruct ab as [a b]. unfold swap. simpl. ring. Qed.

End Products.

Section RuleOrder.
Local Open Scope Qc_scope.

Lemma init_bounds la lb i x :
  list_prod la lb = i ++ [x] ->
  (forall s, In s la -> 0 <= p s) ->
  (forall s, In s lb -> 0 <= p s) ->
  Qc_sum (map p la) <= 1 ->
  Qc_sum (map p lb) <= 1 ->
  (forall s, In s (map combine2 i) -> 0 <= p s) /\
  Qc_sum (map p (map combine2 i)) <= 1.
Proof.
  intros E Ha Hb Sa Sb.
  assert (Hall : forall ab, In ab (list_prod la lb) -> 0 <= p (combine2 ab)).
  { intros [a b] Hin. apply in_prod_iff in Hin as [Hia Hib].
    rewrite p_combine2. apply Qc_mult_nonneg; auto. }
  split.
  - intros s Hs. apply in_map_iff in Hs as (ab & <- & Hin).
    apply Hall. rewrite E. apply in_or_app. now left.
  - assert (Hx : 0 <= p (combine2 x)).
    { apply Hall. rewrite E. apply in_or_app. right. now left. }
    assert (Htot : Qc_sum (map p (map combine2 (i ++ [x]))) <= 1).
    { rewrite <- E, sum_list_prod.
      apply Qc_mult_le_1; auto; apply Qc_sum_nonneg; intros y Hy;
        apply in_map_iff in Hy as (s & <- & Hs); auto. }
    rewrite !map_app, Qc_sum_app in Htot. simpl in Htot.
    apply Qcle_trans with (Qc_sum (map p (map combine2 i)) + (p (combine2 x) + 0));
      [|exact Htot].
    rewrite Qcplus_0_r.
    rewrite <- (Qcplus_0_r (Qc_sum (map p (map combine2 i)))) at 1.
    apply Qcplus_le_compat; [apply Qcle_refl|exact Hx].
Qed.

Lemma same_group_sym g1 g2 : same_group g1 g2 -> same_group g2 g1.
Proof.
  intros (Ha & Hr & Hm). repeat split; auto; intros k; symmetry; auto.
Qed.

(** One half of the comparison: every destination of the product taken
    in the order [la], [lb] is a destination of the product taken in the
    order [lb], [la]. *)
Lemma product_dests_half g m la lb :
  la <> [] -> lb <> [] ->
  (forall s, In s la -> 0 <= p s) ->
  (forall s, In s lb -> 0 <= p s) ->
  Qc_sum (map p la) <= 1 ->
  Qc_sum (map p lb) <= 1 ->
  (forall sa sb, In sa la -> In sb lb ->
     compatible (attr_set sa) (attr_set sb) /\
     compatible (rel_set sa) (rel_set sb)) ->
  forall d,
    In d (Group.instantiate g
            (Group.masses m (map combine2 (list_prod la lb)) 0 0)
            (map combine2 (list_prod la lb))) ->
    exists d',
      In d' (Group.instantiate g
               (Group.masses m (map combine2 (list_prod lb la)) 0 0)
               (map combine2 (list_prod lb la))) /\
      same_group d d'.
Proof.
  intros Hla Hlb Ha Hb Sa Sb Hc d Hd.
  destruct (exists_last Hla) as (la' & an & Ea).
  destruct (exists_last Hlb) as (lb' & bk & Eb).
  destruct (list_prod_snoc la' an lb' bk) as [i1 E1].
  destruct (list_prod_snoc lb' bk la' an) as [i2 E2].
  rewrite <- Ea, <- Eb in E1, E2.
  assert (Hperm : Permutation (map swap i1) i2).
  { pose proof (list_prod_swap la lb) as Hp.
    rewrite E1, E2, map_app in Hp. simpl in Hp.
    now apply Permutation_app_inv_r in Hp. }
  destruct (init_bounds la lb i1 _ E1 Ha Hb Sa Sb) as [Hpos1 Hle1].
  destruct (init_bounds lb la i2 _ E2 Hb Ha Sb Sa) as [Hpos2 Hle2].
  assert (Hsum : Qc_sum (map p (map combine2 i2))
                 = Qc_sum (map p (map combine2 i1))).
  { rewrite <- (Qc_sum_perm _ _
                  (Permutation_map p (Permutation_map combine2 Hperm))).
    rewrite !map_map. f_equal. apply map_ext. intros ab.
    apply p_combine2_swap. }
  rewrite E1, map_app in Hd. simpl in Hd.
  apply (dests_ideal g m _ _ d Hpos1 Hle1) in Hd.
  rewrite E2, map_app. simpl.
  destruct Hd as [(s & Hs & Hnz & ->)|[Hnz ->]].
  - apply in_map_iff in Hs as (ab & <- & Hin).
    exists (Group.new_group g (m * p (combine2 (swap ab))) (combine2 (swap ab))).
    split.
    + apply (dests_ideal g m _ _ _ Hpos2 Hle2). left.
      exists (combine2 (swap ab)). repeat split.
      * apply in_map. apply (Permutation_in _ Hperm). now apply in_map.
      * now rewrite p_combine2_swap.
    + rewrite p_combine2_swap. destruct ab as [a b]. unfold swap. simpl fst. simpl snd.
      assert (Hab : In (a, b) (list_prod la lb))
        by (rewrite E1; apply in_or_app; now left).
      apply in_prod_iff in Hab as [Hia Hib].
      destruct (Hc a b Hia Hib) as [Hca Hcr].
      now apply new_group_combine2_swap.
  - exists (Group.new_group g (m * (1 - Qc_sum (map p (map combine2 i2))))
                            (combine2 (bk, an))).
    split.
    + apply (dests_ideal g m _ _ _ Hpos2 Hle2). right.
      split; [|reflexivity]. now rewrite Hsum.
    + rewrite Hsum.
      assert (Hia : In an la) by (rewrite Ea; apply in_or_app; right; now left).
      assert (Hib : In bk lb) by (rewrite Eb; apply in_or_app; right; now left).
      destruct (Hc an bk Hia Hib) as [Hca Hcr].
      now apply new_group_combine2_swap.
Qed.

Lemma ss_rules_two P g A B iter t :
  Group.drop_none
    (map (fun r => apply r P g iter t)
         (filter (fun r => is_applicable r g iter t) [A; B])) =
  Group.drop_none [rule_specs A P g iter t; rule_specs B P g iter t].
Proof.
  unfold rule_specs. simpl.
  destruct (is_applicable A g iter t), (is_applicable B g iter t);
    reflexivity.
Qed.

(** On exact rationals: when fractional mass is allowed, and the split specs
    that two rules [A] and [B] return for a group have probabilities that
    are not negative and add up to at most 1 for each rule, and never set
    one attribute or one relation to two different values, applying
    [[A; B]] and applying [[B; A]] to the group give the same outcome:
    the same exception, or no split, or the same set of destination
    groups, a destination being its attributes, its relations (as
    key-value maps) and its mass. *)
Theorem apply_rules_order_independent
        (P : population) (g : group) (A B : rule) (iter t : Z) :
  fractional_mass (sim P) = true ->
  (forall la lb,
     rule_specs A P g iter t = Some la ->
     rule_specs B P g iter t = Some lb ->
     (forall s, In s la \/ In s lb -> 0 <= p s) /\
     Qc_sum (map p la) <= 1 /\
     Qc_sum (map p lb) <= 1 /\
     (forall sa sb, In sa la -> In sb lb ->
        compatible (attr_set sa) (attr_set sb) /\
        compatible (rel_set sa) (rel_set sb))) ->
  same_outcome (Group.apply_rules P g [A; B] iter t Group.Iterate)
               (Group.apply_rules P g [B; A] iter t Group.Iterate).
Proof.
  intros Hfrac Hrules.
  unfold Group.apply_rules, Group.split_product. rewrite !ss_rules_two.
  destruct (rule_specs A P g iter t) as [la|] eqn:EA;
    destruct (rule_specs B P g iter t) as [lb|] eqn:EB;
    try apply same_outcome_refl.
  cbn [Group.drop_none]. rewrite !product_two.
  unfold Group.split. destruct (g_pop g); [|reflexivity].
  rewrite Hfrac. simpl.
  destruct (Hrules la lb eq_refl eq_refl) as (Hpos & Sa & Sb & Hc).
  destruct la as [|a la'].
  { simpl. rewrite list_prod_nil_r. apply same_dests_refl. }
  destruct lb as [|b lb'].
  { rewrite list_prod_nil_r. apply same_dests_refl. }
  split; intros d Hd.
  - apply (product_dests_half g (g_m g) (a :: la') (b :: lb')); auto;
      discriminate.
  - destruct (product_dests_half g (g_m g) (b :: lb') (a :: la')
                ltac:(discriminate) ltac:(discriminate)
                ltac:(auto) ltac:(auto) Sb Sa) with (d := d)
      as (d' & Hin & Hsame); auto.
    + intros sb sa Hb Ha. destruct (Hc sa sb Ha Hb).
      split; now apply compatible_sym.
    + exists d'. split; [exact Hin|now apply same_group_sym].
Qed.

(** A rule that sets [a] on 3/10 of the group and a rule that sets [b] on
    half of it. *)
Lemma apply_rules_order_independent_witness :
  let P := GroupPopulation.init (mkPragmas true false) in
  let g := mkGroup None (Qc_of_Z 10) [] [] (Some ThePop) None in
  let A := rule_share (Q2Qc (3 # 10)) "a" (VInt 1) in
  let B := rule_share half "b" (VInt 2) in
  same_outcome (Group.apply_rules P g [A; B] 0 0 Group.Iterate)
               (Group.apply_rules P g [B; A] 0 0 Group.Iterate).
Proof.
  intros P g A B. apply (apply_rules_order_independent P g A B 0%Z 0%Z).
  - reflexivity.
  - intros la lb Ea Eb. injection Ea as <-. injection Eb as <-.
    split; [|split; [|split]].
    + intros s [[<-|[<-|[]]]|[<-|[<-|[]]]]; vm_compute; discriminate.
    + vm_compute. discriminate.
    + vm_compute. discriminate.
    + intros sa sb [<-|[<-|[]]] [<-|[<-|[]]]; split;
        intros k v1 v2 H1 H2; simpl in *; intuition congruence.
Defined.

(** When the two rules set the same attribute to different values the
    rule applied last wins.  With [A] setting [x]
    to 1 and [B] setting [x] to 2 on a group of mass 10, [[A; B]] gives
    the group with [x = 2] and [[B; A]] the group with [x = 1]; their
    content hashes differ under both pickle protocols. *)
Lemma apply_rules_order_matters_on_conflict :
  let P := GroupPopulation.init (mkPragmas true false) in
  let g := mkGroup None (Qc_of_Z 10) [] [] (Some ThePop) None in
  let A := rule_set "x" (VInt 1) in
  let B := rule_set "x" (VInt 2) in
  let ab proto := dest_pairs proto (Group.apply_rules P g [A; B] 0 0 Group.Iterate) in
  let ba proto := dest_pairs proto (Group.apply_rules P g [B; A] 0 0 Group.Iterate) in
  ab Proto3 = [(11946223819171965713%Z, Qc_of_Z 10)] /\
  ba Proto3 = [(16216821378772476808%Z, Qc_of_Z 10)] /\
  ab Proto4 = [(354881387312390337%Z, Qc_of_Z 10)] /\
  ba Proto4 = [(4734908675888085017%Z, Qc_of_Z 10)] /\
  ~ (forall x, In x (ab Proto3) <-> In x (ba Proto3)) /\
  ~ (forall x, In x (ab Proto4) <-> In x (ba Proto4)).
Proof.
  intros P g A B ab ba.
  assert (H3 : ab Proto3 = [(11946223819171965713%Z, Qc_of_Z 10)])
    by (vm_compute; reflexivity).
  assert (H3' : ba Proto3 = [(16216821378772476808%Z, Qc_of_Z 10)])
    by (vm_compute; reflexivity).
  assert (H4 : ab Proto4 = [(354881387312390337%Z, Qc_of_Z 10)])
    by (vm_compute; reflexivity).
  assert (H4' : ba Proto4 = [(4734908675888085017%Z, Qc_of_Z 10)])
    by (vm_compute; reflexivity).
  repeat split; try assumption.
  - rewrite H3, H3'. intros H.
    destruct (proj1 (H _) (or_introl eq_refl)) as [E|[]]. discriminate.
  - rewrite H4, H4'. intros H.
    destruct (proj1 (H _) (or_introl eq_refl)) as [E|[]]. discriminate.
Qed.

End RuleOrder.

(** ** Splitting on binary64 *)

Section SplittingBinary64.
Local Open Scope float_scope.
Import Binary64.

Variable saferound : list float -> list float.

(** Two floats that [==] tells apart are different. *)
Lemma float_neq (x y : float) :
  (x =? y) = false -> (y =? y) = true -> x <> y.
Proof. intros H1 H2 E. rewrite E, H2 in H1. discriminate. Qed.

Lemma masses64_cons m a b l p_sum m_sum :
  masses m (a :: b :: l) p_sum m_sum =
  m * p a ::
    (if (p_sum + p a =? 1)
     then map (fun _ => 0) (b :: l)
     else masses m (b :: l) (p_sum + p a) (m_sum + m * p a)).
Proof. reflexivity. Qed.

Lemma masses64_last_irrelevant m s s' : forall prior p_sum m_sum,
  masses m (prior ++ [s]) p_sum m_sum =
  masses m (prior ++ [s']) p_sum m_sum.
Proof.
  induction prior as [|a prior IH]; intros p_sum m_sum.
  - simpl. destruct (_ =? _); reflexivity.
  - destruct prior as [|b prior].
    + reflexivity.
    + change ((a :: b :: prior) ++ [s]) with (a :: b :: (prior ++ [s])).
      change ((a :: b :: prior) ++ [s']) with (a :: b :: (prior ++ [s'])).
      rewrite !masses64_cons. f_equal.
      destruct (_ =? _).
      * cbn [map]. f_equal. rewrite !map_app. reflexivity.
      * apply (IH (p_sum + p a) (m_sum + m * p a)).
Qed.

Lemma instantiate64_last_p g s x : forall prior m_lst,
  instantiate g m_lst (prior ++ [with_p s x]) =
  instantiate g m_lst (prior ++ [s]).
Proof.
  induction prior as [|a prior IH]; intros [|m m_lst]; try reflexivity.
  change ((a :: prior) ++ [with_p s x]) with (a :: (prior ++ [with_p s x])).
  change ((a :: prior) ++ [s]) with (a :: (prior ++ [s])).
  cbn [instantiate]. now rewrite IH.
Qed.

Lemma split64_last_p_ignored P g prior s x :
  split saferound P g (prior ++ [with_p s x]) =
  split saferound P g (prior ++ [s]).
Proof.
  unfold split. destruct (g_pop g); [|reflexivity].
  rewrite (masses64_last_irrelevant _ (with_p s x) s).
  now rewrite instantiate64_last_p.
Qed.

(** Without a break every spec before the last gets the mass of the
    group times its probability and the last one what the running sum
    of these masses leaves. *)
Lemma masses64_no_break m s : forall prior p_sum m_sum,
  no_break p_sum prior ->
  masses m (prior ++ [s]) p_sum m_sum =
  map (fun a => m * p a) prior ++ [m - m_sum_after m m_sum prior].
Proof.
  induction prior as [|a prior IH]; intros p_sum m_sum Hno.
  - simpl. destruct (_ =? _); reflexivity.
  - assert (Hs : exists b l, prior ++ [s] = b :: l)
      by (destruct prior; simpl; eauto).
    destruct Hs as (b & l & E).
    change ((a :: prior) ++ [s]) with (a :: (prior ++ [s])).
    rewrite E, masses64_cons, <- E.
    assert (Hne : (p_sum + p a =? 1) = false).
    { apply (Hno 1%nat). simpl. lia. }
    rewrite Hne. cbn [map app]. f_equal.
    rewrite IH; [reflexivity|].
    intros n Hn. apply (Hno (S n)). simpl. lia.
Qed.

(** After the spec that makes the running sum of the probabilities 1.0
    the loop breaks: the specs that follow keep 0.0. *)
Lemma masses64_break m a post : forall pre p_sum m_sum,
  post <> [] ->
  no_break p_sum pre ->
  (p_sum_after p_sum (pre ++ [a]) =? 1) = true ->
  masses m (pre ++ a :: post) p_sum m_sum =
  map (fun x => m * p x) (pre ++ [a]) ++ map (fun _ => 0) post.
Proof.
  induction pre as [|x pre IH]; intros p_sum m_sum Hpost Hno Hone.
  - destruct post as [|b post]; [contradiction|].
    cbn [app]. rewrite masses64_cons. simpl in Hone. rewrite Hone.
    reflexivity.
  - assert (Hs : exists b l, pre ++ a :: post = b :: l)
      by (destruct pre; simpl; eauto).
    destruct Hs as (b & l & E).
    change ((x :: pre) ++ a :: post) with (x :: (pre ++ a :: post)).
    rewrite E, masses64_cons, <- E.
    assert (Hne : (p_sum + p x =? 1) = false).
    { apply (Hno 1%nat). simpl. lia. }
    rewrite Hne. cbn [map app]. f_equal.
    apply IH; [exact Hpost| |exact Hone].
    intros n Hn. apply (Hno (S n)). simpl. lia.
Qed.

Lemma instantiate64_fields g : forall m_lst specs,
  instantiate g m_lst specs =
  map (fun ms =>
         mkGroup (g_name g) (fst ms)
                 (Group.gen_dict (g_attr g) (attr_set (snd ms))
                                 (attr_del (snd ms)))
                 (Group.gen_dict (g_rel g) (rel_set (snd ms))
                                 (rel_del (snd ms)))
                 None None)
      (filter (fun ms => negb (fst ms =? 0)) (List.combine m_lst specs)).
Proof.
  induction m_lst as [|m m_lst IH]; intros [|s specs]; try reflexivity.
  simpl. rewrite IH. destruct (m =? 0); reflexivity.
Qed.

Lemma instantiate64_nonzero g : forall m_lst specs d,
  In d (instantiate g m_lst specs) -> (g_m d =? 0) = false.
Proof.
  induction m_lst as [|m m_lst IH]; intros [|s specs] d Hin;
    try contradiction.
  simpl in Hin. destruct (m =? 0) eqn:E.
  - eauto.
  - destruct Hin as [<-|Hin]; [exact E|eauto].
Qed.

(** C1.  [split] loses mass on binary64.  A group of mass 3 is split by
    three specs of probabilities 0.3, 0.7 and (for the last, which is
    ignored) 0.0, fractional mass being allowed.  The running sum of the
    probabilities is [0.3 + 0.7 == 1.0] after the second spec, so the
    loop breaks before the last spec is given the complement
    [self.m - m_sum]; the masses are 0.8999999999999999,
    2.0999999999999996 and 0.0, two groups are returned, and their
    masses add up to 2.9999999999999996, which is less than 3: the
    complement that was not handed out is 4.440892098500626e-16. *)
Theorem split_loses_mass_on_binary64 :
  let P := GroupPopulation.init (mkPragmas true false) in
  let g := mkGroup None 3 [] [] (Some ThePop) None in
  let specs := [mkSpec 0.3 [("x"%string, VInt 1)] [] [] [];
                mkSpec 0.7 [("x"%string, VInt 2)] [] [] [];
                mkSpec 0 [("x"%string, VInt 3)] [] [] []] in
  (0.3 + 0.7 =? 1) = true /\
  masses (g_m g) specs 0 0 = [0.8999999999999999; 2.0999999999999996; 0] /\
  split saferound P g specs =
    Ok [mkGroup None 0.8999999999999999 [("x"%string, VInt 1)] [] None None;
        mkGroup None 2.0999999999999996 [("x"%string, VInt 2)] [] None None] /\
  (exists dst,
     split saferound P g specs = Ok dst /\
     total dst = 2.9999999999999996 /\
     (total dst =? g_m g) = false /\
     (total dst <? g_m g) = true /\
     total dst <> g_m g /\
     g_m g - total dst = 4.440892098500626e-16).
Proof.
  intros P g specs.
  assert (E : split saferound P g specs =
              Ok [mkGroup None 0.8999999999999999 [("x"%string, VInt 1)] [] None None;
                  mkGroup None 2.0999999999999996 [("x"%string, VInt 2)] [] None None])
    by (vm_compute; reflexivity).
  split; [vm_compute; reflexivity|].
  split; [vm_compute; reflexivity|].
  split; [exact E|].
  eexists. split; [exact E|].
  split; [vm_compute; reflexivity|].
  split; [vm_compute; reflexivity|].
  split; [vm_compute; reflexivity|].
  split; [|vm_compute; reflexivity].
  apply float_neq; vm_compute; reflexivity.
Qed.

(** The mass of the last spec is not, for every list of specs, the mass
    of the group minus the running sum of the masses of the specs before
    it: for a group of mass 3 and the probabilities 0.3, 0.7 and a last
    spec, the last spec keeps 0.0 while 3 minus the running sum
    2.9999999999999996 is 4.440892098500626e-16. *)
Lemma split_last_not_complement_after_break :
  ~ (forall (m : float) (prior : list GroupSplitSpec) (s : GroupSplitSpec),
       last (masses m (prior ++ [s]) 0 0) 0 =
       m - m_sum_after m 0 prior).
Proof.
  intros H.
  specialize (H 3 [mkSpec 0.3 [] [] [] []; mkSpec 0.7 [] [] [] []]
                (mkSpec 0 [] [] [] [])).
  revert H. apply float_neq; vm_compute; reflexivity.
Qed.

(** What [split] does with a non-empty list of split specs, on every
    input:
    - the probability supplied with the last spec is ignored;
    - when the running sum [p_sum] of the probabilities is not 1.0 after
      any spec before the last, every spec before the last has the mass
      of the group times its probability, and the last one the mass of
      the group minus the running sum [m_sum] of those masses;
    - as soon as [p_sum] is 1.0 after a spec that is not the last, the
      specs that follow, the last one included, are not processed:
      their mass is the initial 0.0;
    - the groups returned (the group being bound to a population, from
      which [split] reads its pragma) are, in order, one per spec whose
      mass, rounded unless fractional mass is allowed, is not zero: it
      has the name of the group, that mass, the attributes and the
      relations of the group updated by the spec, no population and no
      hash yet. *)
Lemma split_last_complement_unless_break
        (P : population) (g : group) (prior : list GroupSplitSpec)
        (s : GroupSplitSpec) :
  (forall x, split saferound P g (prior ++ [with_p s x]) =
             split saferound P g (prior ++ [s])) /\
  (no_break 0 prior ->
   masses (g_m g) (prior ++ [s]) 0 0 =
     map (fun a => g_m g * p a) prior
         ++ [g_m g - m_sum_after (g_m g) 0 prior]) /\
  (forall pre a post,
     prior ++ [s] = pre ++ a :: post -> post <> [] ->
     no_break 0 pre ->
     (p_sum_after 0 (pre ++ [a]) =? 1) = true ->
     masses (g_m g) (prior ++ [s]) 0 0 =
       map (fun x => g_m g * p x) (pre ++ [a]) ++ map (fun _ => 0) post) /\
  (g_pop g <> None ->
   let m_lst :=
     if fractional_mass (sim P)
     then masses (g_m g) (prior ++ [s]) 0 0
     else saferound (masses (g_m g) (prior ++ [s]) 0 0) in
   exists dst,
     split saferound P g (prior ++ [s]) = Ok dst /\
     dst =
       map (fun ms =>
              mkGroup (g_name g) (fst ms)
                      (Group.gen_dict (g_attr g) (attr_set (snd ms))
                                      (attr_del (snd ms)))
                      (Group.gen_dict (g_rel g) (rel_set (snd ms))
                                      (rel_del (snd ms)))
                      None None)
           (filter (fun ms => negb (fst ms =? 0))
                   (List.combine m_lst (prior ++ [s]))) /\
     forall d, In d dst -> (g_m d =? 0) = false).
Proof.
  split; [|split; [|split]].
  - intros x. apply split64_last_p_ignored.
  - apply masses64_no_break.
  - intros pre a post E Hpost Hno Hone. rewrite E.
    now apply masses64_break.
  - intros Hpop m_lst. unfold split.
    destruct (g_pop g); [|contradiction].
    eexists. split; [reflexivity|]. fold m_lst.
    split; [apply instantiate64_fields|apply instantiate64_nonzero].
Qed.

(** A group of mass 3, fractional mass being allowed: with the
    probabilities 0.3 and (last) 0.0 the loop does not break, the masses are
    0.8999999999999999 and 2.1; with 0.7, 0.2, 0.1 and a last spec the
    running sum is 0.9999999999999999 after the third spec, so the last
    spec is reached; with 0.3, 0.7 and a last spec the loop breaks and
    one group per non-zero mass is returned. *)
Lemma split_last_complement_unless_break_examples :
  let P := GroupPopulation.init (mkPragmas true false) in
  let g := mkGroup None 3 [] [] (Some ThePop) None in
  let a := mkSpec 0.3 [("x"%string, VInt 1)] [] [] [] in
  let b := mkSpec 0.7 [("x"%string, VInt 2)] [] [] [] in
  let c := mkSpec 0 [("x"%string, VInt 3)] [] [] [] in
  let b' := mkSpec 0.2 [("x"%string, VInt 2)] [] [] [] in
  let c' := mkSpec 0.1 [("x"%string, VInt 4)] [] [] [] in
  (forall x, split saferound P g ([a; b] ++ [with_p c x]) =
             split saferound P g ([a; b] ++ [c])) /\
  masses (g_m g) ([a] ++ [c]) 0 0 = [0.8999999999999999; 2.1] /\
  masses (g_m g) ([b; b'; c'] ++ [c]) 0 0 =
    [3 * 0.7; 3 * 0.2; 3 * 0.1; 3 - (0 + 3 * 0.7 + 3 * 0.2 + 3 * 0.1)] /\
  masses (g_m g) ([a; b] ++ [c]) 0 0 =
    [0.8999999999999999; 2.0999999999999996; 0] /\
  (exists dst,
     split saferound P g ([a; b] ++ [c]) = Ok dst /\
     dst = [mkGroup None 0.8999999999999999 [("x"%string, VInt 1)] [] None None;
            mkGroup None 2.0999999999999996 [("x"%string, VInt 2)] [] None None]).
Proof.
  intros P g a b c b' c'.
  split; [|split; [|split; [|split]]].
  - exact (proj1 (split_last_complement_unless_break P g [a; b] c)).
  - destruct (split_last_complement_unless_break P g [a] c)
      as (_ & Hno & _).
    rewrite Hno; [vm_compute; reflexivity|].
    intros [|[|n]] Hn; simpl in Hn; try lia. vm_compute. reflexivity.
  - destruct (split_last_complement_unless_break P g [b; b'; c'] c)
      as (_ & Hno & _).
    rewrite Hno; [reflexivity|].
    intros [|[|[|[|n]]]] Hn; simpl in Hn; try lia; vm_compute; reflexivity.
  - destruct (split_last_complement_unless_break P g [a; b] c)
      as (_ & _ & Hbreak & _).
    rewrite (Hbreak [a] b [c]);
      [vm_compute; reflexivity|reflexivity|discriminate|
       |vm_compute; reflexivity].
    intros [|[|n]] Hn; simpl in Hn; try lia. vm_compute. reflexivity.
  - destruct (split_last_complement_unless_break P g [a; b] c)
      as (_ & _ & _ & Hdst).
    destruct Hdst as (dst & E & Hd & _); [discriminate|].
    exists dst. split; [exact E|]. rewrite Hd. vm_compute. reflexivity.
Qed.


End SplittingBinary64.

(** ** The order of the rules on binary64 *)

Section RuleOrderBinary64.
Local Open Scope float_scope.
Import Binary64.

Variable saferound : list float -> list float.

(** C5.  The order of two rules that set different attributes changes
    the destinations of [apply_rules].  On a group of mass 10, fractional
    mass being allowed, a rule [A] that sets [a] to 1 and a rule [B] that
    sets [b] to 2 give one destination of mass 10 in either order, with
    equal attributes ([Dict.eqb], the dict comparison of Python); but the
    combined [attr_set] lists [a] first for [[A; B]] and [b] first for
    [[B; A]], the content hash depends on that order, and the two
    (content hash, mass) pairs differ, under both pickle protocols.  When
    the rules split the group (mass 1, [A] on the share 0.3 of it, [B] on
    the share 0.1) the masses of the last destination differ too:
    0.6299999999999999 for [[A; B]] and 0.63 for [[B; A]]. *)
Theorem apply_rules_order_changes_destinations :
  let P := GroupPopulation.init (mkPragmas true false) in
  let run g rs := apply_rules saferound P g rs 0%Z 0%Z Group.Iterate in
  let g := mkGroup None 10 [] [] (Some ThePop) None in
  let A := rule_set "a" (VInt 1) in
  let B := rule_set "b" (VInt 2) in
  let g1 := mkGroup None 1 [] [] (Some ThePop) None in
  let A1 := rule_share 0.3 0.7 "a" (VInt 1) in
  let B1 := rule_share 0.1 0.9 "b" (VInt 2) in
  run g [A; B] =
    Ok (Some [mkGroup None 10 [("a"%string, VInt 1); ("b"%string, VInt 2)] []
                      None None]) /\
  run g [B; A] =
    Ok (Some [mkGroup None 10 [("b"%string, VInt 2); ("a"%string, VInt 1)] []
                      None None]) /\
  Dict.eqb [("a"%string, VInt 1); ("b"%string, VInt 2)]
           [("b"%string, VInt 2); ("a"%string, VInt 1)] = true /\
  dest_pairs Proto3 (run g [A; B]) = [(12846097856957278016%Z, 10)] /\
  dest_pairs Proto3 (run g [B; A]) = [(1298600930832283831%Z, 10)] /\
  dest_pairs Proto4 (run g [A; B]) = [(11579288591346492739%Z, 10)] /\
  dest_pairs Proto4 (run g [B; A]) = [(14030715113975240739%Z, 10)] /\
  (forall proto,
     ~ (forall x, In x (dest_pairs proto (run g [A; B])) <->
                  In x (dest_pairs proto (run g [B; A])))) /\
  match run g1 [A1; B1], run g1 [B1; A1] with
  | Ok (Some ab), Ok (Some ba) =>
      map (fun d => (g_attr d, g_m d)) ab =
        [([("a"%string, VInt 1); ("b"%string, VInt 2)], 0.03);
         ([("a"%string, VInt 1)], 0.27);
         ([("b"%string, VInt 2)], 0.06999999999999999);
         ([], 0.6299999999999999)] /\
      map (fun d => (g_attr d, g_m d)) ba =
        [([("b"%string, VInt 2); ("a"%string, VInt 1)], 0.03);
         ([("b"%string, VInt 2)], 0.06999999999999999);
         ([("a"%string, VInt 1)], 0.27);
         ([], 0.63)] /\
      (0.6299999999999999 =? 0.63) = false
  | _, _ => False
  end.
Proof.
  intros P run g A B g1 A1 B1.
  assert (H3 : dest_pairs Proto3 (run g [A; B]) = [(12846097856957278016%Z, 10)])
    by (vm_compute; reflexivity).
  assert (H3' : dest_pairs Proto3 (run g [B; A]) = [(1298600930832283831%Z, 10)])
    by (vm_compute; reflexivity).
  assert (H4 : dest_pairs Proto4 (run g [A; B]) = [(11579288591346492739%Z, 10)])
    by (vm_compute; reflexivity).
  assert (H4' : dest_pairs Proto4 (run g [B; A]) = [(14030715113975240739%Z, 10)])
    by (vm_compute; reflexivity).
  split; [vm_compute; reflexivity|].
  split; [vm_compute; reflexivity|].
  split; [vm_compute; reflexivity|].
  split; [exact H3|]. split; [exact H3'|].
  split; [exact H4|]. split; [exact H4'|].
  split.
  - intros [] H.
    + rewrite H3, H3' in H.
      destruct (proj1 (H _) (or_introl eq_refl)) as [E|[]]. discriminate.
    + rewrite H4, H4' in H.
      destruct (proj1 (H _) (or_introl eq_refl)) as [E|[]]. discriminate.
  - vm_compute. repeat split.
Qed.

End RuleOrderBinary64.

(** ** Calls on a resource *)

Section ResourceCalls.
Import Resource.

Lemma step_capacity_max r c : capacity_max (step r c) = capacity_max r.
Proof.
  destruct c as [n|n|n]; simpl.
  - apply allocate_all_capacity_max.
  - reflexivity.
  - unfold release. destruct (capacity r =? 0); reflexivity.
Qed.

Lemma step_name r c : name (step r c) = name r.
Proof.
  destruct c as [n|n|n]; simpl.
  - apply allocate_all_name.
  - reflexivity.
  - unfold release. destruct (capacity r =? 0); reflexivity.
Qed.

Lemma run_capacity_max cs : forall r,
  capacity_max (run r cs) = capacity_max r /\ name (run r cs) = name r.
Proof.
  induction cs as [|c cs IH]; intros r; simpl; [split; reflexivity|].
  destruct (IH (step r c)) as [H1 H2]. unfold run in *.
  rewrite H1, H2, step_capacity_max, step_name. split; reflexivity.
Qed.

(** X1. [release(n)] undoes a successful [allocate_all(n)]: on a
    resource whose capacity is not negative, allocating [n >= 0] places
    with success and releasing [n] gives the resource back as it was. *)
Theorem release_undoes_allocate_all (r : t) (n : Z) :
  0 <= n -> 0 <= capacity r ->
  snd (allocate_all r n) = true ->
  release (fst (allocate_all r n)) n = r.
Proof.
  intros Hn Hc. unfold allocate_all.
  destruct (capacity r + n <=? capacity_max r) eqn:E; simpl; [|discriminate].
  intros _. unfold release, set_capacity. destruct r as [nm c cm]; simpl in *.
  destruct (c + n =? 0) eqn:E0.
  - apply Z.eqb_eq in E0. f_equal. lia.
  - f_equal. lia.
Qed.

Lemma release_undoes_allocate_all_witness :
  release (fst (allocate_all (mk "bus" 3 5) 2)) 2 = mk "bus" 3 5.
Proof.
  apply release_undoes_allocate_all; simpl; [lia | lia | reflexivity].
Defined.

(** X2. A resource that is only asked [allocate_all] and [release],
    with non-negative counts, stays within its bounds: from
    [Resource(name, capacity_max)] with [capacity_max >= 0], after any
    such sequence of calls the capacity is between 0 and
    [capacity_max], the capacity left is between 0 and [capacity_max],
    and the name and the maximum are those given. *)
Theorem allocate_all_release_keep_bounds
        (nm : string) (cmax : Z) (cs : list call) :
  0 <= cmax ->
  Forall (fun c => 0 <= arg c) cs ->
  forallb (fun c => negb (is_allocate_any c)) cs = true ->
  0 <= capacity (run (init nm cmax) cs) <= cmax /\
  0 <= get_capacity_left (run (init nm cmax) cs) <= cmax /\
  capacity_max (run (init nm cmax) cs) = cmax /\
  name (run (init nm cmax) cs) = nm.
Proof.
  intros Hmax Hargs Hno.
  assert (Hb : in_bounds (run (init nm cmax) cs)).
  { apply run_without_allocate_any_in_bounds; try assumption.
    unfold in_bounds, init. simpl. lia. }
  destruct (run_capacity_max cs (init nm cmax)) as [Hm Hn].
  simpl in Hm, Hn. unfold in_bounds in Hb. unfold get_capacity_left.
  rewrite Hm in *. repeat split; try lia; assumption.
Qed.

Lemma allocate_all_release_keep_bounds_witness :
  let cs := [AllocateAll 3; AllocateAll 3; Release 1; AllocateAll 3;
             Release 7; Release 2] in
  0 <= capacity (run (init "bus" 5) cs) <= 5 /\
  0 <= get_capacity_left (run (init "bus" 5) cs) <= 5 /\
  capacity_max (run (init "bus" 5) cs) = 5 /\
  name (run (init "bus" 5) cs) = "bus"%string.
Proof.
  intros cs. apply allocate_all_release_keep_bounds.
  - lia.
  - repeat constructor; simpl; lia.
  - reflexivity.
Defined.

(** X3. Two calls with non-negative counts are one call with the sum.
    [allocate_all(a)] followed by [allocate_all(b)] both succeed exactly
    when [allocate_all(a + b)] succeeds, and then leave the same
    resource; [release(a)] followed by [release(b)] leaves what
    [release(a + b)] leaves (capacity not negative). *)
Theorem calls_batch (r : t) (a b : Z) :
  0 <= a -> 0 <= b ->
  snd (allocate_all r (a + b)) =
    snd (allocate_all r a) && snd (allocate_all (fst (allocate_all r a)) b) /\
  (snd (allocate_all r (a + b)) = true ->
   fst (allocate_all (fst (allocate_all r a)) b) =
   fst (allocate_all r (a + b))) /\
  (0 <= capacity r -> release (release r a) b = release r (a + b)).
Proof.
  intros Ha Hb. destruct r as [nm c cm].
  unfold allocate_all, release, set_capacity. simpl.
  repeat split.
  - destruct (c + (a + b) <=? cm) eqn:E1; destruct (c + a <=? cm) eqn:E2;
      simpl; try destruct (c + a + b <=? cm) eqn:E3; simpl; try reflexivity;
      rewrite ?Z.leb_le, ?Z.leb_gt in *; lia.
  - destruct (c + (a + b) <=? cm) eqn:E1; simpl; [|discriminate]. intros _.
    destruct (c + a <=? cm) eqn:E2; simpl.
    + destruct (c + a + b <=? cm) eqn:E3; simpl.
      * f_equal. lia.
      * rewrite ?Z.leb_le, ?Z.leb_gt in *; lia.
    + rewrite ?Z.leb_le, ?Z.leb_gt in *; lia.
  - intros Hc. destruct (c =? 0) eqn:E0; simpl.
    + rewrite E0. reflexivity.
    + destruct (Z.max 0 (c - a) =? 0) eqn:E1; simpl.
      * apply Z.eqb_eq in E1. f_equal. lia.
      * f_equal. lia.
Qed.

Lemma calls_batch_witness :
  let r := mk "bus" 1 5 in
  snd (allocate_all r (2 + 2)) =
    snd (allocate_all r 2) && snd (allocate_all (fst (allocate_all r 2)) 2) /\
  (snd (allocate_all r (2 + 2)) = true ->
   fst (allocate_all (fst (allocate_all r 2)) 2) =
   fst (allocate_all r (2 + 2))) /\
  (0 <= capacity r -> release (release r 2) 2 = release r (2 + 2)).
Proof.
  intros r. apply calls_batch; lia.
Defined.

End ResourceCalls.

(** ** Dictionaries of new groups *)

Section NewDicts.

Lemma dict_keys_del d k :
  NoDup (Dict.keys d) -> NoDup (Dict.keys (Dict.del d k)).
Proof.
  unfold Dict.keys, Dict.del.
  induction d as [|[k' v] d IH]; simpl; intros H; [constructor|].
  inversion H as [|x l Hnin Hd]; subst.
  destruct (negb (String.eqb k' k)); simpl; [|now apply IH].
  constructor; [|now apply IH].
  intros Hin. apply Hnin. apply in_map_iff in Hin as ([k1 v1] & E & Hin).
  apply filter_In in Hin as [Hin _]. simpl in E. subst k1.
  apply in_map_iff. now exists (k', v1).
Qed.

Lemma dict_keys_dels ks : forall d,
  NoDup (Dict.keys d) -> NoDup (Dict.keys (fold_left Dict.del ks d)).
Proof.
  induction ks as [|k ks IH]; intros d H; simpl; [exact H|].
  apply IH. now apply dict_keys_del.
Qed.

Lemma gen_dict_get d_in d_upd k_del k :
  NoDup (Dict.keys d_upd) ->
  Dict.get (Group.gen_dict d_in d_upd k_del) k =
    if existsb (fun k0 => String.eqb k0 k) k_del then None
    else match Dict.get d_upd k with
         | Some v => Some v
         | None => Dict.get d_in k
         end.
Proof.
  intros Hu. rewrite gen_dict_eq, dict_get_dels, dict_get_update.
  now rewrite dict_get_rev.
Qed.

(** X4. The dictionary [gen_dict(d_in, d_upd, k_del)] builds for a new
    group: a key of [k_del] is absent, even when [d_upd] sets it; any
    other key has its value of [d_upd] if it has one and its value of
    [d_in] otherwise; and no key occurs twice. *)
Theorem gen_dict_lookup (d_in d_upd : dict) (k_del : list string) :
  NoDup (Dict.keys d_in) -> NoDup (Dict.keys d_upd) ->
  NoDup (Dict.keys (Group.gen_dict d_in d_upd k_del)) /\
  forall k,
    Dict.get (Group.gen_dict d_in d_upd k_del) k =
      if existsb (fun k0 => String.eqb k0 k) k_del then None
      else match Dict.get d_upd k with
           | Some v => Some v
           | None => Dict.get d_in k
           end.
Proof.
  intros Hin Hu. split.
  - rewrite gen_dict_eq. apply dict_keys_dels. now apply dict_keys_update.
  - intros k. now apply gen_dict_get.
Qed.

Lemma gen_dict_lookup_witness :
  let d_in := [("sex"%string, VStr "f"); ("income"%string, VStr "l")] in
  let d_upd := [("income"%string, VStr "m"); ("age"%string, VInt 9)] in
  let k_del := ["age"%string] in
  NoDup (Dict.keys (Group.gen_dict d_in d_upd k_del)) /\
  forall k,
    Dict.get (Group.gen_dict d_in d_upd k_del) k =
      if existsb (fun k0 => String.eqb k0 k) k_del then None
      else match Dict.get d_upd k with
           | Some v => Some v
           | None => Dict.get d_in k
           end.
Proof.
  intros d_in d_upd k_del. apply gen_dict_lookup.
  - simpl. repeat constructor; simpl; intuition discriminate.
  - simpl. repeat constructor; simpl; intuition discriminate.
Defined.

Lemma is_void_get g :
  Group.is_void g =
    match Dict.get (g_attr g) "__void__" with
    | Some v => py_eqb (VBool true) v
    | None => false
    end.
Proof.
  unfold Group.is_void, Group.has_attr, Group.VOID, Dict.items_le. simpl.
  destruct (Dict.get (g_attr g) "__void__"); [apply andb_true_r|reflexivity].
Qed.

(** X5. Which destination of a split is a VOID group.  The group made
    for a spec is VOID when the spec sets [__void__] to [True] (or to
    1, which Python holds equal) and does not delete the key; it is not
    VOID when the spec deletes the key or sets it to another value; and
    a spec that does not mention the key hands down what the source
    group is. *)
Theorem new_group_is_void (g : group) (m : Qc) (s : GroupSplitSpec) :
  NoDup (Dict.keys (attr_set s)) ->
  Group.is_void (Group.new_group g m s) =
    if existsb (fun k0 => String.eqb k0 "__void__") (attr_del s) then false
    else match Dict.get (attr_set s) "__void__" with
         | Some v => py_eqb (VBool true) v
         | None => Group.is_void g
         end.
Proof.
  intros Hs. rewrite !is_void_get. unfold Group.new_group, Group.init. simpl.
  rewrite gen_dict_get by assumption.
  destruct (existsb _ (attr_del s)); [reflexivity|].
  destruct (Dict.get (attr_set s) "__void__"); reflexivity.
Qed.

Lemma new_group_is_void_witness :
  Group.is_void
    (Group.new_group (Group.init None 1%Qc [("flu"%string, VStr "s")] [])
                     1%Qc (mkSpec 1%Qc Group.VOID [] [] [])) = true.
Proof.
  rewrite new_group_is_void.
  - reflexivity.
  - simpl. repeat constructor. simpl. intuition.
Defined.

End NewDicts.

(** ** Setting several attributes or relations *)

Section SettingMany.

Lemma set_attr_fold attrs do_force : forall g,
  Group.has_pop g && negb do_force = false ->
  attrs <> [] ->
  fold_left (fun g kv => fst (Group.set_attr g (fst kv) (snd kv) do_force))
            attrs g =
  mkGroup (g_name g) (g_m g) (Dict.update (g_attr g) attrs) (g_rel g)
          (g_pop g) None.
Proof.
  induction attrs as [|[k v] attrs IH]; intros g Hg Hne; [contradiction|].
  simpl. unfold Group.set_attr at 2. rewrite Hg. simpl.
  destruct attrs as [|kv attrs]; [reflexivity|].
  rewrite IH; [reflexivity| |discriminate].
  unfold Group.has_pop in *. simpl. exact Hg.
Qed.

Lemma set_rel_fold rels do_force : forall g,
  g_pop g = None ->
  rels <> [] ->
  fold_left (fun g kv => fst (Group.set_rel g (fst kv) (snd kv) do_force))
            rels g =
  mkGroup (g_name g) (g_m g) (g_attr g) (Dict.update (g_rel g) rels)
          (g_pop g) None.
Proof.
  induction rels as [|[k v] rels IH]; intros g Hg Hne; [contradiction|].
  simpl. unfold Group.set_rel at 2. unfold Group.has_pop. rewrite Hg. simpl.
  destruct rels as [|kv rels]; [reflexivity|].
  rewrite IH; [reflexivity| |discriminate].
  simpl. reflexivity.
Qed.

(** X6. [set_attrs] is [set_attr] on every item in turn: on a group
    that is standalone, or with [do_force], it returns and leaves the
    group that the calls [set_attr(k, v, do_force)] leave, made in the
    order of the mapping.  On a group bound to a population and without
    [do_force] it raises [GroupFrozenError] and changes nothing, except
    for an empty mapping, which is accepted. *)
Theorem set_attrs_is_set_attr_each (g : group) (attrs : dict) (do_force : bool) :
  (Group.has_pop g && negb do_force = false ->
   Group.set_attrs g attrs do_force =
     (fold_left (fun g kv => fst (Group.set_attr g (fst kv) (snd kv) do_force))
                attrs g,
      Ok tt)) /\
  (Group.has_pop g && negb do_force = true ->
   Group.set_attrs g attrs do_force =
     (g, match attrs with [] => Ok tt | _ => Raise GroupFrozenError end)).
Proof.
  split; intros Hg.
  - destruct attrs as [|kv attrs]; [reflexivity|].
    rewrite set_attr_fold by (assumption || discriminate).
    unfold Group.set_attrs. now rewrite Hg.
  - destruct attrs as [|kv attrs]; [reflexivity|].
    unfold Group.set_attrs. now rewrite Hg.
Qed.

Lemma set_attrs_is_set_attr_each_witness :
  let g := Group.init None 1%Qc [("sex"%string, VStr "f")] [] in
  let gb := mkGroup None 1%Qc [("sex"%string, VStr "f")] [] (Some ThePop)
                    (Some 7) in
  let attrs := [("age"%string, VInt 9); ("sex"%string, VStr "m")] in
  Group.set_attrs g attrs false =
    (fold_left (fun g kv => fst (Group.set_attr g (fst kv) (snd kv) false))
               attrs g,
     Ok tt) /\
  Group.set_attrs gb attrs false = (gb, Raise GroupFrozenError) /\
  Group.set_attrs gb [] false = (gb, Ok tt).
Proof.
  intros g gb attrs. split; [|split].
  - apply (set_attrs_is_set_attr_each g attrs false). reflexivity.
  - apply (set_attrs_is_set_attr_each gb attrs false). reflexivity.
  - apply (set_attrs_is_set_attr_each gb [] false). reflexivity.
Defined.

(** X7. [set_rels] on a standalone group is [set_rel] on every item in
    turn.  On a group bound to a population it never succeeds with a
    mapping that is not empty: without [do_force] it raises
    [GroupFrozenError] and changes nothing; with [do_force] it raises
    [NameError], and by then the relations have been updated and the
    cached hash dropped. *)
Theorem set_rels_standalone_or_raises (g : group) (rels : dict)
        (do_force : bool) :
  (g_pop g = None ->
   Group.set_rels g rels do_force =
     (fold_left (fun g kv => fst (Group.set_rel g (fst kv) (snd kv) do_force))
                rels g,
      None)) /\
  (g_pop g <> None -> rels <> [] ->
   Group.set_rels g rels false = (g, Some (Known GroupFrozenError)) /\
   Group.set_rels g rels true =
     (mkGroup (g_name g) (g_m g) (g_attr g) (Dict.update (g_rel g) rels)
              (g_pop g) None,
      Some NameError)).
Proof.
  split.
  - intros Hg. destruct rels as [|kv rels]; [reflexivity|].
    rewrite set_rel_fold by (assumption || discriminate).
    unfold Group.set_rels, Group.has_pop. now rewrite Hg.
  - intros Hg Hne. destruct rels as [|kv rels]; [contradiction|].
    unfold Group.set_rels, Group.has_pop.
    destruct (g_pop g); [|contradiction]. split; reflexivity.
Qed.

Lemma set_rels_standalone_or_raises_witness :
  let g := Group.init None 1%Qc [] [("home"%string, VInt 5)] in
  let gb := mkGroup None 1%Qc [] [("home"%string, VInt 5)] (Some ThePop)
                    (Some 7) in
  let rels := [("@"%string, VInt 5); ("work"%string, VInt 6)] in
  Group.set_rels g rels false =
    (fold_left (fun g kv => fst (Group.set_rel g (fst kv) (snd kv) false))
               rels g,
     None) /\
  Group.set_rels gb rels false = (gb, Some (Known GroupFrozenError)) /\
  snd (Group.set_rels gb rels true) = Some NameError /\
  g_hash (fst (Group.set_rels gb rels true)) = None.
Proof.
  intros g gb rels.
  destruct (set_rels_standalone_or_raises g rels false) as [Hs _].
  destruct (set_rels_standalone_or_raises gb rels false) as [_ Hb].
  split; [apply Hs; reflexivity|].
  destruct Hb as [Hb1 Hb2]; [discriminate | discriminate |].
  split; [exact Hb1|]. rewrite Hb2. split; reflexivity.
Defined.

End SettingMany.

(** ** The cached hash *)

Section HashCache.

Lemma step_hash_fresh proto g c :
  hash_fresh proto g -> hash_fresh proto (Group.step proto g c).
Proof.
  unfold hash_fresh. intros Hg.
  destruct c as [k v f|k v f|d f|d f|]; simpl.
  - unfold Group.set_attr. destruct (Group.has_pop g && negb f); simpl;
      [exact Hg | discriminate].
  - unfold Group.set_rel. destruct (Group.has_pop g && negb f); simpl;
      [exact Hg|]. destruct (negb (Group.has_pop g)); simpl;
      [discriminate | exact Hg].
  - unfold Group.set_attrs. destruct d; simpl; [exact Hg|].
    destruct (Group.has_pop g && negb f); simpl; [exact Hg | discriminate].
  - unfold Group.set_rels. destruct d; simpl; [exact Hg|].
    destruct (Group.has_pop g && negb f); simpl; [exact Hg|].
    destruct (Group.has_pop g); simpl; discriminate.
  - unfold Group.get_hash. destruct (g_hash g) eqn:E; simpl.
    + rewrite E. exact Hg.
    + intros h Hh. now inversion Hh.
Qed.

Lemma run_hash_fresh proto cs : forall g,
  hash_fresh proto g -> hash_fresh proto (Group.run proto g cs).
Proof.
  induction cs as [|c cs IH]; intros g Hg; simpl; [exact Hg|].
  apply IH. now apply step_hash_fresh.
Qed.

(** X8. The hash a group caches is never stale.  Take a group made by
    the constructor and call its setters ([set_attr], [set_rel],
    [set_attrs], [set_rels], forced or not, raising or not) and
    [get_hash] in any order: [get_hash] then returns the hash of the
    attributes and relations the group holds at that moment.  (The
    dictionaries are those of the group alone: nothing else writes to
    them.) *)
Theorem get_hash_never_stale (proto : protocol) (name : option string)
        (m : Qc) (attr rel : dict) (cs : list Group.call) :
  let g := Group.run proto (Group.init name m attr rel) cs in
  snd (Group.get_hash proto g) = Group.gen_hash proto (g_attr g) (g_rel g).
Proof.
  intros g.
  assert (Hf : hash_fresh proto g).
  { apply run_hash_fresh. intros h Hh. discriminate. }
  unfold Group.get_hash. destruct (g_hash g) eqn:E; simpl; [|reflexivity].
  now apply Hf.
Qed.

End HashCache.

(** ** Equal groups and queries *)

Section Matching.

Lemma py_eqb_refl v : py_eqb v v = true.
Proof.
  destruct v as [|b|z|s]; simpl; auto.
  - now destruct b.
  - apply Z.eqb_refl.
  - apply String.eqb_refl.
Qed.

Lemma py_eqb_sym v w : py_eqb v w = py_eqb w v.
Proof.
  destruct v as [|a|a|a], w as [|b|b|b]; simpl; auto.
  - now destruct a, b.
  - apply Z.eqb_sym.
  - apply String.eqb_sym.
Qed.

Lemma py_eqb_trans u v w :
  py_eqb u v = true -> py_eqb v w = true -> py_eqb u w = true.
Proof.
  destruct u as [|a|a|a], v as [|b|b|b], w as [|c|c|c]; simpl;
    try discriminate; auto;
    rewrite ?Z.eqb_eq, ?String.eqb_eq, ?Bool.eqb_true_iff;
    try (intros; subst; auto; fail);
    try (intros; subst; apply Z.eqb_refl);
    try (intros; subst;
         repeat match goal with b : bool |- _ => destruct b end;
         simpl in *; auto; discriminate).
Qed.

Lemma items_le_spec q d :
  Dict.items_le q d = true <->
  forall k v, In (k, v) q ->
    exists w, Dict.get d k = Some w /\ py_eqb v w = true.
Proof.
  unfold Dict.items_le. rewrite forallb_forall. split.
  - intros H k v Hin. specialize (H _ Hin). simpl in H.
    destruct (Dict.get d k) as [w|]; [|discriminate]. now exists w.
  - intros H [k v] Hin. simpl. destruct (H _ _ Hin) as (w & E & Hw).
    now rewrite E.
Qed.

Lemma items_le_trans q d1 d2 :
  Dict.items_le q d1 = true -> Dict.items_le d1 d2 = true ->
  Dict.items_le q d2 = true.
Proof.
  rewrite !items_le_spec. intros H1 H2 k v Hin.
  destruct (H1 _ _ Hin) as (w1 & E1 & Hw1).
  destruct (H2 _ _ (dict_get_in _ _ _ E1)) as (w2 & E2 & Hw2).
  exists w2. split; [exact E2|]. eapply py_eqb_trans; eassumption.
Qed.

Lemma dict_get_some_key d k v : Dict.get d k = Some v -> In k (Dict.keys d).
Proof.
  intros H. apply dict_get_in in H. unfold Dict.keys.
  apply in_map_iff. now exists (k, v).
Qed.

Lemma dict_key_get d k : In k (Dict.keys d) -> exists v, Dict.get d k = Some v.
Proof.
  unfold Dict.keys. induction d as [|[k' v'] d IH]; simpl; [contradiction|].
  intros [E|Hin].
  - subst. rewrite String.eqb_refl. now exists v'.
  - destruct (String.eqb k' k); [now exists v'|]. now apply IH.
Qed.

(** Dict equality is symmetric: with as many keys on both sides, the
    inclusion of the items goes both ways. *)
Lemma dict_eqb_sym d1 d2 :
  NoDup (Dict.keys d1) -> NoDup (Dict.keys d2) ->
  Dict.eqb d1 d2 = true -> Dict.eqb d2 d1 = true.
Proof.
  unfold Dict.eqb. intros N1 N2 H.
  apply andb_true_iff in H as [Hl Hle]. apply Nat.eqb_eq in Hl.
  apply andb_true_iff. split; [apply Nat.eqb_eq; lia|].
  assert (Hincl : incl (Dict.keys d1) (Dict.keys d2)).
  { intros k Hk. destruct (dict_key_get _ _ Hk) as (v & E).
    apply dict_get_in in E. rewrite items_le_spec in Hle.
    destruct (Hle _ _ E) as (w & E2 & _).
    eapply dict_get_some_key; eassumption. }
  assert (Hincl' : incl (Dict.keys d2) (Dict.keys d1)).
  { apply NoDup_length_incl; try assumption.
    unfold Dict.keys. rewrite !length_map. lia. }
  apply items_le_spec. intros k w Hin.
  assert (Hk : In k (Dict.keys d1)).
  { apply Hincl'. unfold Dict.keys. apply in_map_iff. now exists (k, w). }
  destruct (dict_key_get _ _ Hk) as (v & E). exists v. split; [exact E|].
  rewrite items_le_spec in Hle.
  destruct (Hle _ _ (dict_get_in _ _ _ E)) as (w' & E2 & Hw).
  rewrite (dict_in_get _ _ _ N2 Hin) in E2. inversion E2; subst w'.
  now rewrite py_eqb_sym.
Qed.

Lemma dict_eqb_items_le d1 d2 :
  Dict.eqb d1 d2 = true -> Dict.items_le d1 d2 = true.
Proof. unfold Dict.eqb. intros H. now apply andb_true_iff in H. Qed.

Lemma dict_eqb_length d1 d2 :
  Dict.eqb d1 d2 = true -> length d1 = length d2.
Proof.
  unfold Dict.eqb. intros H. apply andb_true_iff in H as [H _].
  now apply Nat.eqb_eq.
Qed.

Lemma dict_eqb_trans d1 d2 d3 :
  Dict.eqb d1 d2 = true -> Dict.eqb d2 d3 = true -> Dict.eqb d1 d3 = true.
Proof.
  intros H12 H23. unfold Dict.eqb. apply andb_true_iff. split.
  - apply Nat.eqb_eq. rewrite (dict_eqb_length _ _ H12).
    now apply dict_eqb_length.
  - eapply items_le_trans; eapply dict_eqb_items_le; eassumption.
Qed.

Lemma items_le_congr q d1 d2 :
  NoDup (Dict.keys d1) -> NoDup (Dict.keys d2) ->
  Dict.eqb d1 d2 = true -> Dict.items_le q d1 = Dict.items_le q d2.
Proof.
  intros N1 N2 H.
  destruct (Dict.items_le q d1) eqn:E1; destruct (Dict.items_le q d2) eqn:E2;
    try reflexivity.
  - rewrite <- E2. symmetry.
    eapply items_le_trans; [exact E1|now apply dict_eqb_items_le].
  - rewrite <- E1.
    eapply items_le_trans; [exact E2|].
    apply dict_eqb_items_le. now apply dict_eqb_sym.
Qed.

Lemma dict_eqb_congr q d1 d2 :
  NoDup (Dict.keys d1) -> NoDup (Dict.keys d2) ->
  Dict.eqb d1 d2 = true -> Dict.eqb q d1 = Dict.eqb q d2.
Proof.
  intros N1 N2 H.
  destruct (Dict.eqb q d1) eqn:E1; destruct (Dict.eqb q d2) eqn:E2;
    try reflexivity.
  - rewrite <- E2. symmetry. eapply dict_eqb_trans; eassumption.
  - rewrite <- E1. eapply dict_eqb_trans; [exact E2|].
    now apply dict_eqb_sym.
Qed.

(** X9. Groups that are equal for [__eq__] match the same queries.  If
    [g1 == g2] (equal attributes and relations, whatever the order of
    the items, [True] and 1 being equal values) and the conditions of
    the query do not tell them apart, then [g1.matches_qry(qry)] and
    [g2.matches_qry(qry)] agree, for a full and for a partial query. *)
Theorem matches_qry_respects_eq (g1 g2 : group) (qry : option GroupQry) :
  NoDup (Dict.keys (g_attr g1)) -> NoDup (Dict.keys (g_rel g1)) ->
  NoDup (Dict.keys (g_attr g2)) -> NoDup (Dict.keys (g_rel g2)) ->
  Group.eqb g1 g2 = true ->
  (forall q fn, qry = Some q -> In fn (q_cond q) -> fn g1 = fn g2) ->
  Group.matches_qry g1 qry = Group.matches_qry g2 qry.
Proof.
  intros Na1 Nr1 Na2 Nr2 Heq Hc. unfold Group.eqb in Heq.
  apply andb_true_iff in Heq as [Ha Hr].
  destruct qry as [q|]; [|reflexivity]. simpl.
  assert (Hcond : forallb (fun fn => fn g1) (q_cond q) =
                  forallb (fun fn => fn g2) (q_cond q)).
  { specialize (Hc q). induction (q_cond q) as [|fn l IH]; simpl; auto.
    rewrite (Hc fn eq_refl) by now left.
    rewrite IH; [reflexivity|]. intros fn' _ Hin. apply Hc; auto. now right. }
  rewrite Hcond.
  rewrite (items_le_congr (q_attr q) _ _ Na1 Na2 Ha).
  rewrite (items_le_congr (q_rel q) _ _ Nr1 Nr2 Hr).
  rewrite (dict_eqb_congr (q_attr q) _ _ Na1 Na2 Ha).
  rewrite (dict_eqb_congr (q_rel q) _ _ Nr1 Nr2 Hr).
  reflexivity.
Qed.

Lemma matches_qry_respects_eq_witness :
  let g1 := Group.init None 1%Qc
              [("flu"%string, VStr "s"); ("vax"%string, VBool true)] [] in
  let g2 := Group.init None (Qc_of_Z 2)
              [("vax"%string, VInt 1); ("flu"%string, VStr "s")] [] in
  let qry := Some (mkQry [("vax"%string, VBool true)] [] [] false) in
  Group.matches_qry g1 qry = Group.matches_qry g2 qry.
Proof.
  intros g1 g2 qry. apply matches_qry_respects_eq.
  - simpl. repeat constructor; simpl; intuition discriminate.
  - simpl. constructor.
  - simpl. repeat constructor; simpl; intuition discriminate.
  - simpl. constructor.
  - reflexivity.
  - intros q fn E. inversion E; subst q. simpl. contradiction.
Defined.

End Matching.

(** ** Rules that make no claim, and a single rule *)

Section Claims.
Local Open Scope Qc_scope.

Lemma drop_none_app {A} (l1 l2 : list (option A)) :
  Group.drop_none (l1 ++ l2) = Group.drop_none l1 ++ Group.drop_none l2.
Proof.
  induction l1 as [|[x|] l1 IH]; simpl; auto. now rewrite IH.
Qed.


Lemma split_product_drop_none P g ss1 ss2 :
  Group.drop_none ss1 = Group.drop_none ss2 ->
  Group.split_product P g ss1 = Group.split_product P g ss2.
Proof. unfold Group.split_product. now intros ->. Qed.

Lemma iterate_claims P g iter t rules :
  Group.drop_none
    (map (fun r => apply r P g iter t)
         (filter (fun r => is_applicable r g iter t) rules)) =
  Group.drop_none (map (fun r => rule_specs r P g iter t) rules).
Proof.
  induction rules as [|r rules IH]; simpl; [reflexivity|].
  unfold rule_specs at 1.
  destruct (is_applicable r g iter t); simpl; [|exact IH].
  destruct (apply r P g iter t); simpl; now rewrite IH.
Qed.

Lemma apply_rules_claims P g rules iter t md :
  Group.apply_rules P g rules iter t md =
  Group.split_product P g (map (fun r => claim md r P g iter t) rules).
Proof.
  unfold Group.apply_rules. destruct md; simpl; try reflexivity.
  apply split_product_drop_none. apply iterate_claims.
Qed.

(** X10. A rule that makes no claim on a group does not count: if the
    rule is not applicable to the group, or its [apply] (its [setup],
    its [cleanup]) returns [None], then [apply_rules] gives what it
    gives for the list of rules without it, wherever the rule stands in
    the list. *)
Theorem apply_rules_skips_silent_rule
        (P : population) (g : group) (rs1 rs2 : list rule) (r : rule)
        (iter t : Z) (md : Group.mode) :
  claim md r P g iter t = None ->
  Group.apply_rules P g (rs1 ++ r :: rs2) iter t md =
  Group.apply_rules P g (rs1 ++ rs2) iter t md.
Proof.
  intros Hr. rewrite !apply_rules_claims.
  apply split_product_drop_none.
  rewrite !map_app, !drop_none_app. simpl. now rewrite Hr.
Qed.

Lemma apply_rules_skips_silent_rule_witness :
  let P := GroupPopulation.init (mkPragmas true false) in
  let g := mkGroup None (Qc_of_Z 10) [] [] (Some ThePop) None in
  let A := rule_share half "a" (VInt 1) in
  let N := mkRule (fun _ _ _ => false)
                  (fun _ _ _ _ => Some [mkSpec 1 Group.VOID [] [] []])
                  (fun _ _ => None) (fun _ _ => None) in
  Group.apply_rules P g ([A] ++ N :: [A]) 0 0 Group.Iterate =
  Group.apply_rules P g ([A] ++ [A]) 0 0 Group.Iterate.
Proof.
  intros P g A N. apply apply_rules_skips_silent_rule. reflexivity.
Defined.

Lemma dict_update_fresh u : forall d,
  NoDup (Dict.keys d ++ Dict.keys u) -> Dict.update d u = d ++ u.
Proof.
  unfold Dict.update, Dict.keys.
  induction u as [|[k v] u IH]; intros d H; simpl.
  - now rewrite app_nil_r.
  - assert (Hset : Dict.set d k v = d ++ [(k, v)]).
    { assert (Hk : ~ In k (map fst d)).
      { intros Hin. simpl in H. apply NoDup_remove_2 in H. apply H.
        apply in_or_app. now left. }
      clear H IH. induction d as [|[k' v'] d IHd]; simpl; [reflexivity|].
      destruct (String.eqb k' k) eqn:E.
      - apply String.eqb_eq in E. subst. exfalso. apply Hk. now left.
      - f_equal. apply IHd. intros Hin. apply Hk. now right. }
    rewrite Hset, IH.
    + now rewrite <- app_assoc.
    + rewrite map_app. simpl. rewrite <- app_assoc. exact H.
Qed.

Lemma combine_one s :
  NoDup (Dict.keys (attr_set s)) -> NoDup (Dict.keys (rel_set s)) ->
  Group.combine [s] = s.
Proof.
  intros Ha Hr. destruct s as [ps a ad r rd]. unfold Group.combine.
  simpl in *. rewrite !dict_update_fresh by assumption. simpl.
  f_equal. apply Qcmult_1_l.
Qed.

Lemma product_one {A} (l : list A) :
  Group.product [l] = map (fun x => [x]) l.
Proof.
  simpl. induction l as [|x l IH]; simpl; [reflexivity|]. now rewrite IH.
Qed.

(** X11. With a single rule the product of the split specs changes
    nothing: when only one rule is given and it claims the group with
    specs whose [attr_set] and [rel_set] are ordinary dicts,
    [apply_rules] returns what [split] returns for the specs of the
    rule. *)
Theorem apply_rules_one_rule_is_split
        (P : population) (g : group) (r : rule) (iter t : Z)
        (md : Group.mode) (specs : list GroupSplitSpec) :
  claim md r P g iter t = Some specs ->
  (forall s, In s specs ->
     NoDup (Dict.keys (attr_set s)) /\ NoDup (Dict.keys (rel_set s))) ->
  Group.apply_rules P g [r] iter t md =
    (dst <- Group.split P g specs ;; Ok (Some dst)).
Proof.
  intros Hr Hs. rewrite apply_rules_claims. simpl. rewrite Hr.
  unfold Group.split_product. simpl Group.drop_none. cbv iota.
  rewrite product_one, map_map.
  replace (map (fun x => Group.combine [x]) specs) with specs; [reflexivity|].
  clear Hr. induction specs as [|s specs IH]; simpl; [reflexivity|].
  rewrite combine_one by (apply Hs; now left).
  f_equal. apply IH. intros s' Hin. apply Hs. now right.
Qed.

Lemma apply_rules_one_rule_is_split_witness :
  let P := GroupPopulation.init (mkPragmas true false) in
  let g := mkGroup None (Qc_of_Z 10) [] [] (Some ThePop) None in
  Group.apply_rules P g [rule_share half "a" (VInt 1)] 0 0 Group.Iterate =
    (dst <- Group.split P g [mkSpec half [("a"%string, VInt 1)] [] [] [];
                             mkSpec 0 [] [] [] []] ;;
     Ok (Some dst)).
Proof.
  intros P g. apply apply_rules_one_rule_is_split.
  - reflexivity.
  - intros s [E|[E|[]]]; subst s; simpl; split; repeat constructor;
      simpl; intuition.
Defined.

End Claims.

(** ** A claim without destinations *)

Section ClaimedMass.
Local Open Scope Qc_scope.




End ClaimedMass.

(** ** When [add_group] raises *)

Section Books.
Local Open Scope Qc_scope.
Import GroupPopulation.

Lemma reg_keys_set_NoDup {A} (d : list (Z * A)) k v :
  NoDup (Reg.keys d) -> NoDup (Reg.keys (Reg.set d k v)).
Proof.
  intros H. destruct (Reg.get d k) as [v0|] eqn:E.
  - now rewrite (reg_keys_set_mem _ _ _ _ E).
  - rewrite (reg_keys_set_new _ _ _ E).
    apply NoDup_app_remove_l with (l := []). simpl.
    apply Permutation_NoDup with (l := k :: Reg.keys d).
    + apply Permutation_cons_append.
    + constructor; [|exact H]. intros Hin.
      unfold Reg.keys in Hin. apply in_map_iff in Hin as ([k' v'] & Ek & Hin).
      simpl in Ek. subst k'.
      clear H. induction d as [|[k1 v1] d IH]; [contradiction|].
      simpl in E. destruct (k1 =? k)%Z eqn:E1; [discriminate|].
      destruct Hin as [Hin|Hin].
      * inversion Hin; subst. rewrite Z.eqb_refl in E1. discriminate.
      * now apply IH.
Qed.

(** What [add_group] does, case by case. *)
Lemma add_group_cases proto P g :
  let h := snd (Group.get_hash proto g) in
  let m := if is_frozen P then pop_m P else pop_m P + g_m g in
  let P0 := set_masses P m (m_in P) (m_out P) in
  add_group proto P g =
    match Reg.get (groups P) h with
    | Some g0 =>
        (set_groups P0 (Reg.set (groups P) h (Group.set_m g0 (g_m g0 + g_m g))),
         Ok tt)
    | None =>
        let g' := Group.set_pop (fst (Group.get_hash proto g)) (Some ThePop) in
        match Group.link_to_site_at g' h (sites P) with
        | Raise e => (P0, Raise e)
        | Ok ss => (set_groups (set_sites P0 ss) (Reg.set (groups P) h g'), Ok tt)
        end
    end.
Proof.
  intros h m P0. unfold add_group.
  destruct (get_hash_fields proto g) as (_ & Hm & _).
  subst h. destruct (Group.get_hash proto g) as [g1 h] eqn:Eh. simpl in *.
  assert (EP : (if is_frozen P then P
                else set_masses P (pop_m P + g_m g) (m_in P) (m_out P)) = P0).
  { subst P0 m. destruct (is_frozen P); [|reflexivity].
    destruct P; reflexivity. }
  rewrite EP. unfold Group.freeze.
  replace (groups P0) with (groups P) by reflexivity.
  replace (sites P0) with (sites P) by reflexivity.
  rewrite Hm. reflexivity.
Qed.

Lemma add_group_raises_iff (proto : protocol) (P : population)
        (g : group) (e : exn) :
  snd (add_group proto P g) = Raise e <->
  (e = KeyError /\
   Reg.get (groups P) (snd (Group.get_hash proto g)) = None /\
   exists at_, Dict.get (g_rel g) Group.AT = Some at_ /\ truthy at_ = true /\
               match Group.site_key at_ with
               | Some k => Reg.get (sites P) k = None
               | None => True
               end).
Proof.
  rewrite add_group_cases. cbv zeta.
  destruct (get_hash_fields proto g) as (_ & _ & _ & Hr & _).
  destruct (Reg.get (groups P) (snd (Group.get_hash proto g))) as [g0|] eqn:E.
  - simpl. split; [discriminate|]. intros (_ & H & _). discriminate.
  - unfold Group.link_to_site_at, Group.has_pop. simpl. rewrite Hr.
    destruct (Dict.get (g_rel g) Group.AT) as [a|] eqn:Ea.
    + rewrite andb_true_r. destruct (truthy a) eqn:Et.
      * destruct (Group.site_key a) as [k|] eqn:Ek.
        -- destruct (Reg.get (sites P) k) as [s|] eqn:Es; simpl.
           ++ split; [discriminate|].
              intros (_ & _ & a' & Ea' & _ & H). inversion Ea'; subst a'.
              rewrite Ek, Es in H. discriminate.
           ++ split.
              ** intros H. inversion H; subst e. repeat split.
                 exists a. rewrite Ek. auto.
              ** intros (-> & _). reflexivity.
        -- simpl. split.
           ++ intros H. inversion H; subst e. repeat split.
              exists a. rewrite Ek. auto.
           ++ intros (-> & _). reflexivity.
      * simpl. split; [discriminate|].
        intros (_ & _ & a' & Ea' & Ht & _). inversion Ea'; subst a'.
        rewrite Et in Ht. discriminate.
    + simpl. split; [discriminate|].
      intros (_ & _ & a' & Ea' & _). discriminate.
Qed.

Lemma add_group_raise_state proto P g e :
  snd (add_group proto P g) = Raise e ->
  groups (fst (add_group proto P g)) = groups P /\
  sites (fst (add_group proto P g)) = sites P /\
  pop_m (fst (add_group proto P g)) =
    if is_frozen P then pop_m P else pop_m P + g_m g.
Proof.
  rewrite add_group_cases. cbv zeta.
  destruct (Reg.get (groups P) (snd (Group.get_hash proto g))) as [g0|];
    [discriminate|].
  destruct (Group.link_to_site_at _ _ _) as [ss|e']; [discriminate|].
  simpl. intros _. repeat split.
Qed.

(** X15. When [add_group] raises.  It raises only [KeyError], and does
    so exactly when the hash of the group is not registered and the
    group has a true value under [@] that is no key of [sites].  The
    group is then not registered, and yet, the population not being
    frozen, its mass has been added to the total. *)
Theorem add_group_unknown_site (proto : protocol) (P : population)
        (g : group) (e : exn) :
  (snd (add_group proto P g) = Raise e <->
   (e = KeyError /\
    Reg.get (groups P) (snd (Group.get_hash proto g)) = None /\
    exists at_, Dict.get (g_rel g) Group.AT = Some at_ /\ truthy at_ = true /\
                match Group.site_key at_ with
                | Some k => Reg.get (sites P) k = None
                | None => True
                end)) /\
  (snd (add_group proto P g) = Raise e ->
   groups (fst (add_group proto P g)) = groups P /\
   get_mass (fst (add_group proto P g)) =
     if is_frozen P then get_mass P else get_mass P + g_m g).
Proof.
  split; [apply add_group_raises_iff|].
  intros H. destruct (add_group_raise_state _ _ _ _ H) as (Hg & _ & Hm).
  split; assumption.
Qed.

Lemma add_group_unknown_site_witness :
  let P := init (mkPragmas true false) in
  let g := Group.init None (Qc_of_Z 3) [] [("@"%string, VInt 5)] in
  snd (add_group Proto4 P g) = Raise KeyError /\
  groups (fst (add_group Proto4 P g)) = [] /\
  get_mass (fst (add_group Proto4 P g)) = get_mass P + g_m g.
Proof.
  intros P g.
  destruct (add_group_unknown_site Proto4 P g KeyError) as [[_ Hr] Hs].
  assert (H : snd (add_group Proto4 P g) = Raise KeyError).
  { apply Hr. split; [reflexivity|]. split; [reflexivity|].
    exists (VInt 5). repeat split. }
  split; [exact H|]. destruct (Hs H) as [Hg Hm]. split; assumption.
Defined.

End Books.

(** ** A population no rule makes a claim on *)

Section Transfer.
Local Open Scope Qc_scope.
Import GroupPopulation.


(** X18. A population no rule makes a claim on is left alone: if every
    rule is inapplicable to, or returns [None] for, every registered
    group, [apply_rules] returns the population as it is (no mass is
    reset, no site is relinked). *)
Theorem apply_rules_no_claim_no_change
        (proto : protocol) (P : population) (rules : list rule)
        (iter t : Z) (md : Group.mode) :
  (forall h g r, In (h, g) (groups P) -> In r rules ->
                 claim md r P g iter t = None) ->
  GroupPopulation.apply_rules proto P rules iter t md = (P, Ok tt).
Proof.
  intros Hn. unfold GroupPopulation.apply_rules, apply_with.
  assert (Hc : collect P (fun g => Group.apply_rules P g rules iter t md)
                       (groups P) = Ok ([], [])).
  { revert Hn. generalize (groups P) as gs.
    induction gs as [|[h g] gs IH]; intros Hn; simpl; [reflexivity|].
    rewrite IH by (intros h' g' r Hin; apply (Hn h'); now right). simpl.
    rewrite apply_rules_claims. unfold Group.split_product.
    replace (Group.drop_none (map (fun r => claim md r P g iter t) rules))
      with (@nil (list GroupSplitSpec)); [reflexivity|].
    assert (Hg : forall r, In r rules -> claim md r P g iter t = None)
      by (intros r Hr; apply (Hn h g r); [now left | exact Hr]).
    clear -Hg. induction rules as [|r rules IHr]; simpl; [reflexivity|].
    rewrite (Hg r) by now left. apply IHr. intros r' Hr'. apply Hg. now right. }
  now rewrite Hc.
Qed.

Lemma apply_rules_no_claim_no_change_witness :
  let P := mkPop (mkPragmas true false)
                 [(7%Z, mkGroup None (Qc_of_Z 10) [] [] (Some ThePop) (Some 7%Z))]
                 [] [] (Qc_of_Z 10) 0 0 true in
  let N := mkRule (fun _ _ _ => false)
                  (fun _ _ _ _ => Some [mkSpec 1 Group.VOID [] [] []])
                  (fun _ _ => None) (fun _ _ => None) in
  GroupPopulation.apply_rules Proto4 P [N] 0 0 Group.Iterate = (P, Ok tt).
Proof.
  intros P N. apply apply_rules_no_claim_no_change.
  intros h g r _ [E|[]]. subst r. reflexivity.
Defined.

End Transfer.

(** ** Compacting, VITA groups and the post-iteration step *)

Section Housekeeping.
Local Open Scope Qc_scope.
Import GroupPopulation.

Lemma Qc_ltb_lt a b : Qc_ltb a b = true <-> a < b.
Proof.
  unfold Qc_ltb, Qclt, Qlt, Qccompare, Qcompare.
  destruct (_ ?= _)%Z eqn:E; split; intros H; try discriminate; auto;
    try (rewrite Z.compare_lt_iff in E; exact E);
    rewrite <- Z.compare_lt_iff in H; congruence.
Qed.

Lemma reg_get_filter_all (f : Z * group -> bool) gs k :
  NoDup (Reg.keys gs) ->
  Reg.get (filter f gs) k =
    match Reg.get gs k with
    | Some g => if f (k, g) then Some g else None
    | None => None
    end.
Proof.
  unfold Reg.keys. induction gs as [|[k' v] gs IH]; intros N; simpl;
    [reflexivity|].
  inversion N as [|x l Hnin N']; subst.
  destruct (k' =? k)%Z eqn:E.
  - apply Z.eqb_eq in E. subst k'.
    destruct (f (k, v)) eqn:Ef; simpl.
    + now rewrite Z.eqb_refl.
    + rewrite (IH N'). rewrite reg_get_none; [reflexivity|exact Hnin].
  - destruct (f (k', v)); simpl; [rewrite E|]; now apply IH.
Qed.

Lemma filter_idem {A} (f : A -> bool) l : filter f (filter f l) = filter f l.
Proof.
  induction l as [|x l IH]; simpl; [reflexivity|].
  destruct (f x) eqn:E; simpl; [rewrite E; f_equal|]; exact IH.
Qed.

Lemma reg_mass_filter_zero (f : Z * group -> bool) gs :
  (forall kv, In kv gs -> f kv = false -> g_m (snd kv) = 0) ->
  reg_mass (filter f gs) = reg_mass gs.
Proof.
  unfold reg_mass, Reg.values.
  induction gs as [|[k v] gs IH]; intros H; simpl; [reflexivity|].
  destruct (f (k, v)) eqn:E; simpl.
  - rewrite IH; [reflexivity|]. intros kv Hin. apply H. now right.
  - rewrite IH by (intros kv Hin; apply H; now right).
    pose proof (H (k, v) (or_introl eq_refl) E) as Hz. simpl in Hz.
    rewrite Hz. ring.
Qed.

(** X19. [compact] keeps exactly the groups whose mass is positive:
    a hash finds its group afterwards if and only if it found it before
    and the mass of the group is above zero.  Compacting twice is
    compacting once; the number of groups left is the number
    [get_group_cnt(only_non_empty=True)] gave before; and if no
    registered mass is negative, the sum of the registered masses is
    unchanged. *)
Theorem compact_keeps_positive (P : population) :
  NoDup (Reg.keys (groups P)) ->
  (forall k, Reg.get (groups (compact P)) k =
     match Reg.get (groups P) k with
     | Some g => if Qc_ltb 0 (g_m g) then Some g else None
     | None => None
     end) /\
  compact (compact P) = compact P /\
  get_group_cnt (compact P) false = get_group_cnt P true /\
  ((forall k g, In (k, g) (groups P) -> 0 <= g_m g) ->
   get_groups_mass (compact P) = get_groups_mass P) /\
  get_mass (compact P) = get_mass P.
Proof.
  intros N. repeat split.
  - intros k. unfold compact. simpl. now rewrite reg_get_filter_all.
  - unfold compact, set_groups. simpl. now rewrite filter_idem.
  - unfold get_group_cnt, compact, set_groups, Reg.values. simpl. clear N.
    induction (groups P) as [|[k v] gs IH]; simpl; [reflexivity|].
    destruct (Qc_ltb 0 (g_m v)); simpl; now rewrite IH.
  - intros Hpos. unfold get_groups_mass, compact. simpl.
    fold (reg_mass (groups P)).
    fold (reg_mass (filter (fun kv => Qc_ltb 0 (g_m (snd kv))) (groups P))).
    apply reg_mass_filter_zero. intros [k v] Hin Hf. simpl in *.
    apply Qcle_antisym; [|now apply (Hpos k)].
    apply Qcnot_lt_le. intros Hlt. apply Qc_ltb_lt in Hlt. congruence.
Qed.

Lemma compact_keeps_positive_witness :
  let P := mkPop (mkPragmas true false)
                 [(1%Z, mkGroup None 0 [] [] (Some ThePop) (Some 1%Z));
                  (2%Z, mkGroup None (Qc_of_Z 3) [("a"%string, VInt 1)] []
                                (Some ThePop) (Some 2%Z))]
                 [] [] (Qc_of_Z 3) 0 0 true in
  Reg.get (groups (compact P)) 1 = None /\
  compact (compact P) = compact P /\
  get_groups_mass (compact P) = get_groups_mass P.
Proof.
  intros P. destruct (compact_keeps_positive P) as (H1 & H2 & _ & H4 & _).
  - simpl. repeat constructor; simpl; intuition discriminate.
  - split; [rewrite H1; reflexivity|]. split; [exact H2|].
    apply H4. intros k g [E|[E|[]]]; inversion E; subst; simpl;
      unfold Qcle; simpl; discriminate.
Defined.

Lemma vita_mass_set vs k x k' :
  vita_mass (Reg.set vs k x) k' =
  if (k =? k')%Z then g_m x else vita_mass vs k'.
Proof.
  unfold vita_mass. rewrite reg_get_set. now destruct (k =? k')%Z.
Qed.

(** X20. [add_vita_group] collects mass under the hash of the group:
    afterwards the VITA registry holds, under that hash, the mass it
    held before plus the mass of the group, and under any other hash
    what it held before.  Nothing is counted yet: the registered
    groups, [get_mass()], the mass in and the mass out are
    unchanged. *)
Theorem add_vita_group_collects (proto : protocol) (P : population)
        (g : group) :
  let h := snd (Group.get_hash proto g) in
  let P' := add_vita_group proto P g in
  (forall k, vita_mass (vita_groups P') k =
             if (h =? k)%Z then vita_mass (vita_groups P) h + g_m g
             else vita_mass (vita_groups P) k) /\
  (NoDup (Reg.keys (vita_groups P)) -> NoDup (Reg.keys (vita_groups P'))) /\
  groups P' = groups P /\ get_mass P' = get_mass P /\
  m_in P' = m_in P /\ m_out P' = m_out P.
Proof.
  intros h P'. subst h P'. unfold add_vita_group.
  destruct (get_hash_fields proto g) as (_ & Hm & _).
  destruct (Group.get_hash proto g) as [g1 h]. simpl in *.
  destruct (Reg.get (vita_groups P) h) as [g0|] eqn:E; simpl.
  - repeat split; try apply reg_keys_set_NoDup.
    intros k. rewrite vita_mass_set. simpl.
    destruct (h =? k)%Z; [|reflexivity].
    unfold vita_mass. rewrite E, Hm. reflexivity.
  - repeat split; try apply reg_keys_set_NoDup.
    intros k. rewrite vita_mass_set, Hm.
    destruct (h =? k)%Z; [|reflexivity].
    unfold vita_mass. rewrite E. ring.
Qed.

(** X21. [get_group] finds what [add_group] has just registered: after
    [add_group] has returned for a group whose cached hash, if any, is
    up to date, looking up the attributes and relations of the group
    gives a group whose mass is the mass found there before (0 if there
    was none) plus the mass of the group added. *)
Theorem get_group_after_add_group (proto : protocol) (P P' : population)
        (g : group) :
  hash_fresh proto g ->
  add_group proto P g = (P', Ok tt) ->
  exists g',
    get_group proto P' (g_attr g) (g_rel g) = Some g' /\
    g_m g' =
      match get_group proto P (g_attr g) (g_rel g) with
      | Some g0 => g_m g0
      | None => 0
      end + g_m g /\
    (get_group proto P (g_attr g) (g_rel g) = None ->
     g_attr g' = g_attr g /\ g_rel g' = g_rel g /\ g_pop g' = Some ThePop).
Proof.
  intros Hf. rewrite add_group_cases. cbv zeta. unfold get_group.
  assert (Eh : snd (Group.get_hash proto g) =
               Group.gen_hash proto (g_attr g) (g_rel g)).
  { unfold Group.get_hash. destruct (g_hash g) eqn:E; simpl; [|reflexivity].
    now apply Hf. }
  destruct (get_hash_fields proto g) as (_ & Hm & Ha & Hr & _).
  rewrite Eh.
  destruct (Reg.get (groups P) _) as [g0|] eqn:E.
  - intros H. inversion H; subst P'; clear H. simpl.
    rewrite reg_get_set_eq. eexists. split; [reflexivity|]. simpl.
    split; [reflexivity|discriminate].
  - destruct (Group.link_to_site_at _ _ _) as [ss|e]; [|discriminate].
    intros H. inversion H; subst P'; clear H. simpl.
    rewrite reg_get_set_eq. eexists. split; [reflexivity|]. simpl.
    rewrite Hm, Ha, Hr. repeat split. ring.
Qed.

Lemma get_group_after_add_group_witness :
  let P := init (mkPragmas true false) in
  let g := Group.init None (Qc_of_Z 3) [("a"%string, VInt 1)] [] in
  let P' := fst (add_group Proto4 P g) in
  exists g',
    get_group Proto4 P' (g_attr g) (g_rel g) = Some g' /\
    g_m g' =
      match get_group Proto4 P (g_attr g) (g_rel g) with
      | Some g0 => g_m g0
      | None => 0
      end + g_m g /\
    (get_group Proto4 P (g_attr g) (g_rel g) = None ->
     g_attr g' = g_attr g /\ g_rel g' = g_rel g /\ g_pop g' = Some ThePop).
Proof.
  intros P g P'. apply get_group_after_add_group.
  - intros h Hh. discriminate.
  - vm_compute. reflexivity.
Defined.

End Housekeeping.

(** ** The post-iteration step, twice *)

Section PostIterationBooks.
Local Open Scope Qc_scope.
Import GroupPopulation.

(** A population without VOID and VITA groups is left as it is. *)
Lemma do_post_iter_quiet P :
  (forall kv, In kv (groups P) -> Group.is_void (snd kv) = false) ->
  vita_groups P = [] ->
  do_post_iter P = (P, Ok tt).
Proof.
  intros Hnv Hv. unfold do_post_iter.
  assert (Hd : debit_void P = P).
  { unfold debit_void, Reg.values.
    assert (H : forall l : list (Z * group),
              (forall kv, In kv l -> Group.is_void (snd kv) = false) ->
              forall Q,
                fold_left
                  (fun P v =>
                     if Group.is_void v
                     then set_masses P (pop_m P - g_m v) (m_in P)
                                     (m_out P + g_m v)
                     else P) (map snd l) Q = Q).
    { induction l as [|kv l IH]; intros Hl Q; simpl; [reflexivity|].
      rewrite (Hl kv) by now left. apply IH. intros kv' Hin. apply Hl.
      now right. }
    now apply H. }
  rewrite Hd.
  assert (Hf : drop_void P = P).
  { unfold drop_void.
    replace (filter (fun kv => negb (Group.is_void (snd kv))) (groups P))
      with (groups P); [now destruct P|].
    symmetry. clear Hd Hv. induction (groups P) as [|kv l IH]; simpl;
      [reflexivity|].
    rewrite (Hnv kv) by now left. simpl. f_equal. apply IH.
    intros kv' Hin. apply Hnv. now right. }
  rewrite Hf, Hv. simpl. destruct P; simpl in *. now subst.
Qed.

Lemma do_post_iter_state P :
  NoDup (Reg.keys (groups P)) ->
  NoDup (Reg.keys (vita_groups P)) ->
  (forall k v, In (k, v) (vita_groups P) ->
     exists g, Reg.get (groups P) k = Some g /\ Group.is_void g = false) ->
  exists P',
    do_post_iter P = (P', Ok tt) /\
    groups P' = map (fold_in (vita_groups P)) (filter not_void (groups P)) /\
    pop_m P' = pop_m P - void_mass (groups P)
               + Qc_sum (map g_m (Reg.values (vita_groups P))) /\
    vita_groups P' = [].
Proof.
  intros Hg Hv Hm. unfold do_post_iter.
  destruct (debit_void_fold (Reg.values (groups P)) P)
    as (D1 & D2 & D3 & D4 & D5 & D6 & D7 & D8).
  fold (debit_void P) in D1, D2, D3, D4, D5, D6, D7, D8.
  set (P1 := drop_void (debit_void P)).
  assert (G1 : groups P1 = filter not_void (groups P)).
  { unfold P1, drop_void. simpl. now rewrite D4. }
  assert (V1 : vita_groups P1 = vita_groups P) by (unfold P1; simpl; exact D6).
  destruct (fold_vita_matched (vita_groups P1) P1)
    as (P' & E & G & M & MI & MO & S & V & SM & F).
  - rewrite G1. now apply filter_keys_NoDup.
  - now rewrite V1.
  - rewrite V1, G1. intros k v Hin.
    destruct (Hm k v Hin) as (g & Hget & Hnv).
    rewrite (reg_get_filter not_void _ k g); auto; [discriminate|].
    unfold not_void. simpl. now rewrite Hnv.
  - rewrite E. simpl. eexists. split; [reflexivity|]. simpl.
    rewrite G, M, G1, V1. unfold P1. simpl. rewrite D1. unfold void_mass.
    repeat split.
Qed.

(** X22. [do_post_iter] is idempotent.  When every VITA group has its
    hash registered to a group that is not VOID, the call returns, and
    a second call returns too and changes nothing: no VOID group and no
    VITA group is left for it. *)
Theorem do_post_iter_idempotent (P : population) :
  NoDup (Reg.keys (groups P)) ->
  NoDup (Reg.keys (vita_groups P)) ->
  (forall k v, In (k, v) (vita_groups P) ->
     exists g, Reg.get (groups P) k = Some g /\ Group.is_void g = false) ->
  exists P',
    do_post_iter P = (P', Ok tt) /\
    do_post_iter P' = (P', Ok tt).
Proof.
  intros Hg Hv Hm.
  destruct (do_post_iter_state P Hg Hv Hm) as (P' & E & G & M & V).
  exists P'. split; [exact E|].
  apply do_post_iter_quiet; [|exact V].
  rewrite G. intros kv Hin. apply in_map_iff in Hin as (kv0 & <- & Hin).
  apply filter_In in Hin as [_ Hnv]. unfold not_void in Hnv.
  unfold fold_in. simpl. now apply negb_true_iff in Hnv.
Qed.

Lemma do_post_iter_idempotent_witness :
  let P := mkPop (mkPragmas true false)
                 [(1%Z, mkGroup None (Qc_of_Z 2) Group.VOID [] (Some ThePop) (Some 1%Z));
                  (2%Z, mkGroup None (Qc_of_Z 3) [] [] (Some ThePop) (Some 2%Z))]
                 []
                 [(2%Z, mkGroup None (Qc_of_Z 5) [] [] None (Some 2%Z))]
                 (Qc_of_Z 5) 0 0 true in
  exists P',
    do_post_iter P = (P', Ok tt) /\
    do_post_iter P' = (P', Ok tt).
Proof.
  intros P. apply do_post_iter_idempotent.
  - simpl. repeat constructor; simpl; intuition discriminate.
  - simpl. repeat constructor; simpl; intuition.
  - intros k v [E|[]]. inversion E; subst. eexists. split; reflexivity.
Defined.

End PostIterationBooks.

(** ** The mass at a site *)

Section SiteMass.
Local Open Scope Qc_scope.
Import GroupPopulation.








End SiteMass.

(** ** The total mass over a run *)

Section RunTotals.
Local Open Scope Qc_scope.
Import GroupPopulation.

Lemma same_total_refl P : same_total P P.
Proof. intros H. auto. Qed.

Lemma same_total_trans P1 P2 P3 :
  same_total P1 P2 -> same_total P2 P3 -> same_total P1 P3.
Proof.
  intros H1 H2 F. destruct (H1 F) as [F2 M2]. destruct (H2 F2) as [F3 M3].
  split; congruence.
Qed.

Lemma add_group_total proto P g : same_total P (fst (add_group proto P g)).
Proof.
  intros F. rewrite add_group_cases. cbv zeta. rewrite F.
  destruct (Reg.get (groups P) _); [split; [exact F|reflexivity]|].
  destruct (Group.link_to_site_at _ _ _); split; simpl; auto.
Qed.

Lemma add_groups_total proto gs : forall P,
  same_total P (fst (add_groups proto P gs)).
Proof.
  induction gs as [|g gs IH]; intros P; simpl; [apply same_total_refl|].
  pose proof (add_group_total proto P g) as H.
  destruct (add_group proto P g) as [P1 [[]|e]]; simpl in *; [|exact H].
  eapply same_total_trans; [exact H|apply IH].
Qed.

Lemma zero_sources_total srcs : forall P,
  same_total P
    (fold_left
       (fun P h =>
          match Reg.get (groups P) h with
          | Some g => set_groups P (Reg.set (groups P) h (Group.set_m g 0%Qc))
          | None => P
          end) srcs P).
Proof.
  induction srcs as [|h srcs IH]; intros P; simpl; [apply same_total_refl|].
  eapply same_total_trans; [|apply IH].
  destruct (Reg.get (groups P) h); intros F; auto.
Qed.

Lemma transfer_mass_total proto P srcs dst :
  same_total P (fst (transfer_mass proto P srcs dst)).
Proof.
  unfold transfer_mass.
  match goal with
  | |- context [add_groups proto ?Q dst] =>
      assert (HQ : same_total P Q) by apply zero_sources_total;
      pose proof (add_groups_total proto dst Q) as H;
      destruct (add_groups proto Q dst) as [P1 [[]|e]]
  end; simpl in *.
  - eapply same_total_trans; [exact HQ|].
    eapply same_total_trans; [exact H|].
    destruct (relink _ _); intros F; auto.
  - eapply same_total_trans; [exact HQ|exact H].
Qed.

Lemma apply_with_total proto P f :
  same_total P (fst (apply_with proto P f)).
Proof.
  unfold apply_with. destruct (collect P f (groups P)) as [[[|h srcs] dst]|e];
    simpl; try apply same_total_refl.
  apply transfer_mass_total.
Qed.

Lemma compact_if_total sm :
  same_total (Simulation.pop sm) (Simulation.pop (Simulation.compact_if sm)).
Proof.
  unfold Simulation.compact_if.
  destruct (autocompact _); intros F; auto.
Qed.

Lemma iteration_total proto sm :
  same_total (Simulation.pop sm)
             (Simulation.pop (fst (Simulation.iteration proto sm))).
Proof.
  unfold Simulation.iteration, apply_rules.
  pose proof (apply_with_total proto (Simulation.pop sm)
                (fun g => Group.apply_rules (Simulation.pop sm) g
                            (Simulation.rules sm) (Simulation.timer_i sm)
                            (Simulation.timer_t sm) Group.Iterate)) as H.
  destruct (apply_with _ _ _) as [P1 [[]|e]]; simpl in *; [|exact H].
  eapply same_total_trans; [exact H|].
  destruct (Simulation.autostop sm); [destruct (Qc_ltb 0 (pop_m P1))|];
    try apply (compact_if_total (Simulation.timer_step (Simulation.set_pop sm P1))).
  match goal with
  | |- context [Simulation.compact_if ?s0] =>
      pose proof (compact_if_total s0) as Hc
  end.
  destruct (Simulation.autostop_t sm <=? _); simpl in *;
    [apply same_total_refl|exact Hc].
Qed.

Lemma iterations_total proto n : forall sm,
  same_total (Simulation.pop sm)
             (Simulation.pop (fst (Simulation.iterations proto n sm))).
Proof.
  induction n as [|n IH]; intros sm; simpl; [apply same_total_refl|].
  pose proof (iteration_total proto sm) as H.
  destruct (Simulation.iteration proto sm) as [sm1 [[|]|e]]; simpl in *;
    try exact H.
  eapply same_total_trans; [exact H|apply IH].
Qed.

Lemma rule_setup_total proto sm :
  same_total (Simulation.pop sm)
             (Simulation.pop (fst (Simulation.rule_setup proto sm))).
Proof.
  unfold Simulation.rule_setup, Simulation.lift.
  destruct (Simulation.is_setup_done sm); [apply same_total_refl|].
  set (o := match Simulation.fn_group_setup sm with
            | Some fn => apply_sim_setup proto (Simulation.pop sm) fn
            | None => (Simulation.pop sm, Ok tt)
            end).
  assert (H1 : same_total (Simulation.pop sm) (fst o)).
  { unfold o. destruct (Simulation.fn_group_setup sm);
      [apply apply_with_total|apply same_total_refl]. }
  clearbody o. destruct o as [P1 [[]|e]]; simpl in *; [|exact H1].
  eapply same_total_trans; [exact H1|].
  unfold apply_rules.
  match goal with
  | |- context [apply_with proto P1 ?f] =>
      pose proof (apply_with_total proto P1 f) as H2;
      destruct (apply_with proto P1 f) as [P2 [[]|e]]; simpl in *; exact H2
  end.
Qed.

Lemma run_total proto sm iter :
  pop_m (Simulation.pop (fst (Simulation.run proto sm iter))) =
  pop_m (Simulation.pop sm).
Proof.
  unfold Simulation.run.
  destruct (Simulation.rules sm) as [|r rs] eqn:Er; [reflexivity|].
  destruct (groups (Simulation.pop sm)) as [|kv gs] eqn:Eg; [reflexivity|].
  match goal with
  | |- context [Simulation.rule_setup proto ?s0] =>
      pose proof (rule_setup_total proto s0) as H1;
      destruct (Simulation.rule_setup proto s0) as [sm1 [[]|e]];
      simpl in H1 |- *; destruct (H1 eq_refl) as [F1 M1];
      change (pop_m (freeze (Simulation.pop sm)))
        with (pop_m (Simulation.pop sm)) in M1;
      [|exact M1]
  end.
  destruct (compact_if_total sm1 F1) as [F1' M1'].
  match goal with
  | |- context [Simulation.iterations proto ?n ?s0] =>
      pose proof (iterations_total proto n s0) as H2;
      destruct (Simulation.iterations proto n s0) as [sm2 [[]|e]]
  end; simpl in H2; destruct (H2 F1') as [F2 M2].
  - unfold Simulation.lift, apply_rules.
    match goal with
    | |- context [apply_with proto ?Q ?f] =>
        pose proof (apply_with_total proto Q f) as H3;
        destruct (apply_with proto Q f) as [P3 [[]|e]]
    end; simpl in *; destruct (H3 F2) as [F3 M3].
    + pose proof (compact_if_total (Simulation.set_pop sm2 P3)) as H4.
      simpl in H4. destruct (H4 F3) as [F4 M4]. congruence.
    + congruence.
  - simpl. congruence.
Qed.

(** X24. A run leaves the totals alone.  Whatever the rules do and
    whether the run returns or raises, [get_mass()], the mass in, the
    mass out and the VITA registry are after [run(iter)] what they were
    before: the population is frozen before the first rule is applied,
    and nothing that [run] calls debits a VOID group or credits a VITA
    group.  ([iter] is not 0: [run(0)] divides by zero when it sets the
    progress step.) *)
Theorem run_leaves_totals (proto : protocol) (sm : Simulation.t) (iter : Z) :
  iter <> 0%Z ->
  let P' := Simulation.pop (fst (Simulation.run proto sm iter)) in
  get_mass P' = get_mass (Simulation.pop sm) /\
  m_in P' = m_in (Simulation.pop sm) /\
  m_out P' = m_out (Simulation.pop sm) /\
  vita_groups P' = vita_groups (Simulation.pop sm).
Proof.
  intros _ P'. subst P'. unfold get_mass.
  destruct (run_ledger proto sm iter) as (Ho & Hi & Hv).
  split; [apply run_total|]. repeat split; assumption.
Qed.

Lemma run_leaves_totals_witness :
  let sm := void_watch_sim Proto4 in
  let P' := Simulation.pop (fst (Simulation.run Proto4 sm 2)) in
  get_mass P' = get_mass (Simulation.pop sm) /\
  m_in P' = m_in (Simulation.pop sm) /\
  m_out P' = m_out (Simulation.pop sm) /\
  vita_groups P' = vita_groups (Simulation.pop sm).
Proof.
  intros sm. apply run_leaves_totals. lia.
Defined.

End RunTotals.

(** ** The timer over a run *)

Section RunTimer.
Import GroupPopulation.

Lemma iteration_timer proto sm sm' :
  Simulation.autostop sm = false ->
  Simulation.iteration proto sm = (sm', Ok false) ->
  Simulation.timer_i sm' = Simulation.timer_i sm + 1 /\
  Simulation.timer_i_max sm' = Simulation.timer_i_max sm /\
  Simulation.timer_t sm' =
    (Simulation.timer_i sm + 1) mod Simulation.timer_tmax sm
    + Simulation.timer_tmin sm /\
  Simulation.timer_tmax sm' = Simulation.timer_tmax sm /\
  Simulation.timer_tmin sm' = Simulation.timer_tmin sm /\
  Simulation.autostop sm' = false /\
  Simulation.run_cnt sm' = Simulation.run_cnt sm /\
  Simulation.is_setup_done sm' = Simulation.is_setup_done sm.
Proof.
  intros Ha. unfold Simulation.iteration.
  destruct (GroupPopulation.apply_rules _ _ _ _ _ _) as [P1 [[]|e]];
    [|discriminate].
  cbv zeta. simpl Simulation.autostop. rewrite Ha.
  unfold Simulation.compact_if.
  destruct (autocompact _); intros H; inversion H; subst; simpl;
    repeat split; assumption.
Qed.

Lemma iteration_no_stop proto sm sm' :
  Simulation.autostop sm = false ->
  Simulation.iteration proto sm <> (sm', Ok true).
Proof.
  intros Ha. unfold Simulation.iteration.
  destruct (GroupPopulation.apply_rules _ _ _ _ _ _) as [P1 [[]|e]];
    [|discriminate].
  cbv zeta. simpl Simulation.autostop. rewrite Ha. discriminate.
Qed.

Lemma iterations_timer proto n : forall sm sm',
  Simulation.autostop sm = false ->
  Simulation.iterations proto n sm = (sm', Ok tt) ->
  Simulation.timer_i sm' = Simulation.timer_i sm + Z.of_nat n /\
  Simulation.timer_i_max sm' = Simulation.timer_i_max sm /\
  Simulation.run_cnt sm' = Simulation.run_cnt sm /\
  Simulation.is_setup_done sm' = Simulation.is_setup_done sm.
Proof.
  induction n as [|n IH]; intros sm sm' Ha; simpl Simulation.iterations.
  - intros H. inversion H; subst. repeat split. simpl. lia.
  - destruct (Simulation.iteration proto sm) as [sm1 [[|]|e]] eqn:E;
      [|intros H|discriminate].
    + exfalso. exact (iteration_no_stop _ _ _ Ha E).
    + destruct (iteration_timer _ _ _ Ha E)
        as (Hi & Hm & _ & _ & _ & Ha1 & Hc & Hd).
      destruct (IH _ _ Ha1 H) as (Hi' & Hm' & Hc' & Hd').
      repeat split; try congruence. lia.
Qed.

(** X26. A run that returns has used up the timer.  With the autostop
    pragma off, a [run(iter)] that returns leaves the timer at its
    bound: [timer.i == timer.i_max], the bound being the one before the
    run plus [iter]; the run has counted itself in [run_cnt] and the
    setup is marked done.  (Rules and groups are present, the timer was
    not beyond the new bound, and [iter] and the period [tmax] are not
    0: [run] divides by the first and [Timer.step] by the second.) *)
Theorem run_uses_up_timer (proto : protocol) (sm : Simulation.t) (iter : Z) :
  iter <> 0 ->
  Simulation.rules sm <> [] -> groups (Simulation.pop sm) <> [] ->
  Simulation.timer_tmax sm <> 0 ->
  Simulation.autostop sm = false ->
  Simulation.timer_i sm <= Simulation.timer_i_max sm + iter ->
  snd (Simulation.run proto sm iter) = Ok tt ->
  let sm' := fst (Simulation.run proto sm iter) in
  Simulation.timer_i sm' = Simulation.timer_i_max sm + iter /\
  Simulation.timer_i_max sm' = Simulation.timer_i_max sm + iter /\
  Simulation.run_cnt sm' = Simulation.run_cnt sm + 1 /\
  Simulation.is_setup_done sm' = true.
Proof.
  intros _ Hr Hg _ Ha Hi. unfold Simulation.run.
  destruct (Simulation.rules sm) as [|r rs] eqn:Er; [contradiction|].
  destruct (groups (Simulation.pop sm)) as [|kv gs] eqn:Eg; [contradiction|].
  match goal with
  | |- context [Simulation.rule_setup proto ?s0] =>
      assert (H1 : forall s1, Simulation.rule_setup proto s0 = (s1, Ok tt) ->
                 Simulation.timer_i s1 = Simulation.timer_i sm /\
                 Simulation.timer_i_max s1 = Simulation.timer_i_max sm + iter /\
                 Simulation.autostop s1 = false /\
                 Simulation.run_cnt s1 = Simulation.run_cnt sm /\
                 Simulation.is_setup_done s1 = true);
      [|destruct (Simulation.rule_setup proto s0) as [sm1 [[]|e]];
        [specialize (H1 sm1 eq_refl)|discriminate]]
  end.
  { intros s1. unfold Simulation.rule_setup, Simulation.lift.
    simpl Simulation.is_setup_done.
    destruct (Simulation.is_setup_done sm) eqn:Ed.
    - intros H. inversion H; subst. simpl. auto.
    - simpl Simulation.fn_group_setup.
      destruct (match Simulation.fn_group_setup sm with
                | Some fn => _
                | None => _
                end) as [P1 [[]|e]]; [|discriminate].
      simpl. destruct (GroupPopulation.apply_rules _ _ _ _ _ _)
        as [P2 [[]|e]]; [|discriminate].
      intros H. inversion H; subst. simpl. auto. }
  destruct H1 as (Hi1 & Hm1 & Ha1 & Hc1 & Hd1).
  match goal with
  | |- context [Simulation.iterations proto ?n ?s0] =>
      pose proof (iterations_timer proto n s0) as H2;
      destruct (Simulation.iterations proto n s0) as [sm2 [[]|e]];
      [|discriminate]
  end.
  assert (Hcf : forall s, Simulation.timer_i (Simulation.compact_if s) =
                          Simulation.timer_i s /\
                          Simulation.timer_i_max (Simulation.compact_if s) =
                          Simulation.timer_i_max s /\
                          Simulation.autostop (Simulation.compact_if s) =
                          Simulation.autostop s /\
                          Simulation.run_cnt (Simulation.compact_if s) =
                          Simulation.run_cnt s /\
                          Simulation.is_setup_done (Simulation.compact_if s) =
                          Simulation.is_setup_done s).
  { intros s. unfold Simulation.compact_if. destruct (autocompact _);
      repeat split. }
  destruct (Hcf sm1) as (C1 & C2 & C3 & C4 & C5).
  destruct (H2 sm2) as (Hi2 & Hm2 & Hc2 & Hd2);
    [simpl; congruence | reflexivity |].
  simpl in Hi2, Hm2, Hc2, Hd2.
  unfold Simulation.lift.
  destruct (GroupPopulation.apply_rules _ _ _ _ _ _) as [P3 [[]|e]];
    [|discriminate].
  intros _. simpl.
  destruct (Hcf (Simulation.set_pop sm2 P3)) as (D1 & D2 & D3 & D4 & D5).
  simpl in D1, D2, D3, D4, D5.
  rewrite D1, D2, D4, D5, Hi2, Hm2, Hc2, Hd2, C1, C2, C4, C5, Hi1, Hm1, Hc1, Hd1.
  repeat split; lia.
Qed.

Lemma run_uses_up_timer_witness :
  let sm' := fst (Simulation.run Proto4 (void_watch_sim Proto4) 2) in
  Simulation.timer_i sm' = 0 + 2 /\
  Simulation.timer_i_max sm' = 0 + 2 /\
  Simulation.run_cnt sm' = 0 + 1 /\
  Simulation.is_setup_done sm' = true.
Proof.
  apply (run_uses_up_timer Proto4 (void_watch_sim Proto4) 2).
  - lia.
  - discriminate.
  - vm_compute. discriminate.
  - simpl. lia.
  - reflexivity.
  - simpl. lia.
  - vm_compute. reflexivity.
Defined.

End RunTimer.

(** ** The range of the hash *)

Section HashRange.

Lemma wrap_range x : 0 <= XXH64.wrap x < 2 ^ 64.
Proof. unfold XXH64.wrap. apply Z.mod_pos_bound. lia. Qed.

Lemma lxor_range a b n :
  0 <= n -> 0 <= a < 2 ^ n -> 0 <= b < 2 ^ n -> 0 <= Z.lxor a b < 2 ^ n.
Proof.
  intros Hn Ha Hb.
  assert (H0 : 0 <= Z.lxor a b) by (apply Z.lxor_nonneg; lia).
  split; [exact H0|].
  destruct (Z.eq_dec (Z.lxor a b) 0) as [E|E].
  - rewrite E. apply Z.pow_pos_nonneg; lia.
  - apply Z.log2_lt_pow2; [lia|].
    eapply Z.le_lt_trans; [apply Z.log2_lxor; lia|].
    apply Z.max_lub_lt.
    + destruct (Z.eq_dec a 0) as [->|Ha0];
        [simpl; destruct (Z.eq_dec n 0); [|lia]|apply Z.log2_lt_pow2; lia].
      subst n. exfalso. apply E.
      replace b with 0 by (simpl in Hb; lia). reflexivity.
    + destruct (Z.eq_dec b 0) as [->|Hb0];
        [simpl; destruct (Z.eq_dec n 0); [|lia]|apply Z.log2_lt_pow2; lia].
      subst n. exfalso. apply E.
      replace a with 0 by (simpl in Ha; lia). reflexivity.
Qed.

Lemma shiftr_range a k n :
  0 <= k -> 0 <= a < 2 ^ n -> 0 <= Z.shiftr a k < 2 ^ n.
Proof.
  intros Hk Ha. rewrite Z.shiftr_div_pow2 by lia.
  assert (Hp : 0 < 2 ^ k) by (apply Z.pow_pos_nonneg; lia).
  split.
  - apply Z.div_pos; lia.
  - eapply Z.le_lt_trans; [|exact (proj2 Ha)].
    apply Z.div_le_upper_bound; [exact Hp|]. nia.
Qed.

Lemma avalanche_range h : 0 <= XXH64.avalanche h < 2 ^ 64.
Proof.
  unfold XXH64.avalanche.
  apply lxor_range; [lia|apply wrap_range|].
  apply shiftr_range; [lia|apply wrap_range].
Qed.

(** X27. The hash of a group is an unsigned 64-bit integer: whatever
    the attributes and the relations and under both pickle protocols,
    [gen_hash] returns a value between 0 and 2^64 - 1, and so does
    [get_hash] on a group that has no hash cached. *)
Theorem gen_hash_range (proto : protocol) (attr rel : dict) :
  (0 <= Group.gen_hash proto attr rel < 2 ^ 64) /\
  (forall g, g_hash g = None ->
             0 <= snd (Group.get_hash proto g) < 2 ^ 64).
Proof.
  assert (H : forall data, 0 <= XXH64.intdigest data < 2 ^ 64).
  { intros data. unfold XXH64.intdigest.
    destruct (32 <=? length data)%nat.
    - destruct (XXH64.stripes _ _ _) as [[[[v1 v2] v3] v4] rest].
      destruct (XXH64.tail8 _ _ _) as [h' rest'].
      destruct (XXH64.tail4 _ _) as [h'' rest''].
      apply avalanche_range.
    - destruct (XXH64.tail8 _ _ _) as [h' rest'].
      destruct (XXH64.tail4 _ _) as [h'' rest''].
      apply avalanche_range. }
  split; [apply H|].
  intros g Hg. unfold Group.get_hash. rewrite Hg. simpl. apply H.
Qed.

End HashRange.

(** ** The timer *)

Section TimerFacts.
Import Timer.

Lemma step_in_period T T1 :
  0 < tmax T -> started T = true -> i T + 1 <= i_max T -> 0 <= i T ->
  step T = (T1, None) ->
  i T1 = i T + 1 /\ i_max T1 = i_max T /\ tmin T1 = tmin T /\
  tmax T1 = tmax T /\ started T1 = true /\
  t T1 = (i T + 1) mod tmax T + tmin T /\
  t_loop_cnt T1 =
    t_loop_cnt T + (if (i T + 1) mod tmax T =? 0 then 1 else 0).
Proof.
  intros Hm Hs Hi H0. unfold step.
  destruct (i_max T <? i T + 1) eqn:E1; [apply Z.ltb_lt in E1; lia|].
  destruct (tmax T =? 0) eqn:E2; [apply Z.eqb_eq in E2; lia|].
  rewrite Hs. cbv zeta. intros H. inversion H; subst T1; clear H. simpl.
  repeat split; auto.
  assert (E3 : (0 <? i T + 1) = true) by (apply Z.ltb_lt; lia).
  rewrite E3. simpl.
  destruct ((i T + 1) mod tmax T =? 0) eqn:E4.
  - apply Z.eqb_eq in E4. rewrite E4. simpl. rewrite Z.eqb_refl. reflexivity.
  - apply Z.eqb_neq in E4.
    destruct ((i T + 1) mod tmax T + tmin T =? tmin T) eqn:E5.
    + apply Z.eqb_eq in E5. lia.
    + lia.
Qed.

Lemma step_returns T :
  0 < tmax T -> started T = true -> i T + 1 <= i_max T ->
  snd (step T) = None.
Proof.
  intros Hm Hs Hi. unfold step.
  destruct (i_max T <? i T + 1) eqn:E1; [apply Z.ltb_lt in E1; lia|].
  destruct (tmax T =? 0) eqn:E2; [apply Z.eqb_eq in E2; lia|].
  now rewrite Hs.
Qed.

Lemma div_succ a b :
  0 <= a -> 0 < b ->
  (a + 1) / b = a / b + (if (a + 1) mod b =? 0 then 1 else 0).
Proof.
  intros Ha Hb.
  pose proof (Z.div_mod a b ltac:(lia)) as D1.
  pose proof (Z.div_mod (a + 1) b ltac:(lia)) as D2.
  pose proof (Z.mod_pos_bound a b Hb) as B1.
  pose proof (Z.mod_pos_bound (a + 1) b Hb) as B2.
  destruct ((a + 1) mod b =? 0) eqn:E.
  - apply Z.eqb_eq in E. nia.
  - apply Z.eqb_neq in E. nia.
Qed.

Lemma steps_count k : forall T,
  0 < tmax T -> started T = true -> 0 <= i T ->
  i T + Z.of_nat k <= i_max T ->
  snd (steps k T) = None /\
  i (fst (steps k T)) = i T + Z.of_nat k /\
  i_max (fst (steps k T)) = i_max T /\
  tmin (fst (steps k T)) = tmin T /\ tmax (fst (steps k T)) = tmax T /\
  t_loop_cnt (fst (steps k T)) =
    t_loop_cnt T + ((i T + Z.of_nat k) / tmax T - i T / tmax T) /\
  ((0 < k)%nat ->
   t (fst (steps k T)) = (i T + Z.of_nat k) mod tmax T + tmin T).
Proof.
  induction k as [|k IH]; intros T Hm Hs H0 Hi.
  - simpl. rewrite Z.add_0_r. repeat split; try lia.
  - simpl steps. pose proof (step_returns T Hm Hs ltac:(lia)) as Hr.
    destruct (step T) as [T1 e] eqn:E. simpl in Hr. subst e.
    destruct (step_in_period T T1 Hm Hs ltac:(lia) H0 E)
      as (Hi1 & Hm1 & Hn1 & Hx1 & Hs1 & Ht1 & Hc1).
    destruct (IH T1) as (R & I & M & N & X & C & Tm); try lia; auto.
    rewrite I, M, N, X, C, Hi1, Hm1, Hn1, Hx1, Hc1.
    replace (i T + 1 + Z.of_nat k) with (i T + Z.of_nat (S k)) by lia.
    repeat split; auto.
    + rewrite (div_succ (i T) (tmax T)) by lia. lia.
    + intros _. destruct k as [|k].
      * simpl in *. rewrite Ht1. reflexivity.
      * rewrite Tm by lia. rewrite Hi1, Hx1, Hn1. f_equal. f_equal. lia.
Qed.

(** X28. What a timer shows after [k] steps.  On a timer that has been
    started, with a period [tmax > 0], at iteration 0 with no loop
    counted, and for [k] within the bound [i_max]: none of the [k]
    calls of [step()] raises; afterwards the iteration count is [k],
    the time is [k mod tmax + tmin], which lies in
    [tmin, tmin + tmax), and the loop count is [k / tmax], the number
    of times the time has come back to [tmin].  The next call beyond
    the bound raises [TypeError] and leaves the count at the bound. *)
Theorem timer_after_steps (T : timer) (k : nat) :
  0 < tmax T -> started T = true -> i T = 0 -> t_loop_cnt T = 0 ->
  Z.of_nat k <= i_max T ->
  snd (steps k T) = None /\
  i (fst (steps k T)) = Z.of_nat k /\
  t_loop_cnt (fst (steps k T)) = Z.of_nat k / tmax T /\
  ((0 < k)%nat ->
   t (fst (steps k T)) = Z.of_nat k mod tmax T + tmin T /\
   tmin T <= t (fst (steps k T)) < tmin T + tmax T) /\
  (Z.of_nat k = i_max T ->
   snd (step (fst (steps k T))) = Some TypeError /\
   i (fst (step (fst (steps k T)))) = i_max T /\
   get_i_left (fst (step (fst (steps k T)))) = 0).
Proof.
  intros Hm Hs Hi Hc Hk.
  destruct (steps_count k T Hm Hs ltac:(lia) ltac:(lia))
    as (R & I & M & N & X & C & Tm).
  rewrite Hi in *. rewrite Hc in C. simpl in I, C, Tm.
  rewrite Z.div_0_l in C by lia.
  assert (Hlast : Z.of_nat k = i_max T ->
                  step (fst (steps k T)) =
                  (mk (i_max T) (i_max T) (t0 (fst (steps k T))) (tmin T)
                      (tmax T) (t (fst (steps k T)))
                      (t_loop_cnt (fst (steps k T)))
                      (started (fst (steps k T)))
                      (is_running (fst (steps k T)))
                      (do_disp_zero (fst (steps k T)))
                      (did_loop_on_last_iter (fst (steps k T))),
                   Some TypeError)).
  { intros E. unfold step. rewrite I, M, N, X.
    destruct (i_max T <? Z.of_nat k + 1) eqn:El; [reflexivity|].
    apply Z.ltb_ge in El. lia. }
  split; [exact R|]. split; [exact I|]. split; [lia|]. split.
  - intros Hpos. rewrite (Tm Hpos).
    pose proof (Z.mod_pos_bound (Z.of_nat k) (tmax T) Hm). lia.
  - intros E. rewrite (Hlast E). unfold get_i_left. simpl.
    repeat split; lia.
Qed.

Lemma timer_after_steps_witness :
  let T := start (add_iter (mk 0 0 0 0 24 0 0 false false true false) 50) in
  snd (steps 50 T) = None /\
  i (fst (steps 50 T)) = 50 /\
  t_loop_cnt (fst (steps 50 T)) = 2 /\
  t (fst (steps 50 T)) = 2 /\
  snd (step (fst (steps 50 T))) = Some TypeError.
Proof.
  intros T.
  destruct (timer_after_steps T 50) as (H1 & H2 & H3 & H4 & H5).
  - reflexivity.
  - reflexivity.
  - reflexivity.
  - reflexivity.
  - simpl. lia.
  - destruct H4 as [H4 _]; [lia|]. destruct H5 as [H5 _]; [reflexivity|].
    repeat split; assumption.
Defined.

End TimerFacts.

(** ** The hash of a site *)

Section SiteHash.

Lemma ascii_compare_refl a : Ascii.compare a a = Eq.
Proof. unfold Ascii.compare. apply N.compare_refl. Qed.

Lemma ascii_compare_lt_trans a b c :
  Ascii.compare a b = Lt -> Ascii.compare b c = Lt -> Ascii.compare a c = Lt.
Proof.
  unfold Ascii.compare. rewrite !N.compare_lt_iff. apply N.lt_trans.
Qed.

Lemma string_leb_trans : forall s1 s2 s3,
  String.leb s1 s2 = true -> String.leb s2 s3 = true ->
  String.leb s1 s3 = true.
Proof.
  unfold String.leb.
  induction s1 as [|a s1 IH]; intros [|b s2] [|c s3]; simpl; auto;
    try discriminate.
  destruct (Ascii.compare a b) eqn:Eab; try discriminate;
    destruct (Ascii.compare b c) eqn:Ebc; try discriminate.
  - apply Ascii.compare_eq_iff in Eab, Ebc. subst.
    rewrite ascii_compare_refl. apply IH.
  - apply Ascii.compare_eq_iff in Eab. subst. now rewrite Ebc.
  - apply Ascii.compare_eq_iff in Ebc. subst. now rewrite Eab.
  - now rewrite (ascii_compare_lt_trans _ _ _ Eab Ebc).
Qed.

Lemma insert_perm kv : forall l, Permutation (Json.insert kv l) (kv :: l).
Proof.
  induction l as [|kv' l IH]; simpl; [reflexivity|].
  destruct (String.leb (fst kv) (fst kv')); [reflexivity|].
  rewrite IH. apply perm_swap.
Qed.

Lemma sorted_perm d : Permutation (Json.sorted d) d.
Proof.
  induction d as [|kv d IH]; simpl; [reflexivity|].
  rewrite insert_perm. now constructor.
Qed.

Lemma insert_sorted kv : forall l,
  StronglySorted (fun a b => String.leb (fst a) (fst b) = true) l ->
  StronglySorted (fun a b => String.leb (fst a) (fst b) = true)
                 (Json.insert kv l).
Proof.
  induction l as [|kv' l IH]; intros H; simpl.
  - constructor; constructor.
  - inversion H as [|x l' Hs Hf]; subst.
    destruct (String.leb (fst kv) (fst kv')) eqn:E.
    + constructor; [exact H|]. constructor; [exact E|].
      eapply Forall_impl; [|exact Hf]. intros a Ha.
      eapply string_leb_trans; eassumption.
    + constructor; [now apply IH|].
      assert (E' : String.leb (fst kv') (fst kv) = true).
      { destruct (String.leb_total (fst kv) (fst kv')) as [H1|H1];
          [congruence|exact H1]. }
      eapply Permutation_Forall; [symmetry; apply insert_perm|].
      constructor; assumption.
Qed.

Lemma sorted_sorted d :
  StronglySorted (fun a b => String.leb (fst a) (fst b) = true)
                 (Json.sorted d).
Proof.
  induction d as [|kv d IH]; simpl; [constructor|]. now apply insert_sorted.
Qed.

Lemma sorted_unique : forall l1 l2 : dict,
  StronglySorted (fun a b => String.leb (fst a) (fst b) = true) l1 ->
  StronglySorted (fun a b => String.leb (fst a) (fst b) = true) l2 ->
  Permutation l1 l2 -> NoDup (Dict.keys l1) -> l1 = l2.
Proof.
  unfold Dict.keys.
  induction l1 as [|x l1 IH]; intros l2 S1 S2 Hp N.
  - apply Permutation_nil in Hp. now subst.
  - destruct l2 as [|y l2];
      [apply Permutation_sym, Permutation_nil in Hp; discriminate|].
    inversion S1 as [|? ? S1' F1]; subst.
    inversion S2 as [|? ? S2' F2]; subst.
    inversion N as [|? ? Hnin N']; subst.
    assert (Exy : x = y).
    { assert (Hx : In x (y :: l2))
        by (eapply Permutation_in; [exact Hp|now left]).
      assert (Hy : In y (x :: l1))
        by (eapply Permutation_in; [symmetry; exact Hp|now left]).
      destruct Hx as [Hx|Hx]; [now subst|].
      destruct Hy as [Hy|Hy]; [now subst|].
      rewrite Forall_forall in F1, F2.
      pose proof (String.leb_antisym _ _ (F1 _ Hy) (F2 _ Hx)) as Ek.
      exfalso. apply Hnin. rewrite Ek. now apply in_map. }
    subst y. f_equal. apply IH; auto.
    eapply Permutation_cons_inv; exact Hp.
Qed.

Lemma same_content_perm d1 d2 :
  NoDup (Dict.keys d1) -> NoDup (Dict.keys d2) ->
  Dict.same_content d1 d2 -> Permutation d1 d2.
Proof.
  intros N1 N2 H. apply NoDup_Permutation.
  - eapply NoDup_map_inv; exact N1.
  - eapply NoDup_map_inv; exact N2.
  - intros [k v]. split; intros Hin.
    + apply dict_get_in. rewrite <- H. now apply dict_in_get.
    + apply dict_get_in. rewrite H. now apply dict_in_get.
Qed.

Lemma sorted_same d1 d2 :
  NoDup (Dict.keys d1) -> NoDup (Dict.keys d2) ->
  Dict.same_content d1 d2 -> Json.sorted d1 = Json.sorted d2.
Proof.
  intros N1 N2 H. apply sorted_unique; try apply sorted_sorted.
  - rewrite !sorted_perm. now apply same_content_perm.
  - unfold Dict.keys.
    eapply Permutation_NoDup; [|exact N1].
    apply Permutation_map. symmetry. apply sorted_perm.
Qed.

(** X29. The hash of a site does not depend on the order of its
    attributes: [Site.gen_hash] writes them as JSON with sorted keys,
    so two attribute dicts that bind the same keys to the same values
    give, with the same name and relation name, the same hash.  (The
    hash of a group pickles the dicts as they are and does depend on
    the order.) *)
Theorem site_gen_hash_order_free (name rel_name : string) (attr1 attr2 : dict) :
  NoDup (Dict.keys attr1) -> NoDup (Dict.keys attr2) ->
  Dict.same_content attr1 attr2 ->
  Site.gen_hash name rel_name attr1 = Site.gen_hash name rel_name attr2.
Proof.
  intros N1 N2 H. unfold Site.gen_hash, Json.object.
  now rewrite (sorted_same attr1 attr2 N1 N2 H).
Qed.

Lemma site_gen_hash_order_free_witness :
  Site.gen_hash "school" "@" [("a"%string, VInt 1); ("b"%string, VInt 2)] =
  Site.gen_hash "school" "@" [("b"%string, VInt 2); ("a"%string, VInt 1)].
Proof.
  apply site_gen_hash_order_free.
  - simpl. repeat constructor; simpl; intuition discriminate.
  - simpl. repeat constructor; simpl; intuition discriminate.
  - intros k. cbn [Dict.get].
    destruct (String.eqb "a" k) eqn:Ea; destruct (String.eqb "b" k) eqn:Eb;
      try reflexivity.
    apply String.eqb_eq in Ea, Eb. subst. discriminate.
Defined.

(** The text [json.dumps] gives for a name with a quote, a backslash, a
    line feed, a DEL, an accented letter and an emoji, and a dict of
    every kind of value, as bytes. *)
Example json_dumps_bytes :
  let name := string_of_list_ascii
                (map Json.chr [97; 34; 98; 92; 99; 10; 127; 195; 169;
                               240; 159; 152; 128]) in
  bytes_of_string
    ("[" ++ Json.join
              [Json.quoted name; Json.quoted "@";
               Json.object [("b"%string, VInt 1); ("a"%string, VNone);
                            ("c"%string, VBool true); ("d"%string, VStr "x");
                            ("e"%string, VInt (-5));
                            (EmptyString, VBool false)]] ++ "]")%string =
  [91; 34; 97; 92; 34; 98; 92; 92; 99; 92; 110; 92; 117; 48; 48; 55; 102;
   92; 117; 48; 48; 101; 57; 92; 117; 100; 56; 51; 100; 92; 117; 100; 101;
   48; 48; 34; 44; 32; 34; 64; 34; 44; 32; 123; 34; 34; 58; 32; 102; 97;
   108; 115; 101; 44; 32; 34; 97; 34; 58; 32; 110; 117; 108; 108; 44; 32;
   34; 98; 34; 58; 32; 49; 44; 32; 34; 99; 34; 58; 32; 116; 114; 117; 101;
   44; 32; 34; 100; 34; 58; 32; 34; 120; 34; 44; 32; 34; 101; 34; 58; 32;
   45; 53; 125; 93].
Proof. vm_compute. reflexivity. Qed.

End SiteHash.
